(** * Waveform Draw core: parser, validator, serializer, run-length codec
      and document helpers, embedded from the TypeScript sources.

    JavaScript strings are sequences of UTF-16 code units; they are modelled
    as lists of [N].  Operations that can throw return [option] ([None] is the
    thrown exception).  The wall clock and the module-level id counter are
    threaded explicitly through a small state monad. *)

From Stdlib Require Import String Ascii.
From Stdlib Require Import List NArith PeanoNat Lia Bool.
From Stdlib Require Decimal.
From Stdlib Require DecimalPos.
Import ListNotations.

Set Implicit Arguments.

(* ================================================================== *)
(** * JavaScript strings *)

Definition char := N.
Definition jsstring := list char.

Definition chr (a : ascii) : char := N_of_ascii a.

(** An ASCII literal as a JavaScript string. *)
Definition str (s : string) : jsstring := map chr (list_ascii_of_string s).

Definition jsstring_eqb (a b : jsstring) : bool :=
  if list_eq_dec N.eq_dec a b then true else false.

(** Truthiness of a string and of a possibly undefined string. *)
Definition nonempty (s : jsstring) : bool :=
  match s with [] => false | _ :: _ => true end.

Definition truthy (o : option jsstring) : bool :=
  match o with Some s => nonempty s | None => false end.

(** [WhiteSpace] and [LineTerminator] code units: what [String.prototype.trim]
    strips and what the pattern [\s] matches. *)
Definition is_space (c : char) : bool :=
  ((9 <=? c) && (c <=? 13) || (c =? 32) || (c =? 160) || (c =? 5760)
   || (8192 <=? c) && (c <=? 8202) || (c =? 8232) || (c =? 8233)
   || (c =? 8239) || (c =? 8287) || (c =? 12288) || (c =? 65279))%N.

Fixpoint dropWhile (p : char -> bool) (s : jsstring) : jsstring :=
  match s with
  | c :: s' => if p c then dropWhile p s' else s
  | [] => []
  end.

(** [s.trim()] *)
Definition trim (s : jsstring) : jsstring :=
  rev (dropWhile is_space (rev (dropWhile is_space s))).

(** [s.startsWith(c)] for a one-character [c]. *)
Definition startsWith (c : char) (s : jsstring) : bool :=
  match s with c' :: _ => (c' =? c)%N | [] => false end.

Definition NL : char := 10%N.

(** [text.split('\n')] *)
Fixpoint split_nl (s : jsstring) : list jsstring :=
  match s with
  | [] => [[]]
  | c :: s' =>
      if (c =? NL)%N then [] :: split_nl s'
      else match split_nl s' with
           | l :: ls => (c :: l) :: ls
           | [] => [[c]]
           end
  end.

(** [lines.join('\n')] *)
Fixpoint join_nl (ls : list jsstring) : jsstring :=
  match ls with
  | [] => []
  | [l] => l
  | l :: ls' => l ++ NL :: join_nl ls'
  end.

(** Decimal rendering of a non-negative integer, as a template literal
    prints it (below 10^21, where JavaScript switches to exponents). *)
Fixpoint uint_chars (u : Decimal.uint) : jsstring :=
  match u with
  | Decimal.Nil => []
  | Decimal.D0 u => 48%N :: uint_chars u
  | Decimal.D1 u => 49%N :: uint_chars u
  | Decimal.D2 u => 50%N :: uint_chars u
  | Decimal.D3 u => 51%N :: uint_chars u
  | Decimal.D4 u => 52%N :: uint_chars u
  | Decimal.D5 u => 53%N :: uint_chars u
  | Decimal.D6 u => 54%N :: uint_chars u
  | Decimal.D7 u => 55%N :: uint_chars u
  | Decimal.D8 u => 56%N :: uint_chars u
  | Decimal.D9 u => 57%N :: uint_chars u
  end.

Definition show_N (n : N) : jsstring := uint_chars (N.to_uint n).

Fixpoint uint_string (u : Decimal.uint) : string :=
  match u with
  | Decimal.Nil => EmptyString
  | Decimal.D0 u => String "0" (uint_string u)
  | Decimal.D1 u => String "1" (uint_string u)
  | Decimal.D2 u => String "2" (uint_string u)
  | Decimal.D3 u => String "3" (uint_string u)
  | Decimal.D4 u => String "4" (uint_string u)
  | Decimal.D5 u => String "5" (uint_string u)
  | Decimal.D6 u => String "6" (uint_string u)
  | Decimal.D7 u => String "7" (uint_string u)
  | Decimal.D8 u => String "8" (uint_string u)
  | Decimal.D9 u => String "9" (uint_string u)
  end.

Definition show_nat (n : nat) : string := uint_string (Nat.to_uint n).

(** [parseInt(s, 10)] on a string of decimal digits.  Numbers are kept
    exact; JavaScript rounds integers from 2^53 on. *)
Definition parseInt10 (s : jsstring) : N :=
  fold_left (fun acc c => (10 * acc + (c - 48))%N) s 0%N.

(* ================================================================== *)
(** * Regular expressions

    The patterns of the parser and the validator are sequences of character
    classes, greedy quantifiers over a class, capture groups, one optional
    non-capturing group and the end anchor.  The matcher is the backtracking
    matcher of the language definition, written with continuations: a
    quantifier takes the longest run first and gives characters back when
    the rest of the pattern fails. *)

Inductive re : Type :=
| Cls (p : char -> bool)        (* one character of a class *)
| Star (p : char -> bool)       (* class*, greedy *)
| Plus (p : char -> bool)       (* class+, greedy *)
| Cat (a b : re)                (* concatenation *)
| Grp (i : nat) (a : re)        (* capture group number i *)
| Opt (a : re)                  (* (?: a)?, greedy *)
| Eos.                          (* $ *)

Declare Scope re_scope.
Delimit Scope re_scope with re.
Bind Scope re_scope with re.
Notation "a >> b" := (Cat a b) (at level 60, right associativity) : re_scope.

Definition captures := list (option jsstring).

Fixpoint set_nth {A} (i : nat) (x : A) (l : list A) : list A :=
  match l, i with
  | [], _ => []
  | _ :: l', O => x :: l'
  | y :: l', S i' => y :: set_nth i' x l'
  end.

Section Matcher.
Variable R : Type.

Fixpoint star (p : char -> bool) (s : jsstring) (k : jsstring -> option R)
  : option R :=
  match s with
  | c :: s' =>
      if p c then
        match star p s' k with
        | Some r => Some r
        | None => k s
        end
      else k s
  | [] => k s
  end.

Fixpoint run (r : re) (s : jsstring) (caps : captures)
         (k : jsstring -> captures -> option R) {struct r} : option R :=
  match r with
  | Cls p =>
      match s with
      | c :: s' => if p c then k s' caps else None
      | [] => None
      end
  | Star p => star p s (fun s' => k s' caps)
  | Plus p =>
      match s with
      | c :: s' => if p c then star p s' (fun s'' => k s'' caps) else None
      | [] => None
      end
  | Cat a b => run a s caps (fun s' caps' => run b s' caps' k)
  | Grp i a =>
      run a s caps
          (fun s' caps' =>
             k s' (set_nth i (Some (firstn (length s - length s') s)) caps'))
  | Opt a =>
      match run a s caps k with
      | Some r => Some r
      | None => k s caps
      end
  | Eos =>
      match s with
      | [] => k s caps
      | _ :: _ => None
      end
  end.
End Matcher.

(** [s.match(/^r/)] for a pattern with [n] capture groups: the match array
    (whole match first, an unset group as [None]), or [None] for [null].
    Every pattern of the sources starts with [^], so a match is only tried
    at the start of the string. *)
Definition regex_match (n : nat) (r : re) (s : jsstring) : option captures :=
  run (Grp 0 r) s (repeat None (S n)) (fun _ caps => Some caps).

Definition group (i : nat) (caps : captures) : option jsstring :=
  nth i caps None.

(** Character classes. *)
Definition is_chr (a : ascii) (c : char) : bool := (c =? chr a)%N.
Definition between (lo hi : ascii) (c : char) : bool :=
  ((chr lo <=? c) && (c <=? chr hi))%N.

(** [\d] *)
Definition is_digit (c : char) : bool := between "0" "9" c.
(** [\w] *)
Definition is_word (c : char) : bool :=
  between "A" "Z" c || between "a" "z" c || is_digit c || is_chr "_" c.
(** [[A-Za-z_]] *)
Definition is_name_start (c : char) : bool :=
  between "A" "Z" c || between "a" "z" c || is_chr "_" c.
(** [[01XZ]] *)
Definition is_state (c : char) : bool :=
  is_chr "0" c || is_chr "1" c || is_chr "X" c || is_chr "Z" c.
(** The double quote, written [\x22] in the patterns below. *)
Definition QUOTE : char := 34%N.
Definition is_quote (c : char) : bool := (c =? QUOTE)%N.
(** [[^\x22]] *)
Definition not_quote (c : char) : bool := negb (is_quote c).
(** [.] : anything but a line terminator *)
Definition is_dot (c : char) : bool :=
  negb ((c =? 10) || (c =? 13) || (c =? 8232) || (c =? 8233))%N.

(** [/^@(\w+):\s*(.+)$/] *)
Definition directiveRe : re :=
  (Cls (is_chr "@") >> Grp 1 (Plus is_word) >> Cls (is_chr ":") >> Star is_space
   >> Grp 2 (Plus is_dot) >> Eos)%re.

(** [/^(\d+)\s+\x22([^\x22]+)\x22$/] *)
Definition markerRe : re :=
  (Grp 1 (Plus is_digit) >> Plus is_space >> Cls is_quote
   >> Grp 2 (Plus not_quote) >> Cls is_quote >> Eos)%re.

(** The signal pattern of [parse], [parseSignal] and [validate]: [^], then
    group 1 = [[A-Za-z_][\w]*], then [\s*:\s*], then group 2 = [[01XZ]+],
    then an optional non-capturing [\s+\x22 group3 \x22] with
    group 3 = [[^\x22]+], then [$]. *)
Definition signalRe : re :=
  (Grp 1 (Cls is_name_start >> Star is_word) >> Star is_space
   >> Cls (is_chr ":") >> Star is_space >> Grp 2 (Plus is_state)
   >> Opt (Plus is_space >> Cls is_quote >> Grp 3 (Plus not_quote)
           >> Cls is_quote)
   >> Eos)%re.

(** The pattern of the length pass of [validate]: the signal pattern up to
    and including group 2, with no description and no end anchor. *)
Definition signalPrefixRe : re :=
  (Grp 1 (Cls is_name_start >> Star is_word) >> Star is_space
   >> Cls (is_chr ":") >> Star is_space >> Grp 2 (Plus is_state))%re.

(** [/^[01XZ]+$/] *)
Definition statesRe : re := (Plus is_state >> Eos)%re.

(** [re.test(s)] *)
Definition regex_test (r : re) (s : jsstring) : bool :=
  match regex_match 0 r s with Some _ => true | None => false end.

Definition quoted (s : jsstring) : jsstring := QUOTE :: s ++ [QUOTE].

(* ================================================================== *)
(** * Domain types (domain/types.ts) *)

(** A run's value is whatever [stateString[i]] gave: a one-character string,
    or [undefined] ([None]) when the index is out of range. *)
Record SignalState := {
  value : option char;
  duration : nat
}.

Record SignalStyle := {
  color : option jsstring;
  height : option nat;
  showTransitions : option bool;
  lineWidth : option nat
}.

(** An id is the string [`${Date.now()}-${++counter}`], kept as its two
    numbers. *)
Record Id := { stamp : N; serial : N }.

Record Signal := {
  sig_id : Id;
  name : jsstring;
  states : list SignalState;
  style : option SignalStyle;
  sig_description : option jsstring
}.

Record TimeMarker := {
  position : N;
  label : jsstring;
  marker_color : option jsstring
}.

Record TimeConfiguration := {
  totalSteps : nat;
  stepWidth : nat;
  unit : option jsstring;
  markers : option (list TimeMarker);
  showGrid : option bool
}.

Definition Date := N.

Record DocumentMetadata := {
  title : jsstring;
  description : option jsstring;
  author : option jsstring;
  created : Date;
  modified : Date;
  tags : option (list jsstring)
}.

Record WaveformDocument := {
  doc_id : Id;
  metadata : DocumentMetadata;
  signals : list Signal;
  timeConfig : TimeConfiguration;
  version : jsstring
}.

Record ValidationError := {
  line : nat;
  message : string;
  code : string
}.

Definition ValidationWarning := ValidationError.

Record ValidationResult := {
  valid : bool;
  errors : list ValidationError;
  warnings : list ValidationWarning
}.

(** [Partial<T>]: every field may be absent ([None]).  A field that is
    optional in [T] may also be present and undefined ([Some None]). *)
Record PartialSignal := {
  p_id : option Id;
  p_name : option jsstring;
  p_states : option (list SignalState);
  p_style : option (option SignalStyle);
  p_description : option (option jsstring)
}.

Record PartialMetadata := {
  p_title : option jsstring;
  p_meta_description : option (option jsstring);
  p_author : option (option jsstring);
  p_created : option Date;
  p_modified : option Date;
  p_tags : option (option (list jsstring))
}.

Record PartialTimeConfiguration := {
  p_totalSteps : option nat;
  p_stepWidth : option nat;
  p_unit : option (option jsstring);
  p_markers : option (option (list TimeMarker));
  p_showGrid : option (option bool)
}.

(** One field of an object spread [{...old, ...updates}]. *)
Definition spread {A} (old : A) (upd : option A) : A :=
  match upd with Some v => v | None => old end.

(* ================================================================== *)
(** * The clock and the id counter (utils/id.ts) *)

(** [clock k] is what the [k]-th reading of the wall clock returns; [reads]
    counts the readings made so far; [counter] is the module variable of
    id.ts. *)
Record World := {
  clock : nat -> N;
  reads : nat;
  counter : N
}.

Definition M (A : Type) : Type := World -> A * World.

Definition ret {A} (a : A) : M A := fun w => (a, w).

Definition bind {A B} (m : M A) (f : A -> M B) : M B :=
  fun w => let (a, w') := m w in f a w'.

Notation "x <- m ;; k" := (bind m (fun x => k))
  (at level 61, m at next level, right associativity).

(** [Date.now()], and [new Date()] up to the wrapper object. *)
Definition Date_now : M N :=
  fun w => (clock w (reads w),
            {| clock := clock w; reads := S (reads w); counter := counter w |}).

Definition next_counter : M N :=
  fun w => let c := (counter w + 1)%N in
           (c, {| clock := clock w; reads := reads w; counter := c |}).

Definition generateId : M Id :=
  t <- Date_now ;;
  c <- next_counter ;;
  ret {| stamp := t; serial := c |}.

(* ================================================================== *)
(** * Document factory, codec and helpers (domain/WaveformDocument.ts) *)

Definition default_title : jsstring := str "Untitled Waveform".

Definition createDocument (title : jsstring) : M WaveformDocument :=
  now <- Date_now ;;
  i <- generateId ;;
  ret {| doc_id := i;
         version := str "1.0.0";
         metadata := {| title := title; description := None; author := None;
                        created := now; modified := now; tags := None |};
         signals := [];
         timeConfig := {| totalSteps := 8; stepWidth := 40; unit := None;
                          markers := None; showGrid := Some true |} |}.

Definition value_eqb (a b : option char) : bool :=
  match a, b with
  | Some x, Some y => (x =? y)%N
  | None, None => true
  | _, _ => false
  end.

(** The loop of [parseSignalStates] from index 1 on: [rest] is what is left
    of the string, [acc] the runs pushed so far. *)
Fixpoint parseSignalStates_loop (rest : jsstring) (acc : list SignalState)
         (currentValue : option char) (dur : nat) : list SignalState :=
  match rest with
  | [] => acc ++ [{| value := currentValue; duration := dur |}]
  | v :: rest' =>
      if value_eqb (Some v) currentValue
      then parseSignalStates_loop rest' acc currentValue (S dur)
      else parseSignalStates_loop rest'
             (acc ++ [{| value := currentValue; duration := dur |}])
             (Some v) 1
  end.

(** [stateString[0]] is undefined on the empty string. *)
Definition parseSignalStates (stateString : jsstring) : list SignalState :=
  parseSignalStates_loop (tl stateString) [] (hd_error stateString) 1.

(** [states.map(state => state.value.repeat(state.duration)).join('')];
    [undefined.repeat] throws a TypeError. *)
Fixpoint serializeSignalStates (sts : list SignalState) : option jsstring :=
  match sts with
  | [] => Some []
  | st :: rest =>
      match value st, serializeSignalStates rest with
      | Some c, Some tail => Some (repeat c (duration st) ++ tail)
      | _, _ => None
      end
  end.

Definition createSignal (nm : jsstring) (sts : option jsstring) : M Signal :=
  i <- generateId ;;
  ret {| sig_id := i;
         name := nm;
         states := match sts with
                   | Some s => if nonempty s then parseSignalStates s else []
                   | None => []
                   end;
         style := None;
         sig_description := None |}.

Definition touch (m : DocumentMetadata) (now : Date) : DocumentMetadata :=
  {| title := title m; description := description m; author := author m;
     created := created m; modified := now; tags := tags m |}.

Definition addSignal (doc : WaveformDocument) (signal : Signal)
  : M WaveformDocument :=
  now <- Date_now ;;
  ret {| doc_id := doc_id doc; version := version doc;
         timeConfig := timeConfig doc;
         signals := signals doc ++ [signal];
         metadata := touch (metadata doc) now |}.

Definition Id_eqb (a b : Id) : bool :=
  ((stamp a =? stamp b) && (serial a =? serial b))%N.

Definition merge_signal (s : Signal) (u : PartialSignal) : Signal :=
  {| sig_id := spread (sig_id s) (p_id u);
     name := spread (name s) (p_name u);
     states := spread (states s) (p_states u);
     style := spread (style s) (p_style u);
     sig_description := spread (sig_description s) (p_description u) |}.

Definition updateSignal (doc : WaveformDocument) (signalId : Id)
           (updates : PartialSignal) : M WaveformDocument :=
  now <- Date_now ;;
  ret {| doc_id := doc_id doc; version := version doc;
         timeConfig := timeConfig doc;
         signals := map (fun s => if Id_eqb (sig_id s) signalId
                                  then merge_signal s updates else s)
                        (signals doc);
         metadata := touch (metadata doc) now |}.

Definition removeSignal (doc : WaveformDocument) (signalId : Id)
  : M WaveformDocument :=
  now <- Date_now ;;
  ret {| doc_id := doc_id doc; version := version doc;
         timeConfig := timeConfig doc;
         signals := filter (fun s => negb (Id_eqb (sig_id s) signalId))
                           (signals doc);
         metadata := touch (metadata doc) now |}.

(** [{...doc.metadata, ...updates, modified: new Date()}] *)
Definition updateMetadata (doc : WaveformDocument) (updates : PartialMetadata)
  : M WaveformDocument :=
  now <- Date_now ;;
  let m := metadata doc in
  ret {| doc_id := doc_id doc; version := version doc;
         timeConfig := timeConfig doc;
         signals := signals doc;
         metadata :=
           {| title := spread (title m) (p_title updates);
              description := spread (description m) (p_meta_description updates);
              author := spread (author m) (p_author updates);
              created := spread (created m) (p_created updates);
              modified := now;
              tags := spread (tags m) (p_tags updates) |} |}.

Definition updateTimeConfig (doc : WaveformDocument)
           (updates : PartialTimeConfiguration) : M WaveformDocument :=
  let t := timeConfig doc in
  now <- Date_now ;;
  ret {| doc_id := doc_id doc; version := version doc;
         signals := signals doc;
         timeConfig :=
           {| totalSteps := spread (totalSteps t) (p_totalSteps updates);
              stepWidth := spread (stepWidth t) (p_stepWidth updates);
              unit := spread (unit t) (p_unit updates);
              markers := spread (markers t) (p_markers updates);
              showGrid := spread (showGrid t) (p_showGrid updates) |};
         metadata := touch (metadata doc) now |}.

(** [states.reduce((sum, state) => sum + state.duration, 0)] *)
Definition signal_length (s : Signal) : nat :=
  fold_left (fun sum st => sum + duration st) (states s) 0.

(** [Math.max(x, ...xs)] and [Math.min(x, ...xs)] with at least one
    argument; the callers guard the empty case. *)
Definition Math_max (x : nat) (xs : list nat) : nat := fold_left Nat.max xs x.
Definition Math_min (x : nat) (xs : list nat) : nat := fold_left Nat.min xs x.

Definition calculateTotalSteps (doc : WaveformDocument) : nat :=
  match map signal_length (signals doc) with
  | [] => 0
  | x :: xs => Math_max x xs
  end.

(* ================================================================== *)
(** * Parser (services/Parser.ts) *)

(** The accumulators of [parse]: [currentTitle], [currentUnit], [markers]
    and [doc.signals]. *)
Record ParseState := {
  currentTitle : jsstring;
  currentUnit : option jsstring;
  markers_acc : list TimeMarker;
  signals_acc : list Signal
}.

(** A line that starts with [@]. *)
Definition parse_directive (ln : jsstring) (a : ParseState) : ParseState :=
  match regex_match 2 directiveRe ln with
  | Some m =>
      match group 1 m, group 2 m with
      | Some directive, Some v =>
          if jsstring_eqb directive (str "title") then
            {| currentTitle := v; currentUnit := currentUnit a;
               markers_acc := markers_acc a; signals_acc := signals_acc a |}
          else if jsstring_eqb directive (str "unit") then
            {| currentTitle := currentTitle a; currentUnit := Some v;
               markers_acc := markers_acc a; signals_acc := signals_acc a |}
          else if jsstring_eqb directive (str "marker") then
            match regex_match 2 markerRe v with
            | Some mm =>
                match group 1 mm, group 2 mm with
                | Some pos, Some lbl =>
                    {| currentTitle := currentTitle a;
                       currentUnit := currentUnit a;
                       markers_acc :=
                         markers_acc a
                         ++ [{| position := parseInt10 pos; label := lbl;
                                marker_color := None |}];
                       signals_acc := signals_acc a |}
                | _, _ => a
                end
            | None => a
            end
          else a
      | _, _ => a
      end
  | None => a
  end.

Definition with_description (s : Signal) (d : option jsstring) : Signal :=
  {| sig_id := sig_id s; name := name s; states := states s;
     style := style s; sig_description := d |}.

(** Any other line that is not blank and not a comment. *)
Definition parse_signal_line (ln : jsstring) (a : ParseState) : M ParseState :=
  match regex_match 3 signalRe ln with
  | Some m =>
      match group 1 m, group 2 m with
      | Some nm, Some sts =>
          signal <- createSignal nm (Some sts) ;;
          let signal := if truthy (group 3 m)
                        then with_description signal (group 3 m)
                        else signal in
          ret {| currentTitle := currentTitle a; currentUnit := currentUnit a;
                 markers_acc := markers_acc a;
                 signals_acc := signals_acc a ++ [signal] |}
      | _, _ => ret a
      end
  | None => ret a
  end.

(** The body of the loop over the lines. *)
Definition parse_line (raw : jsstring) (a : ParseState) : M ParseState :=
  let ln := trim raw in
  if negb (nonempty ln) || startsWith (chr "#") ln then ret a
  else if startsWith (chr "@") ln then ret (parse_directive ln a)
  else parse_signal_line ln a.

Fixpoint parse_lines (lines : list jsstring) (a : ParseState) : M ParseState :=
  match lines with
  | [] => ret a
  | raw :: rest => a' <- parse_line raw a ;; parse_lines rest a'
  end.

(** What [parse] does after the loop. *)
Definition finish (doc : WaveformDocument) (a : ParseState) : WaveformDocument :=
  let m := metadata doc in
  let t := timeConfig doc in
  {| doc_id := doc_id doc;
     version := version doc;
     metadata := {| title := currentTitle a; description := description m;
                    author := author m; created := created m;
                    modified := modified m; tags := tags m |};
     signals := signals_acc a;
     timeConfig :=
       {| totalSteps := match map signal_length (signals_acc a) with
                        | [] => totalSteps t
                        | x :: xs => Math_max x xs
                        end;
          stepWidth := stepWidth t;
          unit := if truthy (currentUnit a) then currentUnit a else unit t;
          markers := match markers_acc a with
                     | [] => markers t
                     | _ :: _ => Some (markers_acc a)
                     end;
          showGrid := showGrid t |} |}.

Definition parse (text : jsstring) : M WaveformDocument :=
  doc <- createDocument default_title ;;
  a <- parse_lines (split_nl text)
         {| currentTitle := default_title; currentUnit := None;
            markers_acc := []; signals_acc := signals doc |} ;;
  ret (finish doc a).

(** The accumulators before the first line, given that a fresh document
    has no signals. *)
Definition init_state : ParseState :=
  {| currentTitle := default_title; currentUnit := None;
     markers_acc := []; signals_acc := [] |}.

Definition parseSignal (ln : jsstring) : M (option Signal) :=
  match regex_match 3 signalRe ln with
  | Some m =>
      match group 1 m, group 2 m with
      | Some nm, Some sts =>
          signal <- createSignal nm (Some sts) ;;
          ret (Some (if truthy (group 3 m)
                     then with_description signal (group 3 m)
                     else signal))
      | _, _ => ret None
      end
  | None => ret None
  end.

(* ------------------------------------------------------------------ *)
(** ** Validator *)

Definition mk_error (n : nat) (msg c : string) : ValidationError :=
  {| line := n; message := msg; code := c |}.

(** The body of the first loop of [validate] on the line numbered
    [lineNumber], pushing onto [errors] and [warnings]. *)
Definition validate_line (raw : jsstring) (lineNumber : nat)
           (ew : list ValidationError * list ValidationWarning)
  : list ValidationError * list ValidationWarning :=
  let (errs, warns) := ew in
  let ln := trim raw in
  if negb (nonempty ln) || startsWith (chr "#") ln then (errs, warns)
  else if startsWith (chr "@") ln then
    match regex_match 2 directiveRe ln with
    | None =>
        (errs ++ [mk_error lineNumber "Invalid directive syntax"
                           "INVALID_DIRECTIVE"], warns)
    | Some _ => (errs, warns)
    end
  else
    match regex_match 3 signalRe ln with
    | None =>
        (errs ++ [mk_error lineNumber
                    "Invalid signal syntax. Expected format: NAME: 01010101"
                    "INVALID_SIGNAL"], warns)
    | Some m =>
        match group 1 m, group 2 m with
        | Some nm, Some sts =>
            let errs' :=
              if negb (regex_test statesRe sts)
              then errs ++ [mk_error lineNumber
                              "Signal states must only contain 0, 1, X, or Z"
                              "INVALID_STATE"]
              else errs in
            let warns' :=
              if 32 <? length nm
              then warns ++ [mk_error lineNumber
                               "Signal name is very long (>32 characters)"
                               "LONG_NAME"]
              else warns in
            (errs', warns')
        | _, _ => (errs, warns)
        end
    end.

Fixpoint validate_lines (lines : list jsstring) (i : nat)
         (ew : list ValidationError * list ValidationWarning)
  : list ValidationError * list ValidationWarning :=
  match lines with
  | [] => ew
  | raw :: rest => validate_lines rest (S i) (validate_line raw (i + 1) ew)
  end.

(** [Map.prototype.set] on a map kept in insertion order. *)
Fixpoint map_set (k : jsstring) (v : nat) (m : list (jsstring * nat))
  : list (jsstring * nat) :=
  match m with
  | [] => [(k, v)]
  | (k', v') :: m' =>
      if jsstring_eqb k' k then (k', v) :: m' else (k', v') :: map_set k v m'
  end.

(** The body of the second loop of [validate]. *)
Definition length_line (raw : jsstring) (m : list (jsstring * nat))
  : list (jsstring * nat) :=
  let ln := trim raw in
  if negb (nonempty ln) || startsWith (chr "#") ln || startsWith (chr "@") ln
  then m
  else match regex_match 2 signalPrefixRe ln with
       | Some caps =>
           match group 1 caps, group 2 caps with
           | Some nm, Some sts => map_set nm (length sts) m
           | _, _ => m
           end
       | None => m
       end.

Definition signalLengths (lines : list jsstring) : list (jsstring * nat) :=
  fold_left (fun m raw => length_line raw m) lines [].

Definition length_warning (lengths : list nat) : list ValidationWarning :=
  match lengths with
  | [] => []
  | x :: xs =>
      let minLength := Math_min x xs in
      let maxLength := Math_max x xs in
      if minLength =? maxLength then []
      else [mk_error 0
              ("Signal lengths are inconsistent (" ++ show_nat minLength
               ++ " to " ++ show_nat maxLength ++ " steps)")%string
              "INCONSISTENT_LENGTHS"]
  end.

Definition validate (text : jsstring) : ValidationResult :=
  let lines := split_nl text in
  let (errs, warns) := validate_lines lines 0 ([], []) in
  let warns' := warns ++ length_warning (map snd (signalLengths lines)) in
  {| valid := match errs with [] => true | _ :: _ => false end;
     errors := errs;
     warnings := warns' |}.

(* ================================================================== *)
(** * Serializer (services/Serializer.ts) *)

(** [None] when [serializeSignalStates] throws. *)
Definition serializeSignal (s : Signal) : option jsstring :=
  match serializeSignalStates (states s) with
  | Some sts =>
      let ln := name s ++ str ": " ++ sts in
      Some (match sig_description s with
            | Some (c :: d) => ln ++ str " " ++ quoted (c :: d)
            | _ => ln
            end)
  | None => None
  end.

Fixpoint serializeSignals (l : list Signal) : option (list jsstring) :=
  match l with
  | [] => Some []
  | s :: rest =>
      match serializeSignal s, serializeSignals rest with
      | Some ln, Some lns => Some (ln :: lns)
      | _, _ => None
      end
  end.

Definition marker_line (mk : TimeMarker) : jsstring :=
  str "@marker: " ++ show_N (position mk) ++ str " " ++ quoted (label mk).

(** The lines pushed before the signals. *)
Definition header_lines (doc : WaveformDocument) : list jsstring :=
  let m := metadata doc in
  let t := timeConfig doc in
  let l1 := if nonempty (title m) && negb (jsstring_eqb (title m) default_title)
            then [str "@title: " ++ title m] else [] in
  let l2 := match description m with
            | Some (c :: d) => [str "@description: " ++ c :: d]
            | _ => []
            end in
  let l3 := match unit t with
            | Some (c :: u) => [str "@unit: " ++ c :: u]
            | _ => []
            end in
  let l4 := match markers t with
            | Some (mk :: ms) => map marker_line (mk :: ms)
            | _ => []
            end in
  let ls := l1 ++ l2 ++ l3 ++ l4 in
  match ls with
  | [] => []
  | _ :: _ => ls ++ [[]]
  end.

Definition serialize (doc : WaveformDocument) : option jsstring :=
  match serializeSignals (signals doc) with
  | Some lns => Some (join_nl (header_lines doc ++ lns))
  | None => None
  end.

(* ================================================================== *)
(** * The four signal values *)

Inductive SignalValue := Low | High | Unknown | HighImpedance.

Definition char_of (v : SignalValue) : char :=
  match v with
  | Low => chr "0"
  | High => chr "1"
  | Unknown => chr "X"
  | HighImpedance => chr "Z"
  end.

Definition encode (s : list SignalValue) : list SignalState :=
  parseSignalStates (map char_of s).

Definition decode (runs : list SignalState) : option jsstring :=
  serializeSignalStates runs.

(** A world to evaluate examples in: the clock starts at 1000 and advances
    by one at every reading; the id counter starts at 0. *)
Definition w0 : World :=
  {| clock := fun k => N.of_nat (1000 + k); reads := 0; counter := 0 |}.

(** Maximal run-length compression: no two adjacent runs share a value, and
    no run is empty. *)
Fixpoint no_adjacent_equal (l : list SignalState) : Prop :=
  match l with
  | a :: (b :: _) as t => value a <> value b /\ no_adjacent_equal t
  | _ => True
  end.

Definition compressed (l : list SignalState) : Prop :=
  no_adjacent_equal l /\ Forall (fun st => 1 <= duration st) l.

(** The length of a signal in the words of the specification: the sum of
    its run durations. *)
Definition sum_of_durations (s : Signal) : nat :=
  list_sum (map duration (states s)).

Definition nl_free (s : jsstring) : Prop := Forall (fun c => c <> NL) s.

(** ** What a pattern matches

    [matches r x rest caps caps'] : the pattern [r] can consume [x] in front
    of [rest], turning the captures [caps] into [caps'].  [greedy] is the
    same with the conditions under which the backtracking matcher has no
    other choice: a quantifier stops where the class stops, and an optional
    group is skipped only where it cannot match. *)
Inductive matches : re -> jsstring -> jsstring -> captures -> captures -> Prop :=
| m_cls p c rest caps :
    p c = true -> matches (Cls p) [c] rest caps caps
| m_star p a rest caps :
    forallb p a = true -> matches (Star p) a rest caps caps
| m_plus p c a rest caps :
    p c = true -> forallb p a = true -> matches (Plus p) (c :: a) rest caps caps
| m_cat a b x y rest caps caps1 caps2 :
    matches a x (y ++ rest) caps caps1 -> matches b y rest caps1 caps2 ->
    matches (Cat a b) (x ++ y) rest caps caps2
| m_grp i a x rest caps caps' :
    matches a x rest caps caps' ->
    matches (Grp i a) x rest caps (set_nth i (Some x) caps')
| m_opt_some a x rest caps caps' :
    matches a x rest caps caps' -> matches (Opt a) x rest caps caps'
| m_opt_none a rest caps :
    matches (Opt a) [] rest caps caps
| m_eos caps :
    matches Eos [] [] caps caps.

(** The next character, if any, is outside the class. *)
Definition stops (p : char -> bool) (rest : jsstring) : bool :=
  match rest with [] => true | c :: _ => negb (p c) end.

Inductive greedy : re -> jsstring -> jsstring -> captures -> captures -> Prop :=
| g_cls p c rest caps :
    p c = true -> greedy (Cls p) [c] rest caps caps
| g_star p a rest caps :
    forallb p a = true -> stops p rest = true ->
    greedy (Star p) a rest caps caps
| g_plus p c a rest caps :
    p c = true -> forallb p a = true -> stops p rest = true ->
    greedy (Plus p) (c :: a) rest caps caps
| g_cat a b x y rest caps caps1 caps2 :
    greedy a x (y ++ rest) caps caps1 -> greedy b y rest caps1 caps2 ->
    greedy (Cat a b) (x ++ y) rest caps caps2
| g_grp i a x rest caps caps' :
    greedy a x rest caps caps' ->
    greedy (Grp i a) x rest caps (set_nth i (Some x) caps')
| g_opt_some a x rest caps caps' :
    greedy a x rest caps caps' -> greedy (Opt a) x rest caps caps'
| g_opt_none a rest caps :
    (forall R (k : jsstring -> captures -> option R),
        run a rest caps k = None) ->
    greedy (Opt a) [] rest caps caps
| g_eos caps :
    greedy Eos [] [] caps caps.

(** The line [serializeSignal] writes for a name, a state string and a
    description. *)
Definition signal_text (nm sts : jsstring) (dsc : option jsstring) : jsstring :=
  nm ++ str ": " ++ sts
  ++ match dsc with
     | Some (c :: d) => str " " ++ quoted (c :: d)
     | _ => []
     end.

(** A description as the signal pattern captures it: absent, or non-empty
    and free of double quotes. *)
Definition desc_ok (dsc : option jsstring) : Prop :=
  match dsc with
  | None => True
  | Some d => d <> [] /\ forallb not_quote d = true
  end.

(** A signal as [parse] builds it from a matched line: a name of the
    grammar, the encoding of a non-empty state string, and a description
    that fits between two quotes on one line. *)
Definition wf_signal (s : Signal) : Prop :=
  exists c nm s0 sts,
    name s = c :: nm /\ is_name_start c = true /\ forallb is_word nm = true /\
    is_state s0 = true /\ forallb is_state sts = true /\
    states s = parseSignalStates (s0 :: sts) /\
    desc_ok (sig_description s) /\
    (forall d, sig_description s = Some d -> nl_free d).

(** The title, the unit and the marker labels hold no line break. *)
Definition wf_meta (a : ParseState) : Prop :=
  nl_free (currentTitle a)
  /\ (forall u, currentUnit a = Some u -> nl_free u)
  /\ Forall (fun mk => nl_free (label mk)) (markers_acc a).

(** What the text round trip compares of a signal: its name, its decoded
    state string and its description. *)
Definition signal_view (s : Signal)
  : jsstring * option jsstring * option jsstring :=
  (name s, serializeSignalStates (states s), sig_description s).

(** The same with the run list itself. *)
Definition signal_core (s : Signal)
  : jsstring * list SignalState * option jsstring :=
  (name s, states s, sig_description s).

(** A header line of the serializer: empty, or a directive. *)
Definition header_like (l : jsstring) : Prop :=
  l = [] \/ exists s, l = chr "@" :: s.

(** Every captured string is made of characters that satisfy [P]. *)
Definition caps_all (P : char -> Prop) (caps : captures) : Prop :=
  Forall (fun o => match o with Some s => Forall P s | None => True end) caps.

(* ------------------------------------------------------------------ *)
(** ** More of domain/WaveformDocument.ts and utils/id.ts *)

(** [validateSignalLengths]: no signals, or every length equals the first. *)
Definition validateSignalLengths (doc : WaveformDocument) : bool :=
  match map signal_length (signals doc) with
  | [] => true
  | l0 :: ls => forallb (fun len => len =? l0) (l0 :: ls)
  end.

(** One call of a mutation helper. *)
Inductive Mutation :=
| AddSignal (signal : Signal)
| UpdateSignal (signalId : Id) (updates : PartialSignal)
| RemoveSignal (signalId : Id)
| UpdateMetadata (updates : PartialMetadata)
| UpdateTimeConfig (updates : PartialTimeConfiguration).

Definition mutate (mu : Mutation) (doc : WaveformDocument) : M WaveformDocument :=
  match mu with
  | AddSignal signal => addSignal doc signal
  | UpdateSignal signalId updates => updateSignal doc signalId updates
  | RemoveSignal signalId => removeSignal doc signalId
  | UpdateMetadata updates => updateMetadata doc updates
  | UpdateTimeConfig updates => updateTimeConfig doc updates
  end.

(** A sequence of helper calls, each on the document the previous one
    returned. *)
Fixpoint mutate_all (mus : list Mutation) (doc : WaveformDocument)
  : M WaveformDocument :=
  match mus with
  | [] => ret doc
  | mu :: rest => doc' <- mutate mu doc ;; mutate_all rest doc'
  end.

(** The clock never runs backwards. *)
Definition monotone_clock (w : World) : Prop :=
  forall i j, i <= j -> (clock w i <= clock w j)%N.

(** Updates that carry no field. *)
Definition no_updates : PartialSignal :=
  {| p_id := None; p_name := None; p_states := None; p_style := None;
     p_description := None |}.

(** Some run of the signal has an undefined value. *)
Definition has_undefined_run (s : Signal) : Prop :=
  Exists (fun st => value st = None) (states s).

(** The codes of the errors that report one line's syntax. *)
Definition syntax_code (e : ValidationError) : Prop :=
  code e = "INVALID_DIRECTIVE"%string \/ code e = "INVALID_SIGNAL"%string.

(** A run. *)
Definition mk_run (v : option char) (d : nat) : SignalState :=
  {| value := v; duration := d |}.

(** ** Proof tools *)

(** Takes a derivation of [matches] for a concrete pattern apart. *)
Ltac invert_matches :=
  repeat match goal with
         | H : matches (Cat _ _) _ _ _ _ |- _ => inversion H; subst; clear H
         | H : matches (Grp _ _) _ _ _ _ |- _ => inversion H; subst; clear H
         | H : matches (Cls _) _ _ _ _ |- _ => inversion H; subst; clear H
         | H : matches (Star _) _ _ _ _ |- _ => inversion H; subst; clear H
         | H : matches (Plus _) _ _ _ _ |- _ => inversion H; subst; clear H
         | H : matches (Opt _) _ _ _ _ |- _ => inversion H; subst; clear H
         | H : matches Eos _ _ _ _ |- _ => inversion H; subst; clear H
         end.

(** Case analysis on the character classes. *)
Ltac char_cases H :=
  unfold is_word, is_name_start, is_state, is_digit, between, is_chr, chr in H;
  simpl in H;
  repeat (apply orb_true_iff in H as [H|H]);
  repeat (apply andb_true_iff in H as [? H]);
  repeat match goal with
         | E : (_ =? _)%N = true |- _ => apply N.eqb_eq in E
         | E : (_ <=? _)%N = true |- _ => apply N.leb_le in E
         end.

Ltac char_false :=
  unfold is_space, is_quote, is_word, is_state, is_digit, between, is_chr,
    chr, QUOTE, NL; simpl;
  repeat match goal with
         | |- context [(?a =? ?b)%N] =>
             destruct (N.eqb_spec a b); [lia|]
         | |- context [(?a <=? ?b)%N] =>
             destruct (N.leb_spec a b); try lia
         end;
  simpl; try reflexivity; try lia.

(* ------------------------------------------------------------------ *)
(** ** Lines, one at a time *)

(** The name, runs and description of the signal a line gives, if it gives
    one. *)
Definition line_core (raw : jsstring)
  : list (jsstring * list SignalState * option jsstring) :=
  let ln := trim raw in
  if negb (nonempty ln) || startsWith (chr "#") ln || startsWith (chr "@") ln
  then []
  else match regex_match 3 signalRe ln with
       | Some m =>
           match group 1 m, group 2 m with
           | Some nm, Some sts =>
               [(nm,
                 if nonempty sts then parseSignalStates sts else [],
                 if truthy (group 3 m) then group 3 m else None)]
           | _, _ => []
           end
       | None => []
       end.

(** A line that is not blank, not a comment and not a directive. *)
Definition signal_candidate (raw : jsstring) : bool :=
  let ln := trim raw in
  nonempty ln && negb (startsWith (chr "#") ln)
  && negb (startsWith (chr "@") ln).

(** The message and the code of the error of a line whose shape is wrong:
    a directive that fails the directive pattern, or a candidate signal
    line that fails the signal pattern. *)
Definition line_error (raw : jsstring) : option (string * string) :=
  let ln := trim raw in
  if negb (nonempty ln) || startsWith (chr "#") ln then None
  else if startsWith (chr "@") ln then
    match regex_match 2 directiveRe ln with
    | None => Some ("Invalid directive syntax", "INVALID_DIRECTIVE")%string
    | Some _ => None
    end
  else
    match regex_match 3 signalRe ln with
    | None => Some ("Invalid signal syntax. Expected format: NAME: 01010101",
                    "INVALID_SIGNAL")%string
    | Some _ => None
    end.

Definition numbered_errors (i : nat) (lines : list jsstring)
  : list ValidationError :=
  flat_map (fun p : nat * jsstring =>
              match line_error (snd p) with
              | Some (msg, c) => [mk_error (fst p) msg c]
              | None => []
              end)
           (combine (seq i (length lines)) lines).

(* ------------------------------------------------------------------ *)
(** ** Directive lines *)

(** The line the serializer writes for a directive. *)
Definition directive_text (nm v : jsstring) : jsstring :=
  chr "@" :: nm ++ str ": " ++ v.

(** A directive value as the directive pattern captures it from a trimmed
    line: non-empty, without line terminators, and with no white space at
    either end. *)
Definition value_ok (v : jsstring) : Prop :=
  exists c v',
    v = c :: v' /\ is_space c = false /\ forallb is_dot v = true
    /\ is_space (last v c) = false.

(** The title, the unit and the marker labels as [parse] collects them. *)
Definition meta_ok (a : ParseState) : Prop :=
  value_ok (currentTitle a)
  /\ (forall u, currentUnit a = Some u -> value_ok u)
  /\ Forall (fun mk => forallb is_dot (label mk) = true) (markers_acc a).

(** Case analysis on the next comparison of two strings. *)
Ltac destruct_eqb :=
  match goal with
  | |- context [if jsstring_eqb ?x ?y then _ else _] =>
      destruct (jsstring_eqb x y) eqn:?
  end.

(** A line the serializer writes before the signals: blank, or a directive
    with a name of word characters and a trimmed one-line value. *)
Definition serialized_header (l : jsstring) : Prop :=
  l = [] \/
  exists n0 d v,
    l = directive_text (n0 :: d) v
    /\ forallb is_word (n0 :: d) = true /\ value_ok v.

(** A line the serializer writes for a signal of a parsed document. *)
Definition serialized_signal (l : jsstring) : Prop :=
  exists c nm s0 sts dsc,
    l = signal_text (c :: nm) (s0 :: sts) dsc
    /\ is_name_start c = true /\ forallb is_word nm = true
    /\ is_state s0 = true /\ forallb is_state sts = true /\ desc_ok dsc.

(** A line that leaves the accumulated title and unit alone. *)
Definition keeps_title_unit (l : jsstring) : Prop :=
  forall a w,
    currentTitle (fst (parse_line l a w)) = currentTitle a
    /\ currentUnit (fst (parse_line l a w)) = currentUnit a.

(* ------------------------------------------------------------------ *)
(** ** Ids and error codes *)

(** The serial numbers of the signals collected so far are distinct, above
    [c0] and not above the counter. *)
Definition serials_ok (c0 : N) (a : ParseState) (w : World) : Prop :=
  (c0 <= counter w)%N
  /\ Forall (fun s => (c0 < serial (sig_id s) <= counter w)%N) (signals_acc a)
  /\ NoDup (map (fun s => serial (sig_id s)) (signals_acc a)).

Definition is_invalid_signal (e : ValidationError) : bool :=
  String.eqb (code e) "INVALID_SIGNAL".

(* ================================================================== *)
(** * The single-page editor (app.js): text to model and back *)

Module App.

(** The four state names of the editor's model. *)
Inductive AppState := low | high | unknown | highz.

Record AppSignal := {
  app_name : jsstring;
  app_description : jsstring;
  app_states : list AppState
}.

(** [[01XZxz]] *)
Definition is_state_ci (c : char) : bool :=
  is_state c || is_chr "x" c || is_chr "z" c.

(** The editor's signal pattern: [^], then group 1 = [[A-Za-z0-9_]+], then
    [\s*:\s*], then group 2 = [[01XZxz]+], then an optional group 3 =
    [\s+\x22 group4 \x22] with group 4 = [[^\x22]+]; there is no end
    anchor. *)
Definition appRe : re :=
  (Grp 1 (Plus is_word) >> Star is_space >> Cls (is_chr ":")
   >> Star is_space >> Grp 2 (Plus is_state_ci)
   >> Opt (Grp 3 (Plus is_space >> Cls is_quote >> Grp 4 (Plus not_quote)
                  >> Cls is_quote)))%re.

(** [toUpperCase] on one character of a state string; the pattern admits
    only [01XZxz] there, and on ASCII letters upper case is 32 below. *)
Definition toUpperCase (c : char) : char :=
  if between "a" "z" c then (c - 32)%N else c.

(** The [switch] of [parseText]. *)
Definition state_of_char (c : char) : AppState :=
  if is_chr "0" c then low
  else if is_chr "1" c then high
  else if is_chr "X" c then unknown
  else if is_chr "Z" c then highz
  else low.

(** The [switch] of [serializeSignals]. *)
Definition char_of_state (st : AppState) : char :=
  match st with
  | low => chr "0"
  | high => chr "1"
  | unknown => chr "X"
  | highz => chr "Z"
  end.

(** The body of the loop of [parseText]. *)
Definition parseText_line (ln : jsstring) (sigs : list AppSignal)
  : list AppSignal :=
  let trimmed := trim ln in
  if negb (nonempty trimmed) || startsWith (chr "#") trimmed
     || startsWith (chr "@") trimmed
  then sigs
  else match regex_match 4 appRe trimmed with
       | Some m =>
           match group 1 m, group 2 m with
           | Some nm, Some statesStr =>
               sigs ++ [{| app_name := nm;
                           app_description :=
                             match group 4 m with
                             | Some d => d
                             | None => []
                             end;
                           app_states :=
                             map state_of_char (map toUpperCase statesStr) |}]
           | _, _ => sigs
           end
       | None => sigs
       end.

Definition parseText (text : jsstring) : list AppSignal :=
  fold_left (fun sigs ln => parseText_line ln sigs) (split_nl text) [].

(** One line of [serializeSignals]. *)
Definition app_line (s : AppSignal) : jsstring :=
  let statesStr := map char_of_state (app_states s) in
  if nonempty (app_description s)
  then app_name s ++ str ": " ++ statesStr ++ str " "
       ++ quoted (app_description s)
  else app_name s ++ str ": " ++ statesStr.

Definition serializeSignals (sigs : list AppSignal) : jsstring :=
  join_nl (map app_line sigs).

(** The state a click moves a step to. *)
Definition toggleState (st : AppState) : AppState :=
  match st with
  | low => high
  | high => unknown
  | unknown => highz
  | highz => low
  end.

Fixpoint update_nth {A} (i : nat) (f : A -> A) (l : list A) : list A :=
  match l, i with
  | [], _ => []
  | x :: l', O => f x :: l'
  | x :: l', S i' => x :: update_nth i' f l'
  end.

(** What [onCanvasClick] does to the model for a hit at signal
    [signalIndex] and step [stepIndex].  [hitTest] reports a hit only for
    indexes inside the model; how it gets them from pixel coordinates is
    not modelled, so a hit outside the ranges stands for no hit and leaves
    the model alone. *)
Definition click (signalIndex stepIndex : nat) (sigs : list AppSignal)
  : list AppSignal :=
  match nth_error sigs signalIndex with
  | Some s =>
      if stepIndex <? length (app_states s)
      then update_nth signalIndex
             (fun s => {| app_name := app_name s;
                          app_description := app_description s;
                          app_states :=
                            update_nth stepIndex toggleState (app_states s) |})
             sigs
      else sigs
  | None => sigs
  end.

(** A signal of the editor's model as [parseText] builds it. *)
Definition app_wf (s : AppSignal) : Prop :=
  (exists n0 d, app_name s = n0 :: d /\ forallb is_word (n0 :: d) = true)
  /\ app_states s <> []
  /\ forallb not_quote (app_description s) = true
  /\ nl_free (app_description s).

End App.

(** A click on step [j] as a function of the signal it hits: the step
    moves on when it exists. *)
Definition step_toggle (j : nat) (s : App.AppSignal) : App.AppSignal :=
  if j <? length (App.app_states s)
  then {| App.app_name := App.app_name s;
          App.app_description := App.app_description s;
          App.app_states :=
            App.update_nth j App.toggleState (App.app_states s) |}
  else s.


(* ------------------------------------------------------------------ *)
(** ** The two parsers side by side *)

Definition state_of_value (v : option char) : App.AppState :=
  match v with
  | Some c => App.state_of_char c
  | None => App.low
  end.

(** The steps a run list stands for, in the editor's state names. *)
Definition steps_of_runs (runs : list SignalState) : list App.AppState :=
  flat_map (fun r => repeat (state_of_value (value r)) (duration r)) runs.

(** A signal of the core as the editor's model holds it. *)
Definition app_of_core (c : jsstring * list SignalState * option jsstring)
  : App.AppSignal :=
  let '(nm, runs, dsc) := c in
  {| App.app_name := nm;
     App.app_description := match dsc with Some d => d | None => [] end;
     App.app_states := steps_of_runs runs |}.

Definition app_of_signal (s : Signal) : App.AppSignal :=
  app_of_core (signal_core s).

(** [subseq l1 l2]: [l1] is [l2] with some elements left out. *)
Inductive subseq {A : Type} : list A -> list A -> Prop :=
| sub_nil : subseq [] []
| sub_skip x l1 l2 : subseq l1 l2 -> subseq l1 (x :: l2)
| sub_keep x l1 l2 : subseq l1 l2 -> subseq (x :: l1) (x :: l2).

(* ------------------------------------------------------------------ *)
(** ** Warnings *)

Definition has_warning (c : string) (r : ValidationResult) : bool :=
  existsb (fun w => String.eqb (code w) c) (warnings r).

(** The number of steps of a name, run list and description. *)
Definition core_length (c : jsstring * list SignalState * option jsstring)
  : nat :=
  list_sum (map duration (snd (fst c))).

(** What the length pass of [validate] stores for a signal. *)
Definition set_core (m : list (jsstring * nat))
           (c : jsstring * list SignalState * option jsstring)
  : list (jsstring * nat) :=
  map_set (fst (fst c)) (core_length c) m.

(* ================================================================== *)
(** * Exceptions of the engine

    [Math.max(...a)] passes one argument per element of [a].  An engine
    takes a bounded number of arguments in one call and throws a RangeError
    past the bound.  The bound is the engine's, not the sources': it is the
    parameter [max_arguments] of this section.  [parse] above is
    [Engine.parse] for as long as the bound is not passed. *)

Inductive Exception := RangeError.

Module Engine.
Section Bound.

Variable max_arguments : nat.

(** [Math.max(...[x, ...xs])]: the largest element, or the RangeError of a
    call with too many arguments. *)
Definition Math_max (x : nat) (xs : list nat) : Exception + nat :=
  if length (x :: xs) <=? max_arguments
  then inr (fold_left Nat.max xs x)
  else inl RangeError.

(** What [parse] does after the loop.  The accumulators are written to the
    document first; the spread call is the last thing that runs, and when
    it throws the document is lost. *)
Definition finish (doc : WaveformDocument) (a : ParseState)
  : Exception + WaveformDocument :=
  let m := metadata doc in
  let t := timeConfig doc in
  match match map signal_length (signals_acc a) with
        | [] => inr (totalSteps t)
        | x :: xs => Math_max x xs
        end with
  | inl e => inl e
  | inr maxLength =>
      inr {| doc_id := doc_id doc;
             version := version doc;
             metadata := {| title := currentTitle a;
                            description := description m;
                            author := author m; created := created m;
                            modified := modified m; tags := tags m |};
             signals := signals_acc a;
             timeConfig :=
               {| totalSteps := maxLength;
                  stepWidth := stepWidth t;
                  unit := if truthy (currentUnit a) then currentUnit a
                          else unit t;
                  markers := match markers_acc a with
                             | [] => markers t
                             | _ :: _ => Some (markers_acc a)
                             end;
                  showGrid := showGrid t |} |}
  end.

Definition parse (text : jsstring) : M (Exception + WaveformDocument) :=
  doc <- createDocument default_title ;;
  a <- parse_lines (split_nl text)
         {| currentTitle := default_title; currentUnit := None;
            markers_acc := []; signals_acc := signals doc |} ;;
  ret (finish doc a).

End Bound.
End Engine.

(** A text of [n] lines, each the signal line [A: 0]. *)
Definition signal_lines (n : nat) : jsstring :=
  join_nl (repeat (str "A: 0") n).

(* ================================================================== *)
(** * Strings: split, join, trim *)

Lemma jsstring_eqb_eq (a b : jsstring) : jsstring_eqb a b = true <-> a = b.
Proof.
  unfold jsstring_eqb. destruct (list_eq_dec N.eq_dec a b); split; congruence.
Qed.

Lemma jsstring_eqb_refl (a : jsstring) : jsstring_eqb a a = true.
Proof. now apply jsstring_eqb_eq. Qed.

Lemma split_nl_nonempty (s : jsstring) : split_nl s <> [].
Proof.
  destruct s as [|c s]; simpl; [discriminate|].
  destruct (c =? NL)%N; [discriminate|].
  destruct (split_nl s); discriminate.
Qed.

Lemma split_nl_nl_free (s : jsstring) : Forall nl_free (split_nl s).
Proof.
  induction s as [|c s IH]; simpl.
  - repeat constructor.
  - destruct (N.eqb_spec c NL) as [->|Hc].
    + constructor; [constructor | exact IH].
    + destruct (split_nl s) as [|l ls].
      * repeat constructor; assumption.
      * inversion IH; subst. constructor; [constructor|]; assumption.
Qed.

Lemma split_nl_line (l : jsstring) : nl_free l -> split_nl l = [l].
Proof.
  induction 1 as [|c l Hc _ IH]; simpl; [reflexivity|].
  destruct (N.eqb_spec c NL); [contradiction|]. now rewrite IH.
Qed.

Lemma split_nl_app (l rest : jsstring) :
  nl_free l -> split_nl (l ++ NL :: rest) = l :: split_nl rest.
Proof.
  induction 1 as [|c l Hc _ IH]; simpl; [reflexivity|].
  destruct (N.eqb_spec c NL); [contradiction|]. now rewrite IH.
Qed.

Lemma split_join (ls : list jsstring) :
  ls <> [] -> Forall nl_free ls -> split_nl (join_nl ls) = ls.
Proof.
  induction ls as [|l ls IH]; [congruence|].
  intros _ H. inversion H as [|? ? Hl Hls]; subst.
  destruct ls as [|l' ls'].
  - simpl. now apply split_nl_line.
  - change (join_nl (l :: l' :: ls')) with (l ++ NL :: join_nl (l' :: ls')).
    rewrite split_nl_app by assumption.
    f_equal. apply IH; [discriminate | assumption].
Qed.

Lemma Forall_dropWhile (P : char -> Prop) p s :
  Forall P s -> Forall P (dropWhile p s).
Proof.
  induction 1 as [|c s Hc Hs IH]; simpl; [constructor|].
  destruct (p c); [assumption | now constructor].
Qed.

Lemma Forall_trim (P : char -> Prop) s : Forall P s -> Forall P (trim s).
Proof.
  intros H. unfold trim.
  apply Forall_rev, Forall_dropWhile, Forall_rev, Forall_dropWhile, H.
Qed.

Lemma dropWhile_snoc p s c :
  p c = false -> dropWhile p (s ++ [c]) = dropWhile p s ++ [c].
Proof.
  intros Hc. induction s as [|d s IH]; simpl.
  - now rewrite Hc.
  - destruct (p d); [exact IH | reflexivity].
Qed.

(** Trimming keeps a first character that is not white space. *)
Lemma trim_cons c s :
  is_space c = false ->
  trim (c :: s) = c :: rev (dropWhile is_space (rev s)).
Proof.
  intros Hc. unfold trim. simpl dropWhile at 2. rewrite Hc.
  simpl rev at 2. rewrite dropWhile_snoc by assumption.
  rewrite rev_app_distr. reflexivity.
Qed.

(** A string whose first and last characters are not white space is its own
    trim. *)
Lemma trim_id c s d :
  is_space c = false -> is_space d = false ->
  trim (c :: s ++ [d]) = c :: s ++ [d].
Proof.
  intros Hc Hd. rewrite trim_cons by assumption.
  rewrite rev_app_distr. simpl. rewrite Hd.
  change (d :: rev s) with ([d] ++ rev s).
  rewrite rev_app_distr, rev_involutive. reflexivity.
Qed.

Lemma trim_single c : is_space c = false -> trim [c] = [c].
Proof. intros Hc. now rewrite trim_cons. Qed.

(* ================================================================== *)
(** * The run-length codec *)

(** The runs pushed so far stay in front of whatever the loop adds. *)
Lemma parseSignalStates_loop_acc rest : forall acc cur dur,
  parseSignalStates_loop rest acc cur dur
  = acc ++ parseSignalStates_loop rest [] cur dur.
Proof.
  induction rest as [|v rest IH]; intros acc cur dur;
    cbn [parseSignalStates_loop].
  - now rewrite app_nil_l.
  - destruct (value_eqb (Some v) cur).
    + apply IH.
    + rewrite app_nil_l, (IH (acc ++ [_])), (IH [_]).
      now rewrite <- app_assoc.
Qed.

Lemma value_eqb_eq a b : value_eqb a b = true <-> a = b.
Proof.
  destruct a as [x|], b as [y|]; simpl; try (split; congruence).
  rewrite N.eqb_eq. split; congruence.
Qed.

(** One step of the loop, with the accumulator moved out. *)
Lemma parseSignalStates_loop_step v rest cur dur :
  parseSignalStates_loop (v :: rest) [] cur dur
  = if value_eqb (Some v) cur
    then parseSignalStates_loop rest [] cur (S dur)
    else mk_run cur dur :: parseSignalStates_loop rest [] (Some v) 1.
Proof.
  cbn [parseSignalStates_loop]. destruct (value_eqb (Some v) cur);
    [reflexivity|].
  now rewrite parseSignalStates_loop_acc.
Qed.

Lemma loop_head rest : forall cur dur,
  exists d tl', dur <= d /\
    parseSignalStates_loop rest [] cur dur = mk_run cur d :: tl'.
Proof.
  induction rest as [|v rest IH]; intros cur dur.
  - exists dur, []. split; [lia | reflexivity].
  - rewrite parseSignalStates_loop_step.
    destruct (value_eqb (Some v) cur).
    + destruct (IH cur (S dur)) as (d & t & Hd & E).
      exists d, t. split; [lia | exact E].
    + eexists dur, _. split; [lia | reflexivity].
Qed.

Lemma loop_compressed rest : forall cur dur,
  1 <= dur -> compressed (parseSignalStates_loop rest [] cur dur).
Proof.
  induction rest as [|v rest IH]; intros cur dur Hdur.
  - split; simpl; [exact I | repeat constructor; assumption].
  - rewrite parseSignalStates_loop_step.
    destruct (value_eqb (Some v) cur) eqn:E.
    + apply IH. lia.
    + destruct (IH (Some v) 1 (le_n 1)) as [Hadj Hpos].
      destruct (loop_head rest (Some v) 1) as (d & t & _ & Eq).
      rewrite Eq in *. split.
      * simpl. split; [|exact Hadj].
        intros Heq. simpl in Heq. symmetry in Heq.
        apply value_eqb_eq in Heq. congruence.
      * constructor; [exact Hdur | exact Hpos].
Qed.

(** Whatever the string, the encoder's output is maximally compressed. *)
Lemma parseSignalStates_compressed (s : jsstring) :
  compressed (parseSignalStates s).
Proof. unfold parseSignalStates. apply loop_compressed. lia. Qed.

Lemma repeat_snoc_app (c : char) n (s : jsstring) :
  repeat c (S n) ++ s = repeat c n ++ c :: s.
Proof.
  induction n as [|n IH]; [reflexivity|].
  simpl in *. now rewrite IH.
Qed.

Lemma loop_decode rest : forall c dur,
  serializeSignalStates (parseSignalStates_loop rest [] (Some c) dur)
  = Some (repeat c dur ++ rest).
Proof.
  induction rest as [|v rest IH]; intros c dur.
  - simpl. reflexivity.
  - rewrite parseSignalStates_loop_step.
    destruct (value_eqb (Some v) (Some c)) eqn:E.
    + apply value_eqb_eq in E. injection E as ->.
      rewrite IH. now rewrite repeat_snoc_app.
    + simpl. rewrite IH. reflexivity.
Qed.

(** Decoding the encoding of a non-empty string gives the string back. *)
Lemma codec_roundtrip_nonempty (c : char) (s : jsstring) :
  serializeSignalStates (parseSignalStates (c :: s)) = Some (c :: s).
Proof. unfold parseSignalStates. simpl hd_error. simpl tl. apply loop_decode. Qed.

Lemma fold_left_add_durations (l : list SignalState) : forall n,
  fold_left (fun sum st => sum + duration st) l n
  = n + list_sum (map duration l).
Proof.
  induction l as [|st l IH]; intros n; simpl; [lia|]. rewrite IH. lia.
Qed.

(** The [reduce] of the sources computes the sum of the run durations. *)
Lemma signal_length_sum (s : Signal) : signal_length s = sum_of_durations s.
Proof. unfold signal_length. now rewrite fold_left_add_durations. Qed.

Lemma Math_max_ge xs : forall x,
  x <= Math_max x xs /\ Forall (fun y => y <= Math_max x xs) xs.
Proof.
  unfold Math_max.
  induction xs as [|y xs IH]; intros x; simpl.
  - split; [lia | constructor].
  - destruct (IH (Nat.max x y)) as [H1 H2]. split; [lia|].
    constructor; [lia | exact H2].
Qed.

Lemma Math_max_in xs : forall x, In (Math_max x xs) (x :: xs).
Proof.
  unfold Math_max.
  induction xs as [|y xs IH]; intros x; simpl.
  - now left.
  - destruct (IH (Nat.max x y)) as [H|H].
    + rewrite <- H.
      destruct (Nat.max_spec x y) as [[_ E]|[_ E]]; rewrite E; auto.
    + auto.
Qed.

(* ================================================================== *)
(** * The parser's loop *)

Lemma parse_eq text w :
  parse text w
  = (finish (fst (createDocument default_title w))
            (fst (parse_lines (split_nl text) init_state
                              (snd (createDocument default_title w)))),
     snd (parse_lines (split_nl text) init_state
                      (snd (createDocument default_title w)))).
Proof.
  unfold parse, bind.
  destruct (createDocument default_title w) as [doc w1] eqn:E.
  assert (Hs : signals doc = []).
  { unfold createDocument, bind, ret in E. simpl in E.
    injection E as <- _. reflexivity. }
  rewrite Hs. fold init_state. simpl fst. simpl snd.
  destruct (parse_lines (split_nl text) init_state w1). reflexivity.
Qed.

Lemma createDocument_totalSteps t w :
  totalSteps (timeConfig (fst (createDocument t w))) = 8.
Proof. reflexivity. Qed.

Lemma createDocument_description t w :
  description (metadata (fst (createDocument t w))) = None.
Proof. reflexivity. Qed.

Lemma parse_lines_app l1 : forall l2 a w,
  parse_lines (l1 ++ l2) a w
  = parse_lines l2 (fst (parse_lines l1 a w)) (snd (parse_lines l1 a w)).
Proof.
  induction l1 as [|raw l1 IH]; intros l2 a w; simpl.
  - reflexivity.
  - unfold bind. destruct (parse_line raw a w) as [a' w']. apply IH.
Qed.

(** An invariant of the loop body is an invariant of the loop. *)
Lemma parse_lines_inv (I : ParseState -> Prop) (L : jsstring -> Prop) :
  (forall raw a w, L raw -> I a -> I (fst (parse_line raw a w))) ->
  forall lines a w, Forall L lines -> I a -> I (fst (parse_lines lines a w)).
Proof.
  intros Hstep lines.
  induction lines as [|raw rest IH]; intros a w HL Ha; simpl.
  - exact Ha.
  - inversion HL; subst. unfold bind.
    destruct (parse_line raw a w) as [a' w'] eqn:E.
    apply IH; [assumption|].
    change a' with (fst (a', w')). rewrite <- E. now apply Hstep.
Qed.

Lemma parse_directive_signals ln a :
  signals_acc (parse_directive ln a) = signals_acc a.
Proof.
  unfold parse_directive.
  destruct (regex_match 2 directiveRe ln) as [m|]; [|reflexivity].
  destruct (group 1 m) as [d|]; [|reflexivity].
  destruct (group 2 m) as [v|]; [|reflexivity].
  destruct (jsstring_eqb d (str "title")); [reflexivity|].
  destruct (jsstring_eqb d (str "unit")); [reflexivity|].
  destruct (jsstring_eqb d (str "marker")); [|reflexivity].
  destruct (regex_match 2 markerRe v) as [mm|]; [|reflexivity].
  destruct (group 1 mm); [|reflexivity].
  destruct (group 2 mm); reflexivity.
Qed.

(** The signal that a matched signal line appends. *)
Definition line_signal (m : captures) (nm sts : jsstring) (w : World) : Signal :=
  let signal := fst (createSignal nm (Some sts) w) in
  if truthy (group 3 m) then with_description signal (group 3 m) else signal.

(** What one line does to the list of signals: nothing, or one signal more,
    built from a match of the signal pattern. *)
Lemma parse_line_signals raw a w :
  (signals_acc (fst (parse_line raw a w)) = signals_acc a
   /\ (startsWith (chr "@") (trim raw) = false ->
       parse_line raw a w = (a, w)))
  \/ (exists m nm sts,
        startsWith (chr "@") (trim raw) = false
        /\ regex_match 3 signalRe (trim raw) = Some m
        /\ group 1 m = Some nm /\ group 2 m = Some sts
        /\ signals_acc (fst (parse_line raw a w))
           = signals_acc a ++ [line_signal m nm sts w]).
Proof.
  unfold parse_line.
  destruct (negb (nonempty (trim raw)) || startsWith (chr "#") (trim raw)).
  { left. split; reflexivity. }
  destruct (startsWith (chr "@") (trim raw)) eqn:Hat.
  { left. split; [apply parse_directive_signals | discriminate]. }
  unfold parse_signal_line.
  destruct (regex_match 3 signalRe (trim raw)) as [m|] eqn:Em;
    [|left; split; reflexivity].
  destruct (group 1 m) as [nm|] eqn:E1; [|left; split; reflexivity].
  destruct (group 2 m) as [sts|] eqn:E2; [|left; split; reflexivity].
  right. exists m, nm, sts. repeat split; try assumption.
Qed.

Lemma line_signal_states m nm sts w :
  states (line_signal m nm sts w)
  = if nonempty sts then parseSignalStates sts else [].
Proof. unfold line_signal. destruct (truthy (group 3 m)); reflexivity. Qed.

Lemma line_signal_name m nm sts w : name (line_signal m nm sts w) = nm.
Proof. unfold line_signal. destruct (truthy (group 3 m)); reflexivity. Qed.

Lemma line_signal_description m nm sts w :
  sig_description (line_signal m nm sts w)
  = if truthy (group 3 m) then group 3 m else None.
Proof. unfold line_signal. destruct (truthy (group 3 m)); reflexivity. Qed.

Lemma compressed_nil : compressed [].
Proof. split; [exact I | constructor]. Qed.

Lemma parse_line_compressed raw a w :
  Forall (fun s => compressed (states s)) (signals_acc a) ->
  Forall (fun s => compressed (states s)) (signals_acc (fst (parse_line raw a w))).
Proof.
  intros Ha.
  destruct (parse_line_signals raw a w)
    as [[E _]|(m & nm & sts & _ & _ & _ & _ & E)]; rewrite E; [exact Ha|].
  apply Forall_app. split; [exact Ha|]. constructor; [|constructor].
  rewrite line_signal_states.
  destruct (nonempty sts);
    [apply parseSignalStates_compressed | apply compressed_nil].
Qed.

(* ================================================================== *)
(** * The matcher *)

Lemma firstn_prefix (x rest : jsstring) :
  firstn (length (x ++ rest) - length rest) (x ++ rest) = x.
Proof.
  rewrite length_app, Nat.add_sub.
  rewrite firstn_app, Nat.sub_diag, firstn_all. simpl. apply app_nil_r.
Qed.

Section StarFacts.
Variable R : Type.
Implicit Type k : jsstring -> option R.

(** A successful star consumed a run of class characters. *)
Lemma star_inv p s k res :
  star p s k = Some res ->
  exists a b, s = a ++ b /\ forallb p a = true /\ k b = Some res.
Proof.
  induction s as [|c s IH]; simpl; intros H.
  - exists [], []. auto.
  - destruct (p c) eqn:Hc.
    + destruct (star p s k) as [r|] eqn:E.
      * injection H as ->.
        destruct (IH eq_refl) as (a & b & -> & Ha & Hk).
        exists (c :: a), b. simpl. rewrite Hc, Ha. auto.
      * exists [], (c :: s). auto.
    + exists [], (c :: s). auto.
Qed.

(** The star takes the whole run when what follows cannot extend it and
    the rest of the pattern accepts what follows. *)
Lemma star_greedy p a b k res :
  forallb p a = true -> stops p b = true -> k b = Some res ->
  star p (a ++ b) k = Some res.
Proof.
  intros Ha Hb Hk. induction a as [|c a IH]; simpl in *.
  - destruct b as [|d b]; simpl in *; [exact Hk|].
    apply negb_true_iff in Hb. rewrite Hb. exact Hk.
  - apply andb_true_iff in Ha as [Hc Ha]. rewrite Hc, (IH Ha). reflexivity.
Qed.
End StarFacts.

(** Every successful run of the matcher is a match in the sense of
    [matches], and the continuation accepted what was left. *)
Lemma run_sound R (r : re) : forall s caps (k : jsstring -> captures -> option R) res,
  run r s caps k = Some res ->
  exists x rest caps',
    s = x ++ rest /\ matches r x rest caps caps' /\ k rest caps' = Some res.
Proof.
  induction r as [p|p|p|a IHa b IHb|i a IHa|a IHa|]; intros s caps k res H;
    cbn [run] in H.
  - destruct s as [|c s]; [discriminate|].
    destruct (p c) eqn:Hc; [|discriminate].
    exists [c], s, caps. repeat split; [now constructor | exact H].
  - apply star_inv in H as (a & b & -> & Ha & Hk).
    exists a, b, caps. repeat split; [now constructor | exact Hk].
  - destruct s as [|c s]; [discriminate|].
    destruct (p c) eqn:Hc; [|discriminate].
    apply star_inv in H as (a & b & -> & Ha & Hk).
    exists (c :: a), b, caps. repeat split; [now constructor | exact Hk].
  - apply IHa in H as (x & rest1 & caps1 & -> & Hx & H).
    apply IHb in H as (y & rest & caps2 & -> & Hy & H).
    exists (x ++ y), rest, caps2. rewrite <- app_assoc.
    repeat split; [econstructor; eassumption | exact H].
  - apply IHa in H as (x & rest & caps' & -> & Hx & H).
    rewrite firstn_prefix in H.
    exists x, rest, (set_nth i (Some x) caps').
    repeat split; [now constructor | exact H].
  - destruct (run a s caps k) as [r|] eqn:E.
    + injection H as ->.
      apply IHa in E as (x & rest & caps' & -> & Hx & H).
      exists x, rest, caps'. repeat split; [now apply m_opt_some | exact H].
    + exists [], s, caps. repeat split; [apply m_opt_none | exact H].
  - destruct s; [|discriminate].
    exists [], [], caps. repeat split; [constructor | exact H].
Qed.

(** A greedy match is what the matcher finds. *)
Lemma run_greedy r x rest caps caps' :
  greedy r x rest caps caps' ->
  forall R (k : jsstring -> captures -> option R) res,
    k rest caps' = Some res -> run r (x ++ rest) caps k = Some res.
Proof.
  induction 1 as [p c rest caps Hc
                 |p a rest caps Ha Hs
                 |p c a rest caps Hc Ha Hs
                 |a b x y rest caps caps1 caps2 _ IHa _ IHb
                 |i a x rest caps caps' _ IHa
                 |a x rest caps caps' _ IHa
                 |a rest caps Hno
                 |caps];
    intros R k res Hk; cbn [run].
  - simpl. now rewrite Hc.
  - now apply star_greedy.
  - simpl. rewrite Hc. now apply star_greedy.
  - rewrite <- app_assoc. apply IHa. now apply IHb.
  - apply IHa. now rewrite firstn_prefix.
  - now rewrite (IHa R k res Hk).
  - simpl. now rewrite Hno.
  - exact Hk.
Qed.

Lemma regex_match_sound n r s m :
  regex_match n r s = Some m ->
  exists x rest caps',
    s = x ++ rest /\ matches r x rest (repeat None (S n)) caps'
    /\ m = set_nth 0 (Some x) caps'.
Proof.
  unfold regex_match. intros H.
  apply run_sound in H as (x & rest & caps' & -> & Hm & H).
  inversion Hm; subst. injection H as <-.
  eexists _, _, _. repeat split. eassumption.
Qed.

Lemma regex_match_greedy n r x caps' :
  greedy r x [] (repeat None (S n)) caps' ->
  regex_match n r x = Some (set_nth 0 (Some x) caps').
Proof.
  intros H. unfold regex_match.
  rewrite <- (app_nil_r x) at 1.
  eapply run_greedy; [constructor; eassumption | reflexivity].
Qed.

Lemma caps_all_set_nth P i x caps :
  Forall P x -> caps_all P caps -> caps_all P (set_nth i (Some x) caps).
Proof.
  intros Hx H. revert i.
  induction H as [|o caps Ho Hc IH]; intros i; destruct i; simpl;
    try constructor; try assumption.
  apply IH.
Qed.

(** Captured text is made of characters of the matched text. *)
Lemma matches_caps_all P r x rest caps caps' :
  matches r x rest caps caps' ->
  Forall P x -> caps_all P caps -> caps_all P caps'.
Proof.
  induction 1; intros Hx Hc; auto.
  - apply Forall_app in Hx as [Hx Hy]. auto.
  - apply caps_all_set_nth; auto.
Qed.

Lemma caps_all_repeat_None P n : caps_all P (repeat None n).
Proof. induction n; simpl; constructor; auto. Qed.

Lemma caps_all_group P i caps v :
  caps_all P caps -> group i caps = Some v -> Forall P v.
Proof.
  unfold group. intros H. revert i.
  induction H as [|o caps Ho _ IH]; intros i E.
  - destruct i; discriminate.
  - destruct i; simpl in E; [subst o; exact Ho | eauto].
Qed.

(** A group of a match holds characters of the subject only. *)
Lemma regex_match_group P n r s m i v :
  regex_match n r s = Some m -> Forall P s -> group i m = Some v ->
  Forall P v.
Proof.
  intros H Hs Hg.
  apply regex_match_sound in H as (x & rest & caps' & -> & Hm & ->).
  apply Forall_app in Hs as [Hx _].
  eapply caps_all_group; [|exact Hg].
  apply caps_all_set_nth; [exact Hx|].
  eapply matches_caps_all; eauto using caps_all_repeat_None.
Qed.

(* ================================================================== *)
(** * The signal pattern *)

(** What a match of the signal pattern looks like. *)
Lemma signalRe_inv ln m :
  regex_match 3 signalRe ln = Some m ->
  exists c nm s0 sts dsc,
    is_name_start c = true /\ forallb is_word nm = true /\
    is_state s0 = true /\ forallb is_state sts = true /\
    m = [Some ln; Some (c :: nm); Some (s0 :: sts); dsc] /\
    (dsc = None \/
     exists q d, dsc = Some (q :: d) /\ forallb not_quote (q :: d) = true).
Proof.
  intros H. apply regex_match_sound in H as (x & rest & caps' & -> & Hm & ->).
  unfold signalRe in Hm. invert_matches.
  - simpl. rewrite ?app_nil_r.
    exists c, y, c1, a, (Some (c4 :: a0)).
    repeat split; try assumption.
    right. exists c4, a0. split; [reflexivity|]. simpl. now rewrite H8.
  - simpl. rewrite ?app_nil_r.
    exists c, y, c1, a, None.
    repeat split; try assumption. now left.
Qed.

Lemma is_name_start_word c : is_name_start c = true -> is_word c = true.
Proof.
  unfold is_name_start, is_word. intros H.
  repeat (apply orb_true_iff in H as [H|H]); rewrite H;
    repeat rewrite orb_true_r; reflexivity.
Qed.

Lemma is_word_not_space c : is_word c = true -> is_space c = false.
Proof. intros H. char_cases H; char_false. Qed.

Lemma is_word_not_nl c : is_word c = true -> c <> NL.
Proof. intros H. char_cases H; unfold NL; lia. Qed.

Lemma is_state_not_space c : is_state c = true -> is_space c = false.
Proof. intros H. char_cases H; subst; reflexivity. Qed.

Lemma is_state_not_nl c : is_state c = true -> c <> NL.
Proof. intros H. char_cases H; subst; discriminate. Qed.

Lemma is_state_test c : is_state c = true -> (c =? chr ":")%N = false.
Proof. intros H. char_cases H; subst; reflexivity. Qed.

(** The pattern matches every line the serializer writes for a signal, and
    captures the three parts the line was composed of. *)
Lemma signalRe_complete c nm s0 sts dsc :
  is_name_start c = true -> forallb is_word nm = true ->
  is_state s0 = true -> forallb is_state sts = true ->
  desc_ok dsc ->
  regex_match 3 signalRe (signal_text (c :: nm) (s0 :: sts) dsc)
  = Some [Some (signal_text (c :: nm) (s0 :: sts) dsc);
          Some (c :: nm); Some (s0 :: sts); dsc].
Proof.
  intros Hc Hnm Hs0 Hsts Hd.
  pose proof (is_state_not_space _ Hs0) as Hsp.
  destruct dsc as [[|q d]|]; [now destruct Hd as [[] _] | |].
  - destruct Hd as [_ Hq]. simpl in Hq. apply andb_true_iff in Hq as [Hq Hqd].
    set (X := ([c] ++ nm) ++ [] ++ [chr ":"] ++ [chr " "] ++ (s0 :: sts)
              ++ ([chr " "] ++ [QUOTE] ++ (q :: d) ++ [QUOTE]) ++ []).
    match goal with
    | |- regex_match _ _ ?T = _ => assert (EX : T = X)
    end.
    { unfold signal_text, X, quoted. simpl. now rewrite !app_nil_r. }
    rewrite EX.
    eassert (G : greedy signalRe X [] (repeat None 4) _).
    { unfold signalRe, X.
      eapply g_cat.
      { eapply g_grp, g_cat; [now apply g_cls | now apply g_star]. }
      eapply g_cat; [now apply g_star|].
      eapply g_cat; [now apply g_cls|].
      eapply g_cat.
      { apply g_star; [reflexivity | simpl; now rewrite Hsp]. }
      eapply g_cat; [now apply g_grp, g_plus|].
      eapply g_cat; [|apply g_eos].
      apply g_opt_some.
      eapply g_cat; [now apply g_plus|].
      eapply g_cat; [now apply g_cls|].
      eapply g_cat; [now apply g_grp, g_plus | now apply g_cls]. }
    rewrite (regex_match_greedy G). reflexivity.
  - set (X := ([c] ++ nm) ++ [] ++ [chr ":"] ++ [chr " "] ++ (s0 :: sts)
              ++ [] ++ []).
    match goal with
    | |- regex_match _ _ ?T = _ => assert (EX : T = X)
    end.
    { unfold signal_text, X. simpl. now rewrite !app_nil_r. }
    rewrite EX.
    eassert (G : greedy signalRe X [] (repeat None 4) _).
    { unfold signalRe, X.
      eapply g_cat.
      { eapply g_grp, g_cat; [now apply g_cls | now apply g_star]. }
      eapply g_cat; [now apply g_star|].
      eapply g_cat; [now apply g_cls|].
      eapply g_cat.
      { apply g_star; [reflexivity | simpl; now rewrite Hsp]. }
      eapply g_cat; [now apply g_grp, g_plus|].
      eapply g_cat; [|apply g_eos].
      apply g_opt_none. reflexivity. }
    rewrite (regex_match_greedy G). reflexivity.
Qed.

(* ================================================================== *)
(** * What the parser builds *)

Lemma parse_line_wf_signal raw a w :
  nl_free raw ->
  Forall wf_signal (signals_acc a) ->
  Forall wf_signal (signals_acc (fst (parse_line raw a w))).
Proof.
  intros Hraw Ha.
  destruct (parse_line_signals raw a w)
    as [[E _]|(m & nm & sts & _ & Hm & E1 & E2 & E)]; rewrite E; [exact Ha|].
  apply Forall_app. split; [exact Ha|]. constructor; [|constructor].
  assert (Hd : forall d, group 3 m = Some d -> nl_free d).
  { intros d Hg. eapply regex_match_group; [exact Hm | | exact Hg].
    now apply Forall_trim. }
  apply signalRe_inv in Hm as (c & nm' & s0 & sts' & dsc & Hc & Hnm & Hs0 & Hsts
                               & -> & Hdsc).
  cbv [group nth] in E1, E2, Hd. injection E1 as <-. injection E2 as <-.
  exists c, nm', s0, sts'.
  rewrite line_signal_name, line_signal_states, line_signal_description.
  cbv [group nth]. repeat split; try assumption.
  - destruct Hdsc as [->|(q & d & -> & Hq)]; simpl; [exact I|].
    split; [discriminate | exact Hq].
  - intros d. destruct (truthy dsc); [apply Hd | discriminate].
Qed.

Lemma parse_signal_line_meta ln a w :
  let a' := fst (parse_signal_line ln a w) in
  currentTitle a' = currentTitle a /\ currentUnit a' = currentUnit a
  /\ markers_acc a' = markers_acc a.
Proof.
  unfold parse_signal_line.
  destruct (regex_match 3 signalRe ln) as [m|]; [|now simpl].
  destruct (group 1 m); [|now simpl].
  destruct (group 2 m); now simpl.
Qed.

Lemma parse_directive_wf_meta ln a :
  nl_free ln -> wf_meta a -> wf_meta (parse_directive ln a).
Proof.
  intros Hln (Ht & Hu & Hm). unfold parse_directive.
  destruct (regex_match 2 directiveRe ln) as [m|] eqn:Em; [|now repeat split].
  destruct (group 1 m) as [d|]; [|now repeat split].
  destruct (group 2 m) as [v|] eqn:E2; [|now repeat split].
  assert (Hv : nl_free v) by (eapply regex_match_group; eauto).
  destruct (jsstring_eqb d (str "title")).
  { repeat split; assumption. }
  destruct (jsstring_eqb d (str "unit")).
  { repeat split; try assumption. simpl. now intros u [= <-]. }
  destruct (jsstring_eqb d (str "marker")); [|now repeat split].
  destruct (regex_match 2 markerRe v) as [mm|] eqn:Emm; [|now repeat split].
  destruct (group 1 mm); [|now repeat split].
  destruct (group 2 mm) as [lbl|] eqn:E2'; [|now repeat split].
  repeat split; try assumption. simpl.
  apply Forall_app. split; [assumption|]. constructor; [|constructor].
  simpl. eapply regex_match_group; eauto.
Qed.

Lemma parse_line_wf_meta raw a w :
  nl_free raw -> wf_meta a -> wf_meta (fst (parse_line raw a w)).
Proof.
  intros Hraw Ha. unfold parse_line.
  destruct (negb (nonempty (trim raw)) || startsWith (chr "#") (trim raw));
    [exact Ha|].
  destruct (startsWith (chr "@") (trim raw)).
  - apply parse_directive_wf_meta; [now apply Forall_trim | exact Ha].
  - destruct (parse_signal_line_meta (trim raw) a w) as (E1 & E2 & E3).
    destruct Ha as (Ht & Hu & Hm). unfold wf_meta. now rewrite E1, E2, E3.
Qed.

(** Every document that [parse] returns holds well-formed signals and
    single-line metadata. *)
Lemma parse_lines_wf text w :
  let a := fst (parse_lines (split_nl text) init_state w) in
  Forall wf_signal (signals_acc a) /\ wf_meta a.
Proof.
  apply (@parse_lines_inv
           (fun a => Forall wf_signal (signals_acc a) /\ wf_meta a) nl_free).
  - intros raw a w' Hraw [H1 H2]. split.
    + now apply parse_line_wf_signal.
    + now apply parse_line_wf_meta.
  - apply split_nl_nl_free.
  - split; [constructor|]. repeat split.
    + unfold init_state, default_title. simpl.
      repeat constructor; discriminate.
    + discriminate.
    + constructor.
Qed.

(* ================================================================== *)
(** * Reading back what the serializer wrote *)

Lemma serializeSignal_text s c nm s0 sts :
  name s = c :: nm -> states s = parseSignalStates (s0 :: sts) ->
  serializeSignal s
  = Some (signal_text (c :: nm) (s0 :: sts) (sig_description s)).
Proof.
  intros En Es. unfold serializeSignal, signal_text.
  rewrite Es, codec_roundtrip_nonempty, En.
  destruct (sig_description s) as [[|q d]|];
    rewrite <- ?app_assoc, ?app_nil_r; reflexivity.
Qed.

Lemma forallb_last (p : char -> bool) l d :
  forallb p (l ++ [d]) = true -> p d = true.
Proof.
  intros H. rewrite forallb_app in H. apply andb_true_iff in H as [_ H].
  simpl in H. now rewrite andb_true_r in H.
Qed.

(** A signal line ends in a state character or in a quote. *)
Lemma signal_text_ends c nm s0 sts dsc :
  is_state s0 = true -> forallb is_state sts = true ->
  exists body d,
    signal_text (c :: nm) (s0 :: sts) dsc = c :: body ++ [d]
    /\ is_space d = false.
Proof.
  intros Hs0 Hsts. unfold signal_text.
  destruct dsc as [[|q t]|].
  - destruct (exists_last (l := s0 :: sts)) as (l & d & E); [discriminate|].
    rewrite E. exists (nm ++ str ": " ++ l), d. split.
    + rewrite app_nil_r. simpl. now rewrite <- !app_assoc.
    + apply is_state_not_space.
      apply (forallb_last is_state l). rewrite <- E. simpl. now rewrite Hs0.
  - exists (nm ++ str ": " ++ (s0 :: sts) ++ str " " ++ QUOTE :: q :: t), QUOTE.
    split; [|reflexivity].
    unfold quoted. simpl. rewrite <- !app_assoc. simpl.
    do 2 f_equal. rewrite <- !app_assoc. reflexivity.
  - destruct (exists_last (l := s0 :: sts)) as (l & d & E); [discriminate|].
    rewrite E. exists (nm ++ str ": " ++ l), d. split.
    + rewrite app_nil_r. simpl. now rewrite <- !app_assoc.
    + apply is_state_not_space.
      apply (forallb_last is_state l). rewrite <- E. simpl. now rewrite Hs0.
Qed.

Lemma forallb_Forall (p : char -> bool) (P : char -> Prop) l :
  (forall c, p c = true -> P c) -> forallb p l = true -> Forall P l.
Proof.
  intros H Hl. apply Forall_forall. intros c Hc.
  apply H. rewrite forallb_forall in Hl. now apply Hl.
Qed.

Lemma str_nl_free_colon : nl_free (str ": ").
Proof. repeat constructor; discriminate. Qed.

Lemma signal_text_nl_free c nm s0 sts dsc :
  is_name_start c = true -> forallb is_word nm = true ->
  is_state s0 = true -> forallb is_state sts = true ->
  (forall d, dsc = Some d -> nl_free d) ->
  nl_free (signal_text (c :: nm) (s0 :: sts) dsc).
Proof.
  intros Hc Hnm Hs0 Hsts Hd. unfold signal_text, nl_free.
  repeat (apply Forall_app; split).
  - constructor.
    + now apply is_word_not_nl, is_name_start_word.
    + eapply forallb_Forall; [apply is_word_not_nl | exact Hnm].
  - apply str_nl_free_colon.
  - constructor; [now apply is_state_not_nl|].
    eapply forallb_Forall; [apply is_state_not_nl | exact Hsts].
  - destruct dsc as [[|q d]|]; [constructor | | constructor].
    unfold quoted. simpl. constructor; [discriminate|].
    constructor; [discriminate|].
    specialize (Hd _ eq_refl). inversion Hd; subst.
    constructor; [assumption|].
    apply Forall_app. split; [assumption|].
    repeat constructor; discriminate.
Qed.

Lemma is_name_start_tests c :
  is_name_start c = true ->
  is_space c = false /\ (c =? chr "#")%N = false /\ (c =? chr "@")%N = false.
Proof.
  intros H. split; [now apply is_word_not_space, is_name_start_word|].
  char_cases H; split; apply N.eqb_neq; unfold chr; simpl; lia.
Qed.

(** The parser reads a serialized signal line back as the signal it was
    written from. *)
Lemma parse_line_signal_text c nm s0 sts dsc a w :
  is_name_start c = true -> forallb is_word nm = true ->
  is_state s0 = true -> forallb is_state sts = true ->
  desc_ok dsc ->
  exists s' w',
    parse_line (signal_text (c :: nm) (s0 :: sts) dsc) a w = (s', w')
    /\ exists sig,
        signals_acc s' = signals_acc a ++ [sig]
        /\ signal_core sig = (c :: nm, parseSignalStates (s0 :: sts), dsc).
Proof.
  intros Hc Hnm Hs0 Hsts Hd.
  destruct (@is_name_start_tests c Hc) as (Hsp & Hhash & Hat).
  destruct (@signal_text_ends c nm s0 sts dsc Hs0 Hsts) as (body & d & E & Hdsp).
  unfold parse_line.
  assert (Et : trim (signal_text (c :: nm) (s0 :: sts) dsc)
               = signal_text (c :: nm) (s0 :: sts) dsc).
  { rewrite E. now apply trim_id. }
  rewrite Et.
  assert (Eh : negb (nonempty (signal_text (c :: nm) (s0 :: sts) dsc))
               || startsWith (chr "#") (signal_text (c :: nm) (s0 :: sts) dsc)
               = false).
  { rewrite E. simpl. exact Hhash. }
  rewrite Eh.
  assert (Ea : startsWith (chr "@") (signal_text (c :: nm) (s0 :: sts) dsc)
               = false).
  { rewrite E. simpl. exact Hat. }
  rewrite Ea. unfold parse_signal_line.
  rewrite (@signalRe_complete c nm s0 sts dsc Hc Hnm Hs0 Hsts Hd).
  cbv [group nth]. unfold bind, ret.
  match goal with
  | |- context [createSignal ?n ?s w] =>
      destruct (createSignal n s w) as [sig w'] eqn:Ec
  end.
  eexists _, w'. split; [reflexivity|]. simpl signals_acc.
  eexists. split; [reflexivity|].
  assert (Es : signal_core sig = (c :: nm, parseSignalStates (s0 :: sts), None)).
  { unfold createSignal, bind, ret in Ec. simpl in Ec.
    injection Ec as <- _. reflexivity. }
  unfold signal_core in *. injection Es as E1 E2 E3.
  destruct dsc as [[|q t]|]; simpl.
  - now destruct Hd as [[] _].
  - now rewrite E1, E2.
  - now rewrite E1, E2, E3.
Qed.

Lemma parse_line_header l a w :
  header_like l ->
  snd (parse_line l a w) = w
  /\ signals_acc (fst (parse_line l a w)) = signals_acc a.
Proof.
  intros [->|(s & ->)]; unfold parse_line.
  - split; reflexivity.
  - rewrite (@trim_cons (chr "@") s eq_refl).
    cbn [nonempty negb orb startsWith]. change (chr "@" =? chr "#")%N with false.
    rewrite N.eqb_refl. split; [reflexivity|]. apply parse_directive_signals.
Qed.

Lemma parse_lines_header hl : forall a w,
  Forall header_like hl ->
  snd (parse_lines hl a w) = w
  /\ signals_acc (fst (parse_lines hl a w)) = signals_acc a.
Proof.
  induction hl as [|l hl IH]; intros a w H; simpl.
  - split; reflexivity.
  - inversion H; subst. unfold bind.
    destruct (parse_line_header a w H2) as [Ew Es].
    destruct (parse_line l a w) as [a' w']. simpl in Ew, Es. subst w'.
    destruct (IH a' w H3) as [Ew' Es']. split; congruence.
Qed.

Lemma uint_chars_nl_free u : nl_free (uint_chars u).
Proof. induction u; simpl; constructor; (discriminate || assumption). Qed.

Lemma marker_line_ok mk :
  nl_free (label mk) -> header_like (marker_line mk) /\ nl_free (marker_line mk).
Proof.
  intros H. unfold marker_line. split.
  - right. eexists. reflexivity.
  - unfold nl_free, quoted. repeat (apply Forall_app; split).
    + repeat constructor; discriminate.
    + apply uint_chars_nl_free.
    + repeat constructor; discriminate.
    + constructor; [discriminate|]. apply Forall_app. split; [exact H|].
      repeat constructor; discriminate.
Qed.

(** The lines the serializer writes before the signals are directives on
    one line each, and a blank line. *)
Lemma header_lines_finish doc a :
  description (metadata doc) = None ->
  unit (timeConfig doc) = None ->
  markers (timeConfig doc) = None ->
  wf_meta a ->
  Forall (fun l => header_like l /\ nl_free l) (header_lines (finish doc a)).
Proof.
  intros Ed Eu Em (Ht & Hu & Hm).
  unfold header_lines, finish. cbn [metadata timeConfig title description
                                    unit markers].
  rewrite Ed, Eu, Em.
  match goal with
  | |- Forall ?Q (match ?ls with [] => [] | _ :: _ => _ end) =>
      assert (H : Forall Q ls); [|destruct ls; [constructor|];
        apply Forall_app; split; [exact H|];
        constructor; [split; [now left | constructor] | constructor]]
  end.
  repeat (apply Forall_app; split).
  - destruct (nonempty (currentTitle a)
              && negb (jsstring_eqb (currentTitle a) default_title));
      [|constructor].
    constructor; [|constructor]. split.
    + right. eexists. reflexivity.
    + apply Forall_app. split; [repeat constructor; discriminate | exact Ht].
  - constructor.
  - destruct (currentUnit a) as [[|c u]|] eqn:E; cbn [truthy nonempty];
      try constructor; [|constructor].
    split.
    + right. eexists. reflexivity.
    + apply Forall_app. split; [repeat constructor; discriminate|].
      now apply Hu.
  - destruct (markers_acc a) as [|mk ms]; [constructor|].
    apply Forall_map. eapply Forall_impl; [|exact Hm].
    intros mk0 H0. now apply marker_line_ok.
Qed.

(** Serializing well-formed signals and parsing the lines appends signals
    with the same names, runs and descriptions. *)
Lemma reparse_signals sigs :
  Forall wf_signal sigs ->
  exists lns,
    serializeSignals sigs = Some lns
    /\ Forall nl_free lns
    /\ (sigs = [] -> lns = [])
    /\ forall a w, exists news,
         signals_acc (fst (parse_lines lns a w)) = signals_acc a ++ news
         /\ map signal_core news = map signal_core sigs.
Proof.
  induction 1 as [|s sigs Hs _ (lns & El & Hnl & _ & Hp)].
  - exists []. repeat split; auto.
    intros a w. exists []. simpl. now rewrite app_nil_r.
  - destruct Hs as (c & nm & s0 & sts & En & Hc & Hnm & Hs0 & Hsts & Es
                    & Hd & Hdn).
    exists (signal_text (c :: nm) (s0 :: sts) (sig_description s) :: lns).
    repeat split.
    + simpl. now rewrite (@serializeSignal_text s c nm s0 sts En Es), El.
    + constructor; [now apply signal_text_nl_free | exact Hnl].
    + discriminate.
    + intros a w. cbn [parse_lines]. unfold bind.
      destruct (@parse_line_signal_text c nm s0 sts (sig_description s) a w
                  Hc Hnm Hs0 Hsts Hd)
        as (a' & w' & E & sig & Ea & Ecore).
      rewrite E.
      destruct (Hp a' w') as (news & En' & Em).
      exists (sig :: news). split.
      * rewrite En', Ea, <- app_assoc. reflexivity.
      * simpl. rewrite Em, Ecore. unfold signal_core. now rewrite En, Es.
Qed.

Lemma signal_view_core l1 l2 :
  map signal_core l1 = map signal_core l2 ->
  map signal_view l1 = map signal_view l2.
Proof.
  intros H.
  assert (E : forall l, map signal_view l
                        = map (fun t : jsstring * list SignalState
                                       * option jsstring =>
                                 let '(n, st, d) := t in
                                 (n, serializeSignalStates st, d))
                              (map signal_core l)).
  { intros l. rewrite map_map. reflexivity. }
  now rewrite !E, H.
Qed.

(** The text round trip, with the run lists themselves. *)
Lemma text_roundtrip_core text w w' :
  exists t,
    serialize (fst (parse text w)) = Some t
    /\ map signal_core (signals (fst (parse t w')))
       = map signal_core (signals (fst (parse text w))).
Proof.
  rewrite parse_eq. cbn [fst].
  set (doc := fst (createDocument default_title w)).
  set (w1 := snd (createDocument default_title w)).
  destruct (parse_lines_wf text w1) as [Hsig Hmeta].
  set (a := fst (parse_lines (split_nl text) init_state w1)) in *.
  destruct (reparse_signals Hsig) as (lns & El & Hnl & Hempty & Hp).
  pose proof (@header_lines_finish doc a eq_refl eq_refl eq_refl Hmeta) as Hh.
  exists (join_nl (header_lines (finish doc a) ++ lns)). split.
  - unfold serialize. cbn [signals finish]. now rewrite El.
  - rewrite parse_eq. cbn [fst signals finish].
    set (w2 := snd (createDocument default_title w')).
    destruct (header_lines (finish doc a) ++ lns) as [|l0 ls0] eqn:E.
    + apply app_eq_nil in E as [_ ->].
      destruct (Hp init_state w2) as (news & E1 & E2).
      simpl in E1. simpl. rewrite <- E2.
      destruct news; [reflexivity | discriminate].
    + rewrite split_join; [|discriminate|].
      * rewrite <- E, parse_lines_app.
        destruct (@parse_lines_header (header_lines (finish doc a))
                    init_state w2) as [Ew Es].
        { eapply Forall_impl; [|exact Hh]. now intros l [H _]. }
        rewrite Ew.
        destruct (Hp (fst (parse_lines (header_lines (finish doc a))
                                       init_state w2)) w2)
          as (news & E1 & E2).
        rewrite E1, Es. simpl. exact E2.
      * rewrite <- E. apply Forall_app. split; [|exact Hnl].
        eapply Forall_impl; [|exact Hh]. now intros l [_ H].
Qed.

(* ================================================================== *)
(** * Blank lines *)

Lemma parse_lines_blank a w : parse_lines [[]] a w = (a, w).
Proof. reflexivity. Qed.

(* ================================================================== *)
(** * The validator *)

Lemma statesRe_test s0 sts :
  is_state s0 = true -> forallb is_state sts = true ->
  regex_test statesRe (s0 :: sts) = true.
Proof.
  intros H0 H. unfold regex_test.
  eassert (G : greedy statesRe ((s0 :: sts) ++ []) [] (repeat None 1) _).
  { unfold statesRe. eapply g_cat; [now apply g_plus | apply g_eos]. }
  rewrite app_nil_r in G. now rewrite (regex_match_greedy G).
Qed.

Lemma validate_line_codes raw n ew :
  Forall syntax_code (fst ew) ->
  Forall syntax_code (fst (validate_line raw n ew)).
Proof.
  destruct ew as [errs warns]. intros H. unfold validate_line.
  destruct (negb (nonempty (trim raw)) || startsWith (chr "#") (trim raw));
    [exact H|].
  destruct (startsWith (chr "@") (trim raw)).
  - destruct (regex_match 2 directiveRe (trim raw)); [exact H|].
    simpl. apply Forall_app. split; [exact H|].
    constructor; [now left | constructor].
  - destruct (regex_match 3 signalRe (trim raw)) as [m|] eqn:Em.
    + apply signalRe_inv in Em as (c & nm & s0 & sts & dsc & _ & _ & H0 & Hs
                                   & -> & _).
      cbv [group nth]. rewrite (@statesRe_test s0 sts H0 Hs). exact H.
    + simpl. apply Forall_app. split; [exact H|].
      constructor; [now right | constructor].
Qed.

Lemma validate_lines_codes lines : forall i ew,
  Forall syntax_code (fst ew) ->
  Forall syntax_code (fst (validate_lines lines i ew)).
Proof.
  induction lines as [|raw rest IH]; intros i ew H; simpl; [exact H|].
  apply IH. now apply validate_line_codes.
Qed.

(** Every error of the validator is a syntax error of one line. *)
Lemma validate_codes text : Forall syntax_code (errors (validate text)).
Proof.
  unfold validate.
  pose proof (@validate_lines_codes (split_nl text) 0 ([], [])
                (Forall_nil _)) as H.
  destruct (validate_lines (split_nl text) 0 ([], [])) as [errs warns].
  exact H.
Qed.

Lemma serialize_length sts : forall t,
  serializeSignalStates sts = Some t ->
  length t = list_sum (map duration sts).
Proof.
  induction sts as [|st sts IH]; intros t H; simpl in *.
  - now injection H as <-.
  - destruct (value st) as [c|]; [|discriminate].
    destruct (serializeSignalStates sts) as [tl'|]; [|discriminate].
    injection H as <-. rewrite length_app, repeat_length, (IH tl' eq_refl).
    reflexivity.
Qed.

(* ================================================================== *)
(** * The claims *)

(** C1, as stated, fails: the empty text yields no signals, and the
    document [parse] returns for it has [totalSteps] 8, not 0. *)
Lemma parse_empty_text_totalSteps :
  signals (fst (parse [] w0)) = []
  /\ totalSteps (timeConfig (fst (parse [] w0))) <> 0.
Proof. split; [reflexivity | discriminate]. Qed.

(** C1, amended: for every input text, [timeConfig.totalSteps] of the
    document returned by [parse] is the maximum over its signals of the sum
    of run durations (no signal exceeds it and some signal attains it), and
    it is the default 8 of [createDocument] when the text yields no
    signals. *)
Theorem parse_totalSteps text w :
  let d := fst (parse text w) in
  match signals d with
  | [] => totalSteps (timeConfig d) = 8
  | _ :: _ =>
      Forall (fun s => sum_of_durations s <= totalSteps (timeConfig d))
             (signals d)
      /\ Exists (fun s => sum_of_durations s = totalSteps (timeConfig d))
                (signals d)
  end.
Proof.
  rewrite parse_eq. cbn [fst finish signals timeConfig totalSteps].
  destruct (signals_acc _) as [|s l]; [reflexivity|].
  cbn [map].
  destruct (Math_max_ge (map signal_length l) (signal_length s)) as [H1 H2].
  pose proof (Math_max_in (map signal_length l) (signal_length s)) as H3.
  set (M := Math_max (signal_length s) (map signal_length l)) in *.
  split.
  - constructor; [now rewrite <- signal_length_sum|].
    apply Forall_map in H2. eapply Forall_impl; [|exact H2].
    intros s' Hs'. now rewrite <- signal_length_sum.
  - change (signal_length s :: map signal_length l)
      with (map signal_length (s :: l)) in H3.
    apply in_map_iff in H3 as (s' & E & Hin).
    apply Exists_exists. exists s'. split; [exact Hin|].
    now rewrite <- signal_length_sum.
Qed.

(** C2 at the empty sequence: encoding it yields a run whose value is
    undefined, and decoding that run throws, so the round trip does not
    return the empty sequence. *)
Theorem codec_roundtrip_empty : decode (encode []) = None.
Proof. reflexivity. Qed.

(** C3 at its own example: [validate] applied to the single line
    DATA: 01X20101 reports one error, with code INVALID_SIGNAL, and no
    error with code INVALID_STATE. *)
Theorem validate_invalid_state_example :
  validate (str "DATA: 01X20101")
  = {| valid := false;
       errors := [mk_error 1
                    "Invalid signal syntax. Expected format: NAME: 01010101"
                    "INVALID_SIGNAL"];
       warnings := [] |}.
Proof. vm_compute. reflexivity. Qed.

(** C4 at its own example: [validate] applied to two lines that both name
    the signal CLK reports the text valid, with no error at all. *)
Theorem validate_duplicate_example :
  validate (str "CLK: 0101" ++ NL :: str "CLK: 1010")
  = {| valid := true; errors := []; warnings := [] |}.
Proof. vm_compute. reflexivity. Qed.

(** C5 at its own example: a well-formed signal line followed by a trailing
    comment is dropped by [parse], which returns no signal for it, and is
    rejected by [validate] with an INVALID_SIGNAL error. *)
Theorem trailing_comment_example :
  signals (fst (parse (str "CLK: 0101  # clock") w0)) = []
  /\ map code (errors (validate (str "CLK: 0101  # clock")))
     = ["INVALID_SIGNAL"%string].
Proof. split; vm_compute; reflexivity. Qed.

(** C6 at the empty sequence: the encoder returns one run of duration 1
    whose value is undefined, not the empty run list. *)
Theorem parseSignalStates_empty :
  encode [] = [{| value := None; duration := 1 |}].
Proof. reflexivity. Qed.

(** C7: for every document [d] that [parse] produces, [serialize d]
    succeeds, and parsing its result yields a document with the same signal
    names in the same order, the same decoded state string per signal and
    the same descriptions; ids and timestamps depend on the clock and are
    not compared. *)
Theorem text_roundtrip text w w' :
  exists t,
    serialize (fst (parse text w)) = Some t
    /\ map signal_view (signals (fst (parse t w')))
       = map signal_view (signals (fst (parse text w))).
Proof.
  destruct (text_roundtrip_core text w w') as (t & Hs & Hc).
  exists t. split; [exact Hs | now apply signal_view_core].
Qed.

(** C8: for every input text, the run list of every signal of the document
    returned by [parse] is maximally compressed: no two adjacent runs share
    a value and every run has duration at least 1. *)
Theorem parse_signals_compressed text w :
  Forall (fun s => compressed (states s)) (signals (fst (parse text w))).
Proof.
  rewrite parse_eq. cbn [fst finish signals].
  apply (@parse_lines_inv
           (fun a => Forall (fun s => compressed (states s)) (signals_acc a))
           (fun _ => True)).
  - intros raw a w' _. apply parse_line_compressed.
  - apply Forall_forall. intros; exact I.
  - constructor.
Qed.

(** C10, as stated, fails: a document created at time 1000 and passed to
    [updateMetadata] with updates that carry the [created] field 7 comes
    back with [metadata.created] 7. *)
Lemma updateMetadata_changes_created :
  let doc := fst (createDocument default_title w0) in
  let updates := {| p_title := None; p_meta_description := None;
                    p_author := None; p_created := Some 7%N;
                    p_modified := None; p_tags := None |} in
  created (metadata doc) = 1000%N
  /\ created (metadata (fst (updateMetadata doc updates w0))) = 7%N.
Proof. split; reflexivity. Qed.

(** C10, amended: [addSignal], [updateSignal], [removeSignal] and
    [updateTimeConfig] return a document with the input document's
    [metadata.created]; so does [updateMetadata] when the updates carry no
    [created] field, and otherwise it returns that field as [created]. *)
Theorem helpers_created doc w :
  (forall signal,
      created (metadata (fst (addSignal doc signal w)))
      = created (metadata doc))
  /\ (forall signalId updates,
         created (metadata (fst (updateSignal doc signalId updates w)))
         = created (metadata doc))
  /\ (forall signalId,
         created (metadata (fst (removeSignal doc signalId w)))
         = created (metadata doc))
  /\ (forall updates,
         created (metadata (fst (updateTimeConfig doc updates w)))
         = created (metadata doc))
  /\ (forall updates,
         created (metadata (fst (updateMetadata doc updates w)))
         = match p_created updates with
           | Some c => c
           | None => created (metadata doc)
           end).
Proof. repeat split. Qed.

(* ================================================================== *)
(** * Further properties *)

(** The codec round trip on every non-empty sequence of signal values:
    decoding the encoding gives the sequence back. *)
Theorem codec_roundtrip v s :
  decode (encode (v :: s)) = Some (map char_of (v :: s)).
Proof. unfold decode, encode. simpl map. apply codec_roundtrip_nonempty. Qed.

(** The validator never reports INVALID_STATE: a line that passes the
    signal pattern has a state field of state characters only. *)
Theorem validate_never_invalid_state text :
  Forall (fun e => code e <> "INVALID_STATE"%string) (errors (validate text)).
Proof.
  eapply Forall_impl; [|apply validate_codes].
  intros e [H|H]; rewrite H; discriminate.
Qed.

(** The validator never reports DUPLICATE_NAME. *)
Theorem validate_never_duplicate_name text :
  Forall (fun e => code e <> "DUPLICATE_NAME"%string) (errors (validate text)).
Proof.
  eapply Forall_impl; [|apply validate_codes].
  intros e [H|H]; rewrite H; discriminate.
Qed.

(** The encoder on a non-empty string keeps the length: the run durations
    add up to the number of characters. *)
Theorem parseSignalStates_length c s :
  list_sum (map duration (parseSignalStates (c :: s))) = length (c :: s).
Proof.
  pose proof (codec_roundtrip_nonempty c s) as H.
  rewrite <- (serialize_length _ H). reflexivity.
Qed.

(** The end-to-end example: a title, a unit, a marker and one signal. *)
Theorem parse_demo :
  let text := str "@title: Demo" ++ NL :: str "@unit: ns" ++ NL
              :: str "@marker: 1 " ++ quoted (str "Mid") ++ NL :: NL
              :: str "CLK: 0011 " ++ quoted (str "Clock") in
  let d := fst (parse text w0) in
  title (metadata d) = str "Demo"
  /\ unit (timeConfig d) = Some (str "ns")
  /\ markers (timeConfig d)
     = Some [{| position := 1; label := str "Mid"; marker_color := None |}]
  /\ map signal_core (signals d)
     = [(str "CLK",
         [{| value := Some (chr "0"); duration := 2 |};
          {| value := Some (chr "1"); duration := 2 |}],
         Some (str "Clock"))]
  /\ totalSteps (timeConfig d) = 4
  /\ serialize d = Some text.
Proof. vm_compute. repeat split. Qed.

(* ================================================================== *)
(** * Document helpers *)

Lemma Id_eqb_eq a b : Id_eqb a b = true <-> a = b.
Proof.
  unfold Id_eqb. rewrite andb_true_iff, !N.eqb_eq.
  destruct a, b; simpl. split; [intros [-> ->]; reflexivity|].
  intros [= -> ->]. now split.
Qed.

Lemma Id_eqb_neq a b : Id_eqb a b = false <-> a <> b.
Proof.
  rewrite <- Id_eqb_eq. destruct (Id_eqb a b); split; congruence.
Qed.

(** X5: whatever the state string, empty or not, the runs [createSignal]
    stores decode to that string; without a state string the signal has no
    runs. *)
Theorem createSignal_decodes nm w :
  (forall s, serializeSignalStates (states (fst (createSignal nm (Some s) w)))
             = Some s)
  /\ states (fst (createSignal nm None w)) = [].
Proof.
  split; [|reflexivity].
  intros [|c s]; [reflexivity|]. apply codec_roundtrip_nonempty.
Qed.

Lemma Math_max_cons_max xs : forall x y,
  Math_max x (xs ++ [y]) = Nat.max (Math_max x xs) y.
Proof. intros x y. unfold Math_max. now rewrite fold_left_app. Qed.

Lemma calculateTotalSteps_spec doc :
  match signals doc with
  | [] => calculateTotalSteps doc = 0
  | _ :: _ =>
      Forall (fun s => sum_of_durations s <= calculateTotalSteps doc)
             (signals doc)
      /\ Exists (fun s => sum_of_durations s = calculateTotalSteps doc)
                (signals doc)
  end.
Proof.
  unfold calculateTotalSteps.
  destruct (signals doc) as [|s l]; [reflexivity|]. cbn [map].
  destruct (Math_max_ge (map signal_length l) (signal_length s)) as [H1 H2].
  pose proof (Math_max_in (map signal_length l) (signal_length s)) as H3.
  set (M := Math_max (signal_length s) (map signal_length l)) in *.
  split.
  - constructor; [now rewrite <- signal_length_sum|].
    apply Forall_map in H2. eapply Forall_impl; [|exact H2].
    intros s' Hs'. now rewrite <- signal_length_sum.
  - change (signal_length s :: map signal_length l)
      with (map signal_length (s :: l)) in H3.
    apply in_map_iff in H3 as (s' & E & Hin).
    apply Exists_exists. exists s'. split; [exact Hin|].
    now rewrite <- signal_length_sum.
Qed.

(** X6: [calculateTotalSteps] returns 0 for a document without signals;
    otherwise it returns the largest sum of run durations: no signal is
    longer and one signal is that long. *)
Theorem calculateTotalSteps_max doc :
  match signals doc with
  | [] => calculateTotalSteps doc = 0
  | _ :: _ =>
      Forall (fun s => sum_of_durations s <= calculateTotalSteps doc)
             (signals doc)
      /\ Exists (fun s => sum_of_durations s = calculateTotalSteps doc)
                (signals doc)
  end.
Proof. apply calculateTotalSteps_spec. Qed.

(** X7: the document [parse] returns agrees with [calculateTotalSteps] on
    it exactly when it has a signal; without signals [parse] leaves 8 where
    [calculateTotalSteps] gives 0. *)
Theorem parse_vs_calculateTotalSteps text w :
  let d := fst (parse text w) in
  match signals d with
  | [] => totalSteps (timeConfig d) = 8 /\ calculateTotalSteps d = 0
  | _ :: _ => totalSteps (timeConfig d) = calculateTotalSteps d
  end.
Proof.
  rewrite parse_eq. cbn [fst]. unfold calculateTotalSteps.
  cbn [finish signals timeConfig totalSteps].
  destruct (signals_acc _) as [|s l]; [split; reflexivity | reflexivity].
Qed.

(** X8: [addSignal] appends the signal and leaves the time configuration as
    it was, so [timeConfig.totalSteps] is not recomputed, while
    [calculateTotalSteps] of the result is the larger of the old value and
    the new signal's length. *)
Theorem addSignal_totalSteps doc signal w :
  let d := fst (addSignal doc signal w) in
  signals d = signals doc ++ [signal]
  /\ timeConfig d = timeConfig doc
  /\ calculateTotalSteps d
     = Nat.max (calculateTotalSteps doc) (signal_length signal).
Proof.
  cbn. repeat split. unfold calculateTotalSteps. cbn [signals].
  rewrite map_app. cbn [map].
  destruct (map signal_length (signals doc)) as [|x xs]; simpl.
  - reflexivity.
  - fold (Math_max x (xs ++ [signal_length signal])).
    apply Math_max_cons_max.
Qed.

Lemma forallb_eqb_all (l : list nat) x :
  forallb (fun len => len =? x) l = true <-> Forall (fun len => len = x) l.
Proof.
  rewrite forallb_forall, Forall_forall.
  split; intros H len Hin; [apply Nat.eqb_eq | apply Nat.eqb_eq]; auto.
Qed.

(** X9: [validateSignalLengths] returns true exactly when all signals have
    the same sum of run durations, and then every signal is as long as
    [calculateTotalSteps] says. *)
Theorem validateSignalLengths_iff doc :
  (validateSignalLengths doc = true
   <-> forall s1 s2, In s1 (signals doc) -> In s2 (signals doc) ->
                     sum_of_durations s1 = sum_of_durations s2)
  /\ (validateSignalLengths doc = true ->
      Forall (fun s => sum_of_durations s = calculateTotalSteps doc)
             (signals doc)).
Proof.
  assert (Hiff : validateSignalLengths doc = true
                 <-> forall s1 s2, In s1 (signals doc) -> In s2 (signals doc) ->
                                   sum_of_durations s1 = sum_of_durations s2).
  { unfold validateSignalLengths.
    destruct (signals doc) as [|s l]; cbn [map].
    - split; [intros _ s1 s2 [] | reflexivity].
    - rewrite forallb_eqb_all. split.
      + intros H s1 s2 H1 H2. rewrite <- !signal_length_sum.
        rewrite Forall_forall in H.
        change (signal_length s :: map signal_length l)
          with (map signal_length (s :: l)) in H.
        rewrite (H (signal_length s1)), (H (signal_length s2));
          auto using in_map.
      + intros H. apply Forall_forall. intros len Hin.
        change (signal_length s :: map signal_length l)
          with (map signal_length (s :: l)) in Hin.
        apply in_map_iff in Hin as (s' & <- & Hin).
        rewrite !signal_length_sum. apply H; [exact Hin | now left]. }
  split; [exact Hiff|].
  intros Hv. pose proof (proj1 Hiff Hv) as Hall. clear Hiff Hv.
  pose proof (calculateTotalSteps_spec doc) as Hc.
  destruct (signals doc) as [|s l]; [constructor|].
  destruct Hc as [_ Hex]. apply Exists_exists in Hex as (s' & Hin & E).
  apply Forall_forall. intros s1 H1. rewrite <- E. now apply Hall.
Qed.

Lemma filter_id_all (l : list Signal) i :
  Forall (fun s => sig_id s <> i) l ->
  filter (fun s => negb (Id_eqb (sig_id s) i)) l = l.
Proof.
  induction 1 as [|s l Hs _ IH]; simpl; [reflexivity|].
  apply Id_eqb_neq in Hs. rewrite Hs. simpl. now rewrite IH.
Qed.

(** X10: adding a signal whose id no signal of the document has, and then
    removing that id, gives back the document's list of signals. *)
Theorem removeSignal_addSignal doc signal w w' :
  Forall (fun s => sig_id s <> sig_id signal) (signals doc) ->
  signals (fst (removeSignal (fst (addSignal doc signal w))
                             (sig_id signal) w'))
  = signals doc.
Proof.
  intros H. cbn. rewrite filter_app. cbn [filter].
  assert (E : Id_eqb (sig_id signal) (sig_id signal) = true)
    by now apply Id_eqb_eq.
  rewrite E. cbn. rewrite app_nil_r. now apply filter_id_all.
Qed.

(** X11: after [removeSignal] no signal has the removed id, and removing
    the same id again changes nothing. *)
Theorem removeSignal_removes doc i w w' :
  let d := fst (removeSignal doc i w) in
  Forall (fun s => sig_id s <> i) (signals d)
  /\ signals (fst (removeSignal d i w')) = signals d.
Proof.
  cbn.
  assert (H : Forall (fun s => sig_id s <> i)
                (filter (fun s => negb (Id_eqb (sig_id s) i)) (signals doc))).
  { apply Forall_forall. intros s Hs. apply filter_In in Hs as [_ Hs].
    apply negb_true_iff in Hs. now apply Id_eqb_neq. }
  split; [exact H|]. now apply filter_id_all.
Qed.

(** X12: with an id that no signal of the document has, [updateSignal] and
    [removeSignal] return the list of signals unchanged. *)
Theorem missing_id_no_change doc i updates w :
  Forall (fun s => sig_id s <> i) (signals doc) ->
  signals (fst (updateSignal doc i updates w)) = signals doc
  /\ signals (fst (removeSignal doc i w)) = signals doc.
Proof.
  intros H. cbn. split; [|now apply filter_id_all].
  induction H as [|s l Hs _ IH]; simpl; [reflexivity|].
  apply Id_eqb_neq in Hs. now rewrite Hs, IH.
Qed.

Lemma removeSignal_addSignal_witness :
  let doc := fst (parse (str "A: 01") w0) in
  let signal := fst (createSignal (str "B") (Some (str "10")) w0) in
  signals (fst (removeSignal (fst (addSignal doc signal w0))
                             (sig_id signal) w0))
  = signals doc.
Proof.
  apply removeSignal_addSignal.
  constructor; [|constructor]. vm_compute. discriminate.
Defined.

Lemma missing_id_no_change_witness :
  let doc := fst (parse (str "A: 01") w0) in
  let i := {| stamp := 5; serial := 9 |} in
  signals (fst (updateSignal doc i no_updates w0)) = signals doc
  /\ signals (fst (removeSignal doc i w0)) = signals doc.
Proof.
  apply missing_id_no_change.
  constructor; [|constructor]. vm_compute. discriminate.
Defined.

Lemma mutate_clock mu doc w :
  let r := mutate mu doc w in
  modified (metadata (fst r)) = clock w (reads w)
  /\ clock (snd r) = clock w /\ reads (snd r) = S (reads w).
Proof. destruct mu; cbn; auto. Qed.

Lemma mutate_all_modified mus : forall doc w,
  monotone_clock w ->
  (modified (metadata doc) <= clock w (reads w))%N ->
  (modified (metadata doc)
   <= modified (metadata (fst (mutate_all mus doc w))))%N.
Proof.
  induction mus as [|mu rest IH]; intros doc w Hmono Hle; cbn [mutate_all].
  - cbn. lia.
  - unfold bind.
    destruct (mutate_clock mu doc w) as (Hm & Hc & Hr).
    destruct (mutate mu doc w) as [d1 w1]. cbn [fst snd] in *.
    assert (Hmono1 : monotone_clock w1).
    { intros i j Hij. rewrite Hc. now apply Hmono. }
    assert (Hle1 : (modified (metadata d1) <= clock w1 (reads w1))%N).
    { rewrite Hm, Hc, Hr. apply Hmono. lia. }
    specialize (IH d1 w1 Hmono1 Hle1). rewrite Hm in IH. lia.
Qed.

(** X13: under a clock that never runs backwards, a document whose
    [modified] time is not ahead of the clock keeps a [modified] time that
    is at least as late through every sequence of mutation helper calls. *)
Theorem modified_never_decreases mus doc w :
  monotone_clock w ->
  (modified (metadata doc) <= clock w (reads w))%N ->
  (modified (metadata doc)
   <= modified (metadata (fst (mutate_all mus doc w))))%N.
Proof. apply mutate_all_modified. Qed.

Lemma w0_monotone : forall w, clock w = clock w0 -> monotone_clock w.
Proof.
  intros w E i j Hij. rewrite E. unfold w0. cbn [clock]. lia.
Qed.

Lemma modified_never_decreases_witness :
  let doc := fst (createDocument default_title w0) in
  let w1 := snd (createDocument default_title w0) in
  let mus := [UpdateTimeConfig
                {| p_totalSteps := Some 16; p_stepWidth := None;
                   p_unit := None; p_markers := None; p_showGrid := None |};
              RemoveSignal {| stamp := 0; serial := 0 |}] in
  (modified (metadata doc) <= clock w1 (reads w1))%N
  /\ (modified (metadata doc)
      <= modified (metadata (fst (mutate_all mus doc w1))))%N.
Proof.
  split; [vm_compute; discriminate|].
  apply modified_never_decreases.
  - apply w0_monotone. reflexivity.
  - vm_compute. discriminate.
Defined.

Lemma serializeSignalStates_undefined sts :
  Exists (fun st => value st = None) sts -> serializeSignalStates sts = None.
Proof.
  induction 1 as [st sts Hv|st sts _ IH]; simpl.
  - now rewrite Hv.
  - rewrite IH. now destruct (value st).
Qed.

Lemma serializeSignals_undefined l :
  Exists has_undefined_run l -> serializeSignals l = None.
Proof.
  induction 1 as [s l Hs|s l _ IH]; simpl.
  - unfold serializeSignal.
    now rewrite (serializeSignalStates_undefined Hs).
  - rewrite IH. now destruct (serializeSignal s).
Qed.

(** X14: [serialize] throws whenever some signal of the document has a run
    whose value is undefined, wherever that signal stands in the
    document and whatever the other signals are. *)
Theorem serialize_throws_on_undefined_run doc :
  Exists has_undefined_run (signals doc) -> serialize doc = None.
Proof.
  intros H. unfold serialize. now rewrite (serializeSignals_undefined H).
Qed.

(** X14 on the document of the text [A: 01] with a second signal whose runs
    are those of [parseSignalStates] on the empty string. *)
Lemma serialize_throws_on_undefined_run_witness :
  let s := {| sig_id := {| stamp := 5; serial := 9 |}; name := str "B";
              states := parseSignalStates []; style := None;
              sig_description := None |} in
  let doc := fst (addSignal (fst (parse (str "A: 01") w0)) s w0) in
  serialize doc = None.
Proof.
  intros s doc. apply serialize_throws_on_undefined_run.
  right. left. left. reflexivity.
Defined.

(** X15: whatever the text, the document [parse] returns has no
    description, author or tags (an [@description] line is read as a
    directive and sets nothing), and its [created] and [modified] times are
    both the first clock reading of the call. *)
Theorem parse_metadata text w :
  let m := metadata (fst (parse text w)) in
  description m = None /\ author m = None /\ tags m = None
  /\ created m = clock w (reads w) /\ modified m = clock w (reads w).
Proof. rewrite parse_eq. cbn. repeat split. Qed.

(* ================================================================== *)
(** * Ids *)

Lemma parse_lines_inv_world (I : ParseState -> World -> Prop) :
  (forall raw a w,
      I a w -> I (fst (parse_line raw a w)) (snd (parse_line raw a w))) ->
  forall lines a w,
    I a w -> I (fst (parse_lines lines a w)) (snd (parse_lines lines a w)).
Proof.
  intros Hstep lines.
  induction lines as [|raw rest IH]; intros a w Ha; simpl.
  - exact Ha.
  - unfold bind. specialize (Hstep raw a w Ha).
    destruct (parse_line raw a w) as [a' w']. now apply IH.
Qed.

Lemma parse_line_world raw a w :
  (parse_line raw a w = (fst (parse_line raw a w), w)
   /\ signals_acc (fst (parse_line raw a w)) = signals_acc a)
  \/ (exists s,
         signals_acc (fst (parse_line raw a w)) = signals_acc a ++ [s]
         /\ serial (sig_id s) = (counter w + 1)%N
         /\ counter (snd (parse_line raw a w)) = (counter w + 1)%N).
Proof.
  unfold parse_line.
  destruct (negb (nonempty (trim raw)) || startsWith (chr "#") (trim raw)).
  { left. split; reflexivity. }
  destruct (startsWith (chr "@") (trim raw)).
  { left. split; [reflexivity | apply parse_directive_signals]. }
  unfold parse_signal_line.
  destruct (regex_match 3 signalRe (trim raw)) as [m|];
    [|left; split; reflexivity].
  destruct (group 1 m) as [nm|]; [|left; split; reflexivity].
  destruct (group 2 m) as [sts|]; [|left; split; reflexivity].
  right. eexists. split; [reflexivity|].
  destruct (truthy (group 3 m)); split; reflexivity.
Qed.

Lemma NoDup_snoc (l : list N) x : NoDup l -> ~ In x l -> NoDup (l ++ [x]).
Proof.
  induction 1 as [|y l Hy Hl IH]; intros Hx; simpl.
  - constructor; [intros [] | constructor].
  - constructor.
    + rewrite in_app_iff. intros [H|[H|[]]]; [auto|].
      subst. apply Hx. now left.
    + apply IH. intros H. apply Hx. now right.
Qed.

Lemma parse_line_serials c0 raw a w :
  serials_ok c0 a w ->
  serials_ok c0 (fst (parse_line raw a w)) (snd (parse_line raw a w)).
Proof.
  intros (Hc & Hall & Hnd).
  destruct (parse_line_world raw a w) as [[E Es]|(s & Es & Eser & Ec)].
  - rewrite E at 2. cbn [snd]. unfold serials_ok. now rewrite Es.
  - unfold serials_ok. rewrite Es, Ec. split; [lia|]. split.
    + apply Forall_app. split.
      * eapply Forall_impl; [|exact Hall]. cbv beta. intros; lia.
      * constructor; [lia | constructor].
    + rewrite map_app. cbn [map]. apply NoDup_snoc; [exact Hnd|].
      intros Hin. apply in_map_iff in Hin as (s' & E' & Hin).
      rewrite Forall_forall in Hall. specialize (Hall s' Hin). lia.
Qed.

(** X16: the ids of a parsed document, the document's own and those of its
    signals, are pairwise distinct, whatever the clock does. *)
Theorem parse_ids_distinct text w :
  let d := fst (parse text w) in
  NoDup (doc_id d :: map sig_id (signals d)).
Proof.
  rewrite parse_eq. cbn [fst finish doc_id signals].
  set (w1 := snd (createDocument default_title w)).
  assert (Hc : counter w1 = (counter w + 1)%N) by reflexivity.
  assert (Hd : serial (doc_id (fst (createDocument default_title w)))
               = (counter w + 1)%N) by reflexivity.
  pose proof (@parse_lines_inv_world (serials_ok (counter w + 1)%N)
                (@parse_line_serials (counter w + 1)%N)
                (split_nl text) init_state w1) as H.
  destruct H as (_ & Hall & Hnd).
  { split; [lia|]. split; constructor. }
  constructor.
  - intros Hin. apply in_map_iff in Hin as (s & E & Hin).
    rewrite Forall_forall in Hall. specialize (Hall s Hin).
    rewrite E, Hd in Hall. lia.
  - rewrite <- map_map in Hnd. now apply NoDup_map_inv in Hnd.
Qed.

(* ================================================================== *)
(** * Single signal lines *)

(** X17: every signal of a parsed document serializes to a line that
    [parseSignal] reads back as a signal with the same name, the same runs
    and the same description. *)
Theorem parseSignal_serializeSignal text w w' :
  Forall (fun s =>
            exists t s',
              serializeSignal s = Some t
              /\ fst (parseSignal t w') = Some s'
              /\ signal_core s' = signal_core s)
         (signals (fst (parse text w))).
Proof.
  rewrite parse_eq. cbn [fst finish signals].
  destruct (parse_lines_wf text (snd (createDocument default_title w)))
    as [Hsig _].
  eapply Forall_impl; [|exact Hsig]. clear Hsig.
  intros s (c & nm & s0 & sts & En & Hc & Hnm & Hs0 & Hsts & Es & Hd & _).
  exists (signal_text (c :: nm) (s0 :: sts) (sig_description s)).
  unfold parseSignal.
  rewrite (@signalRe_complete c nm s0 sts (sig_description s)
             Hc Hnm Hs0 Hsts Hd).
  cbv [group nth]. unfold bind, ret.
  match goal with
  | |- context [createSignal ?n ?st w'] =>
      destruct (createSignal n st w') as [sig w2] eqn:Ec
  end.
  assert (Ecore : signal_core sig = (c :: nm, parseSignalStates (s0 :: sts), None)).
  { unfold createSignal, bind, ret in Ec. simpl in Ec.
    injection Ec as <- _. reflexivity. }
  eexists. split; [now apply serializeSignal_text|].
  split; [reflexivity|].
  unfold signal_core in *. injection Ecore as E1 E2 E3.
  rewrite En, Es.
  destruct (sig_description s) as [[|q t]|]; cbn.
  - now destruct Hd as [[] _].
  - now rewrite E1, E2.
  - now rewrite E1, E2, E3.
Qed.

(* ================================================================== *)
(** * Line by line *)

Lemma split_nl_concat a b :
  split_nl (a ++ NL :: b) = split_nl a ++ split_nl b.
Proof.
  induction a as [|c a IH]; simpl.
  - reflexivity.
  - destruct (c =? NL)%N.
    + now rewrite IH.
    + rewrite IH. pose proof (split_nl_nonempty a) as Hne.
      destruct (split_nl a) as [|l ls]; [congruence | reflexivity].
Qed.

Lemma line_signal_core m nm sts w :
  signal_core (line_signal m nm sts w)
  = (nm, if nonempty sts then parseSignalStates sts else [],
     if truthy (group 3 m) then group 3 m else None).
Proof.
  unfold signal_core.
  now rewrite line_signal_name, line_signal_states, line_signal_description.
Qed.

Lemma parse_line_core raw a w :
  map signal_core (signals_acc (fst (parse_line raw a w)))
  = map signal_core (signals_acc a) ++ line_core raw.
Proof.
  unfold parse_line, line_core.
  destruct (negb (nonempty (trim raw)) || startsWith (chr "#") (trim raw)).
  { cbn. now rewrite app_nil_r. }
  destruct (startsWith (chr "@") (trim raw)).
  { cbn. now rewrite parse_directive_signals, app_nil_r. }
  cbn [orb]. unfold parse_signal_line.
  destruct (regex_match 3 signalRe (trim raw)) as [m|];
    [|cbn; now rewrite app_nil_r].
  destruct (group 1 m) as [nm|]; [|cbn; now rewrite app_nil_r].
  destruct (group 2 m) as [sts|]; [|cbn; now rewrite app_nil_r].
  cbn. rewrite map_app. cbn [map]. do 2 f_equal.
  destruct (truthy (group 3 m)); reflexivity.
Qed.

Lemma parse_lines_core lines : forall a w,
  map signal_core (signals_acc (fst (parse_lines lines a w)))
  = map signal_core (signals_acc a) ++ flat_map line_core lines.
Proof.
  induction lines as [|raw rest IH]; intros a w; cbn [parse_lines flat_map].
  - cbn. now rewrite app_nil_r.
  - unfold bind. pose proof (parse_line_core raw a w) as H.
    destruct (parse_line raw a w) as [a' w']. cbn [fst] in H.
    now rewrite IH, H, app_assoc.
Qed.

Lemma parse_signals_by_line text w :
  map signal_core (signals (fst (parse text w)))
  = flat_map line_core (split_nl text).
Proof.
  rewrite parse_eq. cbn [fst finish signals]. now rewrite parse_lines_core.
Qed.

(** X18: parsing two texts joined by a line break gives the signals of the
    first followed by the signals of the second, with the same names, runs
    and descriptions: the signals of a line do not depend on the lines
    around it. *)
Theorem parse_concat a b w wa wb :
  map signal_core (signals (fst (parse (a ++ NL :: b) w)))
  = map signal_core (signals (fst (parse a wa)))
    ++ map signal_core (signals (fst (parse b wb))).
Proof.
  rewrite !parse_signals_by_line, split_nl_concat. apply flat_map_app.
Qed.

(* ------------------------------------------------------------------ *)
(** ** The validator's errors *)

Lemma validate_line_errors raw k errs warns :
  fst (validate_line raw k (errs, warns))
  = errs ++ match line_error raw with
            | Some (msg, c) => [mk_error k msg c]
            | None => []
            end.
Proof.
  unfold validate_line, line_error.
  destruct (negb (nonempty (trim raw)) || startsWith (chr "#") (trim raw)).
  { cbn. now rewrite app_nil_r. }
  destruct (startsWith (chr "@") (trim raw)).
  { destruct (regex_match 2 directiveRe (trim raw)); cbn;
      [now rewrite app_nil_r | reflexivity]. }
  destruct (regex_match 3 signalRe (trim raw)) as [m|] eqn:Em;
    [|reflexivity].
  apply signalRe_inv in Em as (c & nm & s0 & sts & dsc & _ & _ & H0 & Hs
                               & -> & _).
  cbv [group nth]. rewrite (@statesRe_test s0 sts H0 Hs). cbn.
  now rewrite app_nil_r.
Qed.

Lemma validate_lines_errors lines : forall i errs warns,
  fst (validate_lines lines i (errs, warns))
  = errs ++ numbered_errors (i + 1) lines.
Proof.
  unfold numbered_errors.
  induction lines as [|raw rest IH]; intros i errs warns;
    cbn [validate_lines length seq combine flat_map].
  - now rewrite app_nil_r.
  - pose proof (validate_line_errors raw (i + 1) errs warns) as H.
    destruct (validate_line raw (i + 1) (errs, warns)) as [errs' warns'].
    cbn [fst snd] in *. rewrite IH, H, <- app_assoc.
    replace (S i + 1) with (S (i + 1)) by lia. reflexivity.
Qed.

Lemma validate_errors text :
  errors (validate text) = numbered_errors 1 (split_nl text).
Proof.
  unfold validate.
  pose proof (validate_lines_errors (split_nl text) 0 [] []) as H.
  destruct (validate_lines (split_nl text) 0 ([], [])) as [errs warns].
  exact H.
Qed.

Lemma numbered_errors_nil lines : forall i,
  numbered_errors i lines = []
  <-> forallb (fun raw => match line_error raw with
                          | None => true
                          | Some _ => false
                          end) lines = true.
Proof.
  unfold numbered_errors.
  induction lines as [|raw rest IH]; intros i;
    cbn [length seq combine flat_map forallb fst snd].
  - split; reflexivity.
  - destruct (line_error raw) as [[msg c]|]; cbn.
    + split; discriminate.
    + apply IH.
Qed.

(** X19: [validate] returns exactly one error for each line whose shape is
    wrong (a directive that fails the directive pattern, any other
    non-blank, non-comment line that fails the signal pattern), in the
    order of the lines and with the line's number counted from 1; the text
    is valid exactly when no line has a wrong shape. *)
Theorem validate_errors_by_line text :
  errors (validate text) = numbered_errors 1 (split_nl text)
  /\ (valid (validate text) = true
      <-> forall raw, In raw (split_nl text) -> line_error raw = None).
Proof.
  split; [apply validate_errors|].
  assert (Hv : valid (validate text) = true <-> errors (validate text) = []).
  { unfold validate.
    destruct (validate_lines (split_nl text) 0 ([], [])) as [errs warns].
    cbn. destruct errs; split; congruence. }
  rewrite Hv, validate_errors, numbered_errors_nil, forallb_forall.
  split; intros H raw Hin; specialize (H raw Hin);
    destruct (line_error raw); congruence.
Qed.

(* ------------------------------------------------------------------ *)
(** ** Parser and validator on the same text *)

Lemma line_core_or_error raw k :
  length (line_core raw)
  + length (filter is_invalid_signal
              match line_error raw with
              | Some (msg, c) => [mk_error k msg c]
              | None => []
              end)
  = if signal_candidate raw then 1 else 0.
Proof.
  unfold line_core, line_error, signal_candidate.
  destruct (nonempty (trim raw)); [|reflexivity].
  destruct (startsWith (chr "#") (trim raw)); [reflexivity|].
  destruct (startsWith (chr "@") (trim raw)).
  { destruct (regex_match 2 directiveRe (trim raw)); reflexivity. }
  cbn [negb orb andb].
  destruct (regex_match 3 signalRe (trim raw)) as [m|] eqn:Em;
    [|reflexivity].
  apply signalRe_inv in Em as (c & nm & s0 & sts & dsc & _ & _ & _ & _
                               & -> & _).
  reflexivity.
Qed.

Lemma cores_or_errors lines : forall i,
  length (flat_map line_core lines)
  + length (filter is_invalid_signal (numbered_errors i lines))
  = length (filter signal_candidate lines).
Proof.
  unfold numbered_errors.
  induction lines as [|raw rest IH]; intros i;
    cbn [length seq combine flat_map filter fst snd]; [reflexivity|].
  rewrite filter_app, !length_app.
  pose proof (line_core_or_error raw i) as H.
  specialize (IH (S i)).
  destruct (signal_candidate raw); cbn [length]; lia.
Qed.

(** X20: the parser and the validator split the candidate signal lines of
    a text (the lines that are not blank, not comments and not directives)
    between them: each such line either gives one signal of [parse] or one
    INVALID_SIGNAL error of [validate]. *)
Theorem signals_plus_invalid_signal text w :
  length (signals (fst (parse text w)))
  + length (filter is_invalid_signal (errors (validate text)))
  = length (filter signal_candidate (split_nl text)).
Proof.
  rewrite <- (length_map signal_core), parse_signals_by_line, validate_errors.
  apply cores_or_errors.
Qed.

(* ================================================================== *)
(** * The directive pattern *)

Section StarMax.
Variable R : Type.
Implicit Type k : jsstring -> option R.

Lemma star_none p s k : star p s k = None -> k s = None.
Proof.
  destruct s as [|c s]; simpl; [auto|].
  destruct (p c); [|auto]. destruct (star p s k); [discriminate | auto].
Qed.

(** The star's choice is the longest run after which the rest of the
    pattern succeeds. *)
Lemma star_inv_max p s k res :
  star p s k = Some res ->
  exists a b,
    s = a ++ b /\ forallb p a = true /\ k b = Some res
    /\ (forall c b', b = c :: b' -> p c = true -> k b' = None).
Proof.
  induction s as [|c s IH]; simpl; intros H.
  - exists [], []. repeat split; auto. discriminate.
  - destruct (p c) eqn:Hc.
    + destruct (star p s k) as [r|] eqn:E.
      * injection H as ->.
        destruct (IH eq_refl) as (a & b & -> & Ha & Hk & Hmax).
        exists (c :: a), b. simpl. rewrite Hc, Ha. auto.
      * exists [], (c :: s). repeat split; auto.
        intros c' b' [= <- <-] _. eapply star_none. exact E.
    + exists [], (c :: s). repeat split; auto.
      intros c' b' [= <- <-]. congruence.
Qed.
End StarMax.

Lemma dropWhile_head p s c t : dropWhile p s = c :: t -> p c = false.
Proof.
  induction s as [|d s IH]; simpl; [discriminate|].
  destruct (p d) eqn:Hd; [exact IH|]. now intros [= <- _].
Qed.

(** A trimmed string does not end in white space. *)
Lemma trim_last raw s d : trim raw = s ++ [d] -> is_space d = false.
Proof.
  unfold trim. intros H. apply (f_equal (@rev char)) in H.
  rewrite rev_involutive, rev_app_distr in H. cbn [rev app] in H.
  eapply dropWhile_head. exact H.
Qed.

Lemma firstn_whole (x : jsstring) :
  firstn (length x - length (@nil char)) x = x.
Proof. cbn [length]. rewrite Nat.sub_0_r. apply firstn_all. Qed.

(** What a match of the directive pattern looks like: the value starts
    where the white space after the colon ends, unless the value is a
    single white-space character. *)
Lemma directiveRe_inv ln m :
  regex_match 2 directiveRe ln = Some m ->
  exists n0 d ws c v,
    ln = chr "@" :: (n0 :: d) ++ chr ":" :: ws ++ c :: v
    /\ forallb is_word (n0 :: d) = true
    /\ forallb is_space ws = true
    /\ forallb is_dot (c :: v) = true
    /\ m = [Some ln; Some (n0 :: d); Some (c :: v)]
    /\ (is_space c = true -> v = []).
Proof.
  unfold regex_match, directiveRe. cbn [run]. intros H.
  destruct ln as [|c0 s0]; [discriminate|].
  destruct (is_chr "@" c0) eqn:H0; [|discriminate].
  destruct s0 as [|n0 s1]; [discriminate|].
  destruct (is_word n0) eqn:Hn0; [|discriminate].
  apply star_inv in H as (d & b & -> & Hd & H).
  destruct b as [|c1 s2]; [discriminate|].
  destruct (is_chr ":" c1) eqn:H1; [|discriminate].
  apply star_inv_max in H as (ws & r & -> & Hws & H & Hmax).
  destruct r as [|c v]; [discriminate|].
  destruct (is_dot c) eqn:Hc; [|discriminate].
  apply star_inv in H as (v1 & b3 & -> & Hv & H).
  destruct b3 as [|? ?]; [|discriminate].
  rewrite app_nil_r in *.
  apply N.eqb_eq in H0, H1. subst c0 c1.
  exists n0, d, ws, c, v1.
  pose proof (firstn_prefix (n0 :: d) (chr ":" :: ws ++ c :: v1)) as E1.
  cbn [app] in E1.
  rewrite !firstn_whole, E1 in H.
  injection H as <-.
  repeat split; try assumption.
  - cbn [forallb]. now rewrite Hn0.
  - cbn [forallb]. now rewrite Hc.
  - intros Hsp. specialize (Hmax c v1 eq_refl Hsp).
    destruct v1 as [|c3 s']; [reflexivity|]. exfalso.
    cbn [forallb] in Hv. apply andb_true_iff in Hv as [Hc3 Hs'].
    rewrite Hc3 in Hmax.
    rewrite <- (app_nil_r s') in Hmax at 1.
    erewrite star_greedy in Hmax; [discriminate | exact Hs' | reflexivity|].
    reflexivity.
Qed.

Lemma directiveRe_complete n0 d c v :
  forallb is_word (n0 :: d) = true -> is_space c = false ->
  forallb is_dot (c :: v) = true ->
  regex_match 2 directiveRe (directive_text (n0 :: d) (c :: v))
  = Some [Some (directive_text (n0 :: d) (c :: v));
          Some (n0 :: d); Some (c :: v)].
Proof.
  intros Hn Hsp Hv. cbn [forallb] in Hn, Hv.
  apply andb_true_iff in Hn as [Hn0 Hd].
  apply andb_true_iff in Hv as [Hc Hv].
  set (X := [chr "@"] ++ (n0 :: d) ++ [chr ":"] ++ [chr " "] ++ (c :: v) ++ []).
  match goal with
  | |- regex_match _ _ ?T = _ => assert (EX : T = X)
  end.
  { unfold directive_text, X. simpl. now rewrite !app_nil_r. }
  rewrite EX.
  eassert (G : greedy directiveRe X [] (repeat None 3) _).
  { unfold directiveRe, X.
    eapply g_cat; [now apply g_cls|].
    eapply g_cat; [now apply g_grp, g_plus|].
    eapply g_cat; [now apply g_cls|].
    eapply g_cat.
    { apply g_star; [reflexivity | simpl; now rewrite Hsp]. }
    eapply g_cat; [now apply g_grp, g_plus | apply g_eos]. }
  rewrite (regex_match_greedy G). reflexivity.
Qed.

Lemma last_cons_snoc (c : char) t d : last (c :: t ++ [d]) c = d.
Proof.
  change (c :: t ++ [d]) with ((c :: t) ++ [d]). apply last_last.
Qed.

(** The value a trimmed directive line gives has no white space at its
    ends. *)
Lemma directive_value_ok raw m :
  regex_match 2 directiveRe (trim raw) = Some m ->
  exists n0 d v,
    m = [Some (trim raw); Some (n0 :: d); Some v]
    /\ forallb is_word (n0 :: d) = true /\ value_ok v.
Proof.
  intros H.
  apply directiveRe_inv in H
    as (n0 & d & ws & c & v & Eln & Hn & Hws & Hv & -> & Hone).
  exists n0, d, (c :: v). repeat split; try assumption.
  destruct (exists_last (l := c :: v)) as (t & dl & E); [discriminate|].
  assert (Hdl : is_space dl = false).
  { apply (@trim_last raw (chr "@" :: (n0 :: d) ++ chr ":" :: ws ++ t)).
    rewrite Eln, E. simpl. repeat (rewrite <- app_assoc; simpl). reflexivity. }
  exists c, v. repeat split; try assumption.
  - destruct (is_space c) eqn:Hsp; [|reflexivity].
    rewrite (Hone eq_refl) in E.
    destruct t as [|x t]; [|destruct t; discriminate].
    cbn in E. injection E as ->. congruence.
  - rewrite E. destruct t as [|x t]; cbn [app].
    + exact Hdl.
    + injection E as -> _. now rewrite last_cons_snoc.
Qed.

Lemma value_ok_nonempty v : value_ok v -> nonempty v = true.
Proof. now intros (c & v' & -> & _). Qed.

Lemma is_dot_not_nl c : is_dot c = true -> c <> NL.
Proof. intros H ->. discriminate. Qed.

Lemma value_ok_default : value_ok default_title.
Proof. eexists _, _. repeat split. Qed.

Lemma directive_text_trim nm v :
  value_ok v -> trim (directive_text nm v) = directive_text nm v.
Proof.
  intros (c & v' & -> & _ & _ & Hl).
  destruct (exists_last (l := c :: v')) as (t & dl & E); [discriminate|].
  assert (Hdl : is_space dl = false).
  { rewrite E in Hl. destruct t as [|x t]; cbn [app] in *.
    - exact Hl.
    - injection E as -> _. now rewrite last_cons_snoc in Hl. }
  unfold directive_text. rewrite E.
  replace (chr "@" :: nm ++ str ": " ++ t ++ [dl])
    with (chr "@" :: (nm ++ str ": " ++ t) ++ [dl])
    by now rewrite <- !app_assoc.
  now apply trim_id.
Qed.

(** What the parser's loop body does on a directive line of the
    serializer. *)
Lemma parse_line_directive_text n0 d v a w :
  forallb is_word (n0 :: d) = true -> value_ok v ->
  parse_line (directive_text (n0 :: d) v) a w
  = (parse_directive (directive_text (n0 :: d) v) a, w)
  /\ regex_match 2 directiveRe (directive_text (n0 :: d) v)
     = Some [Some (directive_text (n0 :: d) v); Some (n0 :: d); Some v].
Proof.
  intros Hn Hv. unfold parse_line. rewrite (directive_text_trim _ Hv).
  destruct Hv as (c & v' & -> & Hsp & Hdot & _).
  split; [reflexivity|]. now apply directiveRe_complete.
Qed.

Lemma parse_directive_meta_ok raw a :
  meta_ok a -> meta_ok (parse_directive (trim raw) a).
Proof.
  intros Ha. pose proof Ha as (Ht & Hu & Hm). unfold parse_directive.
  destruct (regex_match 2 directiveRe (trim raw)) as [m|] eqn:Em;
    [|exact Ha].
  apply directive_value_ok in Em as (n0 & d & v & -> & Hn & Hv).
  change (group 1 [Some (trim raw); Some (n0 :: d); Some v])
    with (Some (n0 :: d)).
  change (group 2 [Some (trim raw); Some (n0 :: d); Some v]) with (Some v).
  cbv beta iota.
  destruct_eqb.
  { split; [exact Hv | split; [exact Hu | exact Hm]]. }
  destruct_eqb.
  { split; [exact Ht | split; [|exact Hm]]. simpl. now intros u [= <-]. }
  destruct_eqb; [|exact Ha].
  destruct (regex_match 2 markerRe v) as [mm|] eqn:Emm; [|exact Ha].
  destruct (group 1 mm); [|exact Ha].
  destruct (group 2 mm) as [lbl|] eqn:E2; [|exact Ha].
  split; [exact Ht | split; [exact Hu|]]. simpl.
  apply Forall_app. split; [assumption|]. constructor; [|constructor].
  simpl. apply forallb_forall. intros x Hx.
  destruct Hv as (c & v' & _ & _ & Hdot & _).
  assert (HP : Forall (fun y => is_dot y = true) lbl).
  { eapply regex_match_group; [exact Emm | | exact E2].
    apply Forall_forall. rewrite forallb_forall in Hdot. exact Hdot. }
  rewrite Forall_forall in HP. now apply HP.
Qed.

Lemma parse_line_meta_ok raw a w :
  meta_ok a -> meta_ok (fst (parse_line raw a w)).
Proof.
  intros Ha. unfold parse_line.
  destruct (negb (nonempty (trim raw)) || startsWith (chr "#") (trim raw));
    [exact Ha|].
  destruct (startsWith (chr "@") (trim raw)).
  - now apply parse_directive_meta_ok.
  - destruct (parse_signal_line_meta (trim raw) a w) as (E1 & E2 & E3).
    destruct Ha as (Ht & Hu & Hm). unfold meta_ok. now rewrite E1, E2, E3.
Qed.

Lemma parse_lines_meta_ok lines a w :
  meta_ok a -> meta_ok (fst (parse_lines lines a w)).
Proof.
  intros Ha.
  apply (@parse_lines_inv meta_ok (fun _ => True)); auto.
  - intros raw a' w' _. apply parse_line_meta_ok.
  - apply Forall_forall. intros; exact I.
Qed.

Lemma init_state_meta_ok : meta_ok init_state.
Proof.
  split; [apply value_ok_default|]. split; [discriminate | constructor].
Qed.

(* ================================================================== *)
(** * The serialized text, line by line *)

Lemma uint_chars_digits u :
  Forall (fun c => is_dot c = true /\ is_space c = false) (uint_chars u).
Proof. induction u; simpl; constructor; auto. Qed.

Lemma show_N_nonempty n : show_N n <> [].
Proof.
  unfold show_N. destruct n as [|p]; [discriminate|].
  simpl. pose proof (DecimalPos.Unsigned.to_uint_nonnil p) as H.
  destruct (Pos.to_uint p); [congruence | discriminate..].
Qed.

Lemma value_ok_ends c t d :
  is_space c = false -> forallb is_dot (c :: t ++ [d]) = true ->
  is_space d = false -> value_ok (c :: t ++ [d]).
Proof.
  intros Hc Hdot Hd. exists c, (t ++ [d]).
  repeat split; try assumption. now rewrite last_cons_snoc.
Qed.

Lemma marker_value_ok mk :
  forallb is_dot (label mk) = true ->
  value_ok (show_N (position mk) ++ str " " ++ quoted (label mk)).
Proof.
  intros Hl. pose proof (uint_chars_digits (N.to_uint (position mk))) as Hd.
  fold (show_N (position mk)) in Hd.
  destruct (show_N (position mk)) as [|c r] eqn:E;
    [now apply show_N_nonempty in E|].
  inversion Hd as [|? ? [Hc1 Hc2] Hr]; subst.
  replace ((c :: r) ++ str " " ++ quoted (label mk))
    with (c :: (r ++ str " " ++ QUOTE :: label mk) ++ [QUOTE]).
  2:{ unfold quoted. simpl. f_equal.
      repeat (rewrite <- app_assoc; simpl). reflexivity. }
  apply value_ok_ends; [exact Hc2 | | reflexivity].
  cbn [forallb]. rewrite Hc1. cbn [andb].
  rewrite !forallb_app. cbn [forallb].
  rewrite Hl. cbn.
  rewrite ?andb_true_r. apply forallb_forall. intros x Hx.
  rewrite Forall_forall in Hr. now apply Hr.
Qed.

Lemma marker_line_header mk :
  forallb is_dot (label mk) = true -> serialized_header (marker_line mk).
Proof.
  intros Hl. right.
  exists (chr "m"), (str "arker"),
         (show_N (position mk) ++ str " " ++ quoted (label mk)).
  repeat split; [now apply marker_value_ok].
Qed.

(** The lines the serializer writes before the signals of a parsed
    document. *)
Lemma header_lines_serialized doc a :
  description (metadata doc) = None ->
  unit (timeConfig doc) = None ->
  markers (timeConfig doc) = None ->
  meta_ok a ->
  Forall serialized_header (header_lines (finish doc a)).
Proof.
  intros Ed Eu Em (Ht & Hu & Hm).
  unfold header_lines, finish.
  cbn [metadata timeConfig title description unit markers].
  rewrite Ed, Eu, Em.
  match goal with
  | |- Forall ?Q (match ?ls with [] => [] | _ :: _ => _ end) =>
      assert (H : Forall Q ls); [|destruct ls; [constructor|];
        apply Forall_app; split; [exact H|];
        constructor; [now left | constructor]]
  end.
  repeat (apply Forall_app; split).
  - destruct (nonempty (currentTitle a)
              && negb (jsstring_eqb (currentTitle a) default_title));
      [|constructor].
    constructor; [|constructor]. right.
    exists (chr "t"), (str "itle"), (currentTitle a). now repeat split.
  - constructor.
  - destruct (currentUnit a) as [[|c u]|] eqn:E; cbn [truthy nonempty];
      try constructor; [|constructor].
    right. exists (chr "u"), (str "nit"), (c :: u).
    repeat split. now apply Hu.
  - destruct (markers_acc a) as [|mk ms]; [constructor|].
    apply Forall_map. eapply Forall_impl; [|exact Hm].
    intros mk0 H0. now apply marker_line_header.
Qed.

Lemma serializeSignals_lines sigs : forall lns,
  Forall wf_signal sigs -> serializeSignals sigs = Some lns ->
  Forall serialized_signal lns.
Proof.
  induction sigs as [|s sigs IH]; intros lns Hwf H; simpl in H.
  - injection H as <-. constructor.
  - inversion Hwf as [|? ? Hs Hrest]; subst.
    destruct Hs as (c & nm & s0 & sts & En & Hc & Hnm & Hs0 & Hsts & Es
                    & Hd & _).
    rewrite (@serializeSignal_text s c nm s0 sts En Es) in H.
    destruct (serializeSignals sigs) as [l|]; [|discriminate].
    injection H as <-. constructor; [|now apply IH].
    now exists c, nm, s0, sts, (sig_description s).
Qed.

Lemma serialized_signal_tests l :
  serialized_signal l ->
  trim l = l
  /\ negb (nonempty l) || startsWith (chr "#") l = false
  /\ startsWith (chr "@") l = false
  /\ exists m, regex_match 3 signalRe l = Some m.
Proof.
  intros (c & nm & s0 & sts & dsc & -> & Hc & Hnm & Hs0 & Hsts & Hd).
  destruct (@is_name_start_tests c Hc) as (Hsp & Hhash & Hat).
  destruct (@signal_text_ends c nm s0 sts dsc Hs0 Hsts) as (body & d & E & Hdsp).
  repeat split.
  - rewrite E. now apply trim_id.
  - rewrite E. exact Hhash.
  - rewrite E. exact Hat.
  - eexists. now apply signalRe_complete.
Qed.

Lemma serialized_signal_no_error l : serialized_signal l -> line_error l = None.
Proof.
  intros H. destruct (serialized_signal_tests H) as (Et & Eh & Ea & m & Em).
  unfold line_error. now rewrite Et, Eh, Ea, Em.
Qed.

Lemma serialized_header_no_error l : serialized_header l -> line_error l = None.
Proof.
  intros [->|(n0 & d & v & -> & Hn & Hv)]; [reflexivity|].
  unfold line_error. rewrite (directive_text_trim _ Hv).
  destruct (@parse_line_directive_text n0 d v init_state w0 Hn Hv) as [_ Em].
  cbn [directive_text nonempty negb orb startsWith].
  change (chr "@" =? chr "#")%N with false. rewrite N.eqb_refl.
  fold (directive_text (n0 :: d) v). now rewrite Em.
Qed.

(** X21: the text [serialize] writes for a parsed document is valid:
    [validate] reports no error on it. *)
Theorem serialize_parse_valid text w :
  exists t,
    serialize (fst (parse text w)) = Some t
    /\ errors (validate t) = [] /\ valid (validate t) = true.
Proof.
  rewrite parse_eq. cbn [fst].
  set (doc := fst (createDocument default_title w)).
  set (w1 := snd (createDocument default_title w)).
  destruct (parse_lines_wf text w1) as [Hsig Hmeta].
  pose proof (@parse_lines_meta_ok (split_nl text) init_state w1
                init_state_meta_ok) as Hok.
  set (a := fst (parse_lines (split_nl text) init_state w1)) in *.
  destruct (reparse_signals Hsig) as (lns & El & Hnl & _ & _).
  pose proof (@header_lines_finish doc a eq_refl eq_refl eq_refl Hmeta) as Hh.
  pose proof (@header_lines_serialized doc a eq_refl eq_refl eq_refl Hok)
    as Hhs.
  pose proof (serializeSignals_lines Hsig El) as Hls.
  exists (join_nl (header_lines (finish doc a) ++ lns)).
  split; [unfold serialize; cbn [signals finish]; now rewrite El|].
  assert (He : errors (validate (join_nl (header_lines (finish doc a) ++ lns)))
               = []).
  { rewrite validate_errors. apply numbered_errors_nil.
    apply forallb_forall. intros raw Hin.
    assert (Hraw : serialized_header raw \/ serialized_signal raw).
    { destruct (header_lines (finish doc a) ++ lns) as [|l0 ls0] eqn:E.
      - cbn in Hin. destruct Hin as [<-|[]]. left. now left.
      - rewrite split_join in Hin; [|discriminate|].
        + rewrite <- E in Hin. apply in_app_or in Hin as [Hin|Hin].
          * left. rewrite Forall_forall in Hhs. now apply Hhs.
          * right. rewrite Forall_forall in Hls. now apply Hls.
        + rewrite <- E. apply Forall_app. split; [|exact Hnl].
          eapply Forall_impl; [|exact Hh]. now intros l [_ H]. }
    destruct Hraw as [H|H];
      [rewrite (serialized_header_no_error H)
      |rewrite (serialized_signal_no_error H)]; reflexivity. }
  split; [exact He|].
  unfold validate in *.
  destruct (validate_lines _ 0 ([], [])) as [errs warns].
  cbn in *. now rewrite He.
Qed.

(* ================================================================== *)
(** * Title and unit through the text *)

Lemma keeps_blank : keeps_title_unit [].
Proof. intros a w. split; reflexivity. Qed.

Lemma keeps_signal l : serialized_signal l -> keeps_title_unit l.
Proof.
  intros H a w. destruct (serialized_signal_tests H) as (Et & Eh & Ea & _).
  unfold parse_line. rewrite Et, Eh, Ea.
  destruct (parse_signal_line_meta l a w) as (E1 & E2 & _). now split.
Qed.

Lemma keeps_marker mk :
  forallb is_dot (label mk) = true -> keeps_title_unit (marker_line mk).
Proof.
  intros Hl a w.
  destruct (@parse_line_directive_text (chr "m") (str "arker")
              (show_N (position mk) ++ str " " ++ quoted (label mk)) a w
              eq_refl (marker_value_ok mk Hl)) as [E Em].
  change (directive_text (chr "m" :: str "arker")
            (show_N (position mk) ++ str " " ++ quoted (label mk)))
    with (marker_line mk) in E, Em.
  rewrite E. cbn [fst]. unfold parse_directive. rewrite Em.
  change (group 1 [Some (marker_line mk); Some (chr "m" :: str "arker");
                   Some (show_N (position mk) ++ str " "
                         ++ quoted (label mk))])
    with (Some (str "marker")).
  cbv beta iota.
  change (jsstring_eqb (str "marker") (str "title")) with false.
  change (jsstring_eqb (str "marker") (str "unit")) with false.
  cbv beta iota.
  destruct (group 2 _); [|now split].
  destruct (jsstring_eqb (str "marker") (str "marker")); [|now split].
  destruct (regex_match 2 markerRe _) as [mm|]; [|now split].
  destruct (group 1 mm); [|now split].
  destruct (group 2 mm); now split.
Qed.

Lemma title_line T a w :
  value_ok T ->
  currentTitle (fst (parse_line (directive_text (str "title") T) a w)) = T
  /\ currentUnit (fst (parse_line (directive_text (str "title") T) a w))
     = currentUnit a.
Proof.
  intros HT.
  destruct (@parse_line_directive_text (chr "t") (str "itle") T a w
              eq_refl HT) as [E Em].
  change (chr "t" :: str "itle") with (str "title") in E, Em.
  rewrite E. cbn [fst]. unfold parse_directive. rewrite Em.
  split; reflexivity.
Qed.

Lemma unit_line u a w :
  value_ok u ->
  currentTitle (fst (parse_line (directive_text (str "unit") u) a w))
  = currentTitle a
  /\ currentUnit (fst (parse_line (directive_text (str "unit") u) a w))
     = Some u.
Proof.
  intros Hu.
  destruct (@parse_line_directive_text (chr "u") (str "nit") u a w
              eq_refl Hu) as [E Em].
  change (chr "u" :: str "nit") with (str "unit") in E, Em.
  rewrite E. cbn [fst]. unfold parse_directive. rewrite Em.
  split; reflexivity.
Qed.

Lemma parse_lines_keep lines : forall a w,
  Forall keeps_title_unit lines ->
  currentTitle (fst (parse_lines lines a w)) = currentTitle a
  /\ currentUnit (fst (parse_lines lines a w)) = currentUnit a.
Proof.
  induction lines as [|l rest IH]; intros a w H; cbn [parse_lines].
  - split; reflexivity.
  - inversion H as [|? ? Hl Hrest]; subst. unfold bind.
    destruct (Hl a w) as [E1 E2].
    destruct (parse_line l a w) as [a' w']. cbn [fst] in *.
    destruct (IH a' w' Hrest) as [E3 E4]. split; congruence.
Qed.

Lemma parse_lines_snoc_blank lines a w :
  fst (parse_lines (lines ++ [[]]) a w) = fst (parse_lines lines a w).
Proof. rewrite parse_lines_app. reflexivity. Qed.

Lemma value_ok_nil : ~ value_ok [].
Proof. intros (c & v & E & _). discriminate. Qed.

(** Parsing the header of a serialized parsed document sets the title and
    the unit the document had. *)
Lemma header_reparse doc a a0 w :
  description (metadata doc) = None ->
  unit (timeConfig doc) = None ->
  markers (timeConfig doc) = None ->
  meta_ok a ->
  currentTitle a0 = default_title -> currentUnit a0 = None ->
  currentTitle (fst (parse_lines (header_lines (finish doc a)) a0 w))
  = currentTitle a
  /\ currentUnit (fst (parse_lines (header_lines (finish doc a)) a0 w))
     = currentUnit a.
Proof.
  intros Ed Eu Em (Ht & Hu & Hm) E0t E0u.
  unfold header_lines, finish.
  cbn [metadata timeConfig title description unit markers].
  rewrite Ed, Eu, Em.
  match goal with
  | |- context [parse_lines (match ?ls with [] => [] | _ :: _ => _ end)] =>
      assert (H : currentTitle (fst (parse_lines ls a0 w)) = currentTitle a
                  /\ currentUnit (fst (parse_lines ls a0 w)) = currentUnit a);
      [|destruct ls; [exact H | now rewrite parse_lines_snoc_blank]]
  end.
  cbn [app]. rewrite !parse_lines_app.
  (* the title line *)
  set (r1 := parse_lines _ a0 w).
  assert (H1 : currentTitle (fst r1) = currentTitle a
               /\ currentUnit (fst r1) = None).
  { subst r1.
    destruct (nonempty (currentTitle a)
              && negb (jsstring_eqb (currentTitle a) default_title)) eqn:Ec.
    - cbn [parse_lines]. unfold bind.
      change (str "@title: " ++ currentTitle a)
        with (directive_text (str "title") (currentTitle a)).
      destruct (title_line a0 w Ht) as [E1 E2].
      destruct (parse_line _ a0 w) as [a' w']. unfold ret. cbn [fst] in *.
      split; [exact E1 | congruence].
    - cbn [parse_lines]. unfold ret. cbn [fst].
      rewrite (value_ok_nonempty Ht) in Ec. cbn [andb] in Ec.
      apply negb_false_iff, jsstring_eqb_eq in Ec.
      split; congruence. }
  destruct H1 as [H1t H1u].
  (* the unit line *)
  set (r3 := parse_lines _ (fst r1) (snd r1)).
  assert (H3 : currentTitle (fst r3) = currentTitle a
               /\ currentUnit (fst r3) = currentUnit a).
  { subst r3.
    destruct (currentUnit a) as [[|c u]|] eqn:Eua; cbn [truthy nonempty].
    - exfalso. apply value_ok_nil. now apply Hu.
    - cbn [parse_lines]. unfold bind.
      change (str "@unit: " ++ c :: u)
        with (directive_text (str "unit") (c :: u)).
      destruct (@unit_line (c :: u) (fst r1) (snd r1) (Hu _ eq_refl))
        as [E1 E2].
      destruct (parse_line _ (fst r1) (snd r1)) as [a' w'].
      unfold ret. cbn [fst] in *. split; congruence.
    - cbn [parse_lines]. unfold ret. cbn [fst]. split; congruence. }
  destruct H3 as [H3t H3u].
  (* the marker lines *)
  match goal with
  | |- context [parse_lines ?l4 (fst r3) (snd r3)] =>
      destruct (@parse_lines_keep l4 (fst r3) (snd r3)) as [E1 E2]
  end.
  { destruct (markers_acc a) as [|mk ms]; [constructor|].
    apply Forall_map. eapply Forall_impl; [|exact Hm].
    intros mk0 H0. now apply keeps_marker. }
  split; congruence.
Qed.

(** X22: the title and the unit survive the text round trip: serializing a
    parsed document and parsing the result gives a document with the same
    title and the same unit. *)
Theorem title_unit_roundtrip text w w' :
  exists t,
    serialize (fst (parse text w)) = Some t
    /\ title (metadata (fst (parse t w')))
       = title (metadata (fst (parse text w)))
    /\ unit (timeConfig (fst (parse t w')))
       = unit (timeConfig (fst (parse text w))).
Proof.
  rewrite parse_eq. cbn [fst].
  set (doc := fst (createDocument default_title w)).
  set (w1 := snd (createDocument default_title w)).
  destruct (parse_lines_wf text w1) as [Hsig Hmeta].
  pose proof (@parse_lines_meta_ok (split_nl text) init_state w1
                init_state_meta_ok) as Hok.
  set (a := fst (parse_lines (split_nl text) init_state w1)) in *.
  destruct (reparse_signals Hsig) as (lns & El & Hnl & _ & _).
  pose proof (@header_lines_finish doc a eq_refl eq_refl eq_refl Hmeta) as Hh.
  pose proof (serializeSignals_lines Hsig El) as Hls.
  exists (join_nl (header_lines (finish doc a) ++ lns)).
  split; [unfold serialize; cbn [signals finish]; now rewrite El|].
  rewrite parse_eq. cbn [fst finish metadata timeConfig title unit].
  set (w2 := snd (createDocument default_title w')).
  assert (H : currentTitle
                (fst (parse_lines
                        (split_nl (join_nl (header_lines (finish doc a) ++ lns)))
                        init_state w2)) = currentTitle a
              /\ currentUnit
                   (fst (parse_lines
                           (split_nl
                              (join_nl (header_lines (finish doc a) ++ lns)))
                           init_state w2)) = currentUnit a).
  { destruct (@header_reparse doc a init_state w2
                eq_refl eq_refl eq_refl Hok eq_refl eq_refl) as [Ht Hu].
    destruct (header_lines (finish doc a) ++ lns) as [|l0 ls0] eqn:E.
    - apply app_eq_nil in E as [E1 _]. rewrite E1 in Ht, Hu.
      cbn in *. now split.
    - rewrite split_join; [|discriminate|].
      + rewrite <- E, parse_lines_app.
        destruct (@parse_lines_keep lns
                    (fst (parse_lines (header_lines (finish doc a))
                                      init_state w2))
                    (snd (parse_lines (header_lines (finish doc a))
                                      init_state w2))) as [E1 E2].
        { eapply Forall_impl; [|exact Hls]. apply keeps_signal. }
        split; congruence.
      + rewrite <- E. apply Forall_app. split; [|exact Hnl].
        eapply Forall_impl; [|exact Hh]. now intros l [_ H]. }
  destruct H as [Ht Hu]. now rewrite Ht, Hu.
Qed.

(* ================================================================== *)
(** * A signal without runs *)

(** A line that matches the signal pattern ends in a state character or in
    a double quote. *)
Lemma signalRe_last ln m :
  regex_match 3 signalRe ln = Some m ->
  exists body d, ln = body ++ [d] /\ (is_state d = true \/ d = QUOTE).
Proof.
  intros H. apply regex_match_sound in H as (x & rest & caps' & -> & Hm & ->).
  unfold signalRe in Hm. invert_matches.
  - eexists _, c2. split.
    + rewrite !app_nil_r. rewrite !app_assoc. reflexivity.
    + right. now apply N.eqb_eq in H6.
  - destruct (exists_last (l := c1 :: a)) as (t & d & E); [discriminate|].
    rewrite E. exists ((([c] ++ y) ++ x ++ [c0] ++ x2) ++ t), d. split.
    + rewrite !app_nil_r. repeat (rewrite <- app_assoc; simpl). reflexivity.
    + left. apply (forallb_last is_state t). rewrite <- E. simpl.
      now rewrite H2.
Qed.

Lemma dropWhile_keeps p s c r :
  p c = false -> exists t, dropWhile p (s ++ c :: r) = t ++ c :: r.
Proof.
  intros Hc. induction s as [|d s IH]; simpl.
  - exists []. now rewrite Hc.
  - destruct (p d); [exact IH|]. now exists (d :: s).
Qed.

Lemma trim_colon_space nm :
  exists t, trim (nm ++ str ": ") = t ++ [chr ":"].
Proof.
  unfold trim.
  destruct (@dropWhile_keeps is_space nm (chr ":") [chr " "] eq_refl)
    as (t & E).
  exists t. change (str ": ") with [chr ":"; chr " "]. rewrite E.
  rewrite rev_app_distr. simpl. now rewrite rev_involutive.
Qed.

(** X23: a signal created without a state string serializes to its name, a
    colon and a space, and that line gives no signal when parsed: the
    signal does not survive the text. *)
Theorem signal_without_runs_is_dropped nm w w' :
  nl_free nm ->
  serializeSignal (fst (createSignal nm None w)) = Some (nm ++ str ": ")
  /\ signals (fst (parse (nm ++ str ": ") w')) = [].
Proof.
  intros Hnm. split.
  - reflexivity.
  - rewrite parse_eq. cbn [fst finish signals].
    rewrite split_nl_line.
    2:{ apply Forall_app. split; [exact Hnm|]. repeat constructor; discriminate. }
    cbn [parse_lines]. unfold bind.
    destruct (parse_line_signals (nm ++ str ": ") init_state
                (snd (createDocument default_title w')))
      as [[E _]|(m & nm' & sts & _ & Hm & _)].
    + destruct (parse_line _ _ _) as [a1 w1]. exact E.
    + exfalso. apply signalRe_last in Hm as (body & d & E & Hd).
      destruct (trim_colon_space nm) as (t & Et). rewrite Et in E.
      apply app_inj_tail in E as [_ <-].
      destruct Hd as [Hd|Hd]; discriminate.
Qed.

Lemma signal_without_runs_is_dropped_witness :
  serializeSignal (fst (createSignal (str "CLK") None w0))
  = Some (str "CLK" ++ str ": ")
  /\ signals (fst (parse (str "CLK" ++ str ": ") w0)) = [].
Proof.
  apply signal_without_runs_is_dropped.
  repeat constructor; discriminate.
Defined.

(* ================================================================== *)
(** * The editor: text and model *)

Lemma state_of_char_of_state st :
  App.state_of_char (App.toUpperCase (App.char_of_state st)) = st.
Proof. now destruct st. Qed.

Lemma app_states_back l :
  map App.state_of_char (map App.toUpperCase (map App.char_of_state l)) = l.
Proof.
  induction l as [|st l IH]; simpl; [reflexivity|].
  now rewrite state_of_char_of_state, IH.
Qed.

Lemma char_of_state_is_state st : is_state (App.char_of_state st) = true.
Proof. now destruct st. Qed.

Lemma states_str_is_state l : forallb is_state (map App.char_of_state l) = true.
Proof.
  induction l as [|st l IH]; simpl; [reflexivity|].
  now rewrite char_of_state_is_state, IH.
Qed.

Lemma is_state_ci_of_state c : is_state c = true -> App.is_state_ci c = true.
Proof. unfold App.is_state_ci. now intros ->. Qed.

Lemma forallb_impl (p q : char -> bool) l :
  (forall c, p c = true -> q c = true) ->
  forallb p l = true -> forallb q l = true.
Proof.
  intros H Hl. apply forallb_forall. intros c Hc.
  apply H. rewrite forallb_forall in Hl. now apply Hl.
Qed.

(** The editor's pattern on a line of [App.serializeSignals]. *)
Lemma appRe_complete n0 d s0 sts dsc :
  forallb is_word (n0 :: d) = true ->
  forallb is_state (s0 :: sts) = true ->
  forallb not_quote dsc = true ->
  let ln := (n0 :: d) ++ str ": " ++ (s0 :: sts)
            ++ match dsc with
               | [] => []
               | _ :: _ => str " " ++ quoted dsc
               end in
  exists m,
    regex_match 4 App.appRe ln = Some m
    /\ group 1 m = Some (n0 :: d) /\ group 2 m = Some (s0 :: sts)
    /\ group 4 m = match dsc with [] => None | _ :: _ => Some dsc end.
Proof.
  intros Hn Hs Hq ln.
  cbn [forallb] in Hn, Hs.
  apply andb_true_iff in Hn as [Hn0 Hd].
  apply andb_true_iff in Hs as [Hs0 Hsts].
  pose proof (is_state_not_space _ Hs0) as Hsp.
  pose proof (is_state_ci_of_state _ Hs0) as Hc0.
  pose proof (forallb_impl is_state App.is_state_ci sts is_state_ci_of_state Hsts)
    as Hcs.
  destruct dsc as [|q t].
  - set (X := (n0 :: d) ++ [] ++ [chr ":"] ++ [chr " "] ++ (s0 :: sts) ++ []).
    assert (EX : ln = X).
    { unfold ln, X. simpl. now rewrite !app_nil_r. }
    rewrite EX.
    eassert (G : greedy App.appRe X [] (repeat None 5) _).
    { unfold App.appRe, X.
      eapply g_cat; [now apply g_grp, g_plus|].
      eapply g_cat; [now apply g_star|].
      eapply g_cat; [now apply g_cls|].
      eapply g_cat.
      { apply g_star; [reflexivity | simpl; now rewrite Hsp]. }
      eapply g_cat; [now apply g_grp, g_plus|].
      apply g_opt_none. reflexivity. }
    rewrite (regex_match_greedy G). eexists. split; [reflexivity|].
    repeat split.
  - cbn [forallb] in Hq. apply andb_true_iff in Hq as [Hq Hqt].
    set (X := (n0 :: d) ++ [] ++ [chr ":"] ++ [chr " "] ++ (s0 :: sts)
              ++ ([chr " "] ++ [QUOTE] ++ (q :: t) ++ [QUOTE])).
    assert (EX : ln = X).
    { unfold ln, X, quoted. simpl. reflexivity. }
    rewrite EX.
    eassert (G : greedy App.appRe X [] (repeat None 5) _).
    { unfold App.appRe, X.
      eapply g_cat; [now apply g_grp, g_plus|].
      eapply g_cat; [now apply g_star|].
      eapply g_cat; [now apply g_cls|].
      eapply g_cat.
      { apply g_star; [reflexivity | simpl; now rewrite Hsp]. }
      eapply g_cat; [now apply g_grp, g_plus|].
      apply g_opt_some.
      rewrite <- (app_nil_r ([chr " "] ++ [QUOTE] ++ (q :: t) ++ [QUOTE])).
      rewrite <- !app_assoc.
      apply g_grp.
      eapply g_cat; [now apply g_plus|].
      eapply g_cat; [now apply g_cls|].
      eapply g_cat; [now apply g_grp, g_plus | now apply g_cls]. }
    rewrite (regex_match_greedy G). eexists. split; [reflexivity|].
    repeat split.
Qed.

Lemma appRe_inv ln m :
  regex_match 4 App.appRe ln = Some m ->
  exists n0 d s0 sts,
    forallb is_word (n0 :: d) = true
    /\ group 1 m = Some (n0 :: d) /\ group 2 m = Some (s0 :: sts)
    /\ (group 4 m = None
        \/ exists q t, group 4 m = Some (q :: t)
                       /\ forallb not_quote (q :: t) = true).
Proof.
  intros H. apply regex_match_sound in H as (x & rest & caps' & -> & Hm & ->).
  unfold App.appRe in Hm. invert_matches.
  - eexists _, _, _, _. repeat split.
    + cbn [forallb]. apply andb_true_iff. split; eassumption.
    + right. eexists _, _. split; [reflexivity|].
      cbn [forallb]. apply andb_true_iff. split; assumption.
  - eexists _, _, _, _. repeat split.
    + cbn [forallb]. apply andb_true_iff. split; eassumption.
    + now left.
Qed.

Lemma parseText_line_app ln sigs :
  App.parseText_line ln sigs = sigs ++ App.parseText_line ln [].
Proof.
  unfold App.parseText_line.
  destruct (negb (nonempty (trim ln)) || startsWith (chr "#") (trim ln)
            || startsWith (chr "@") (trim ln)); [now rewrite app_nil_r|].
  destruct (regex_match 4 App.appRe (trim ln)) as [m|];
    [|now rewrite app_nil_r].
  destruct (group 1 m); [|now rewrite app_nil_r].
  destruct (group 2 m); [reflexivity | now rewrite app_nil_r].
Qed.

Lemma parseText_fold lines : forall sigs,
  fold_left (fun acc ln => App.parseText_line ln acc) lines sigs
  = sigs ++ flat_map (fun ln => App.parseText_line ln []) lines.
Proof.
  induction lines as [|ln rest IH]; intros sigs; cbn [fold_left flat_map].
  - now rewrite app_nil_r.
  - now rewrite IH, parseText_line_app, app_assoc.
Qed.

Lemma parseText_by_line text :
  App.parseText text
  = flat_map (fun ln => App.parseText_line ln []) (split_nl text).
Proof. unfold App.parseText. now rewrite parseText_fold. Qed.

Lemma parseText_line_wf ln :
  nl_free ln -> Forall App.app_wf (App.parseText_line ln []).
Proof.
  intros Hln. unfold App.parseText_line.
  destruct (negb (nonempty (trim ln)) || startsWith (chr "#") (trim ln)
            || startsWith (chr "@") (trim ln)); [constructor|].
  destruct (regex_match 4 App.appRe (trim ln)) as [m|] eqn:Em; [|constructor].
  assert (Hg : forall dsc, group 4 m = Some dsc -> nl_free dsc).
  { intros dsc Hd. eapply regex_match_group; [exact Em | | exact Hd].
    now apply Forall_trim. }
  apply appRe_inv in Em as (n0 & d & s0 & sts & Hn & E1 & E2 & E4).
  rewrite E1, E2. cbn [app]. constructor; [|constructor].
  unfold App.app_wf. cbn [App.app_name App.app_states App.app_description].
  split; [now exists n0, d|]. split; [discriminate|].
  destruct E4 as [E4|(q & t & E4 & Hq)]; rewrite E4 in *.
  - split; [reflexivity | constructor].
  - split; [exact Hq | now apply Hg].
Qed.

Lemma parseText_wf text : Forall App.app_wf (App.parseText text).
Proof.
  rewrite parseText_by_line.
  pose proof (split_nl_nl_free text) as H.
  induction H as [|ln rest Hln _ IH]; cbn [flat_map]; [constructor|].
  apply Forall_app. split; [now apply parseText_line_wf | exact IH].
Qed.

Lemma app_line_nl_free (s : App.AppSignal) :
  App.app_wf s -> nl_free (App.app_line s).
Proof.
  intros ((n0 & d & En & Hn) & _ & Hq & Hnl). unfold App.app_line.
  assert (H1 : nl_free (App.app_name s)).
  { rewrite En. eapply forallb_Forall; [apply is_word_not_nl | exact Hn]. }
  assert (H2 : nl_free (map App.char_of_state (App.app_states s))).
  { eapply forallb_Forall; [apply is_state_not_nl|].
    apply states_str_is_state. }
  destruct (nonempty (App.app_description s));
    unfold nl_free; repeat (apply Forall_app; split);
    try assumption; try apply str_nl_free_colon.
  - repeat constructor; discriminate.
  - unfold quoted. constructor; [discriminate|]. apply Forall_app.
    split; [exact Hnl | repeat constructor; discriminate].
Qed.

Lemma is_word_tests c :
  is_word c = true ->
  is_space c = false /\ (c =? chr "#")%N = false /\ (c =? chr "@")%N = false.
Proof.
  intros H. split; [now apply is_word_not_space|].
  char_cases H; split; apply N.eqb_neq; unfold chr; simpl; lia.
Qed.

Lemma app_line_ends (s : App.AppSignal) n0 d :
  App.app_name s = n0 :: d -> App.app_states s <> [] ->
  exists body dl,
    App.app_line s = n0 :: body ++ [dl] /\ is_space dl = false.
Proof.
  intros En Hst. unfold App.app_line. rewrite En.
  destruct (nonempty (App.app_description s)).
  - exists (d ++ str ": " ++ map App.char_of_state (App.app_states s)
              ++ str " " ++ QUOTE :: App.app_description s), QUOTE.
    split; [|reflexivity].
    unfold quoted. simpl. f_equal.
    repeat (rewrite <- app_assoc; simpl). reflexivity.
  - destruct (exists_last (l := map App.char_of_state (App.app_states s)))
      as (t & dl & E).
    { destruct (App.app_states s); [congruence | discriminate]. }
    rewrite E. exists (d ++ str ": " ++ t), dl. split.
    + simpl. f_equal. repeat (rewrite <- app_assoc; simpl). reflexivity.
    + apply is_state_not_space. apply (forallb_last is_state t).
      rewrite <- E. apply states_str_is_state.
Qed.

(** The editor reads a line it wrote back as the signal it wrote. *)
Lemma parseText_line_app_line (s : App.AppSignal) :
  App.app_wf s -> App.parseText_line (App.app_line s) [] = [s].
Proof.
  intros Hwf. pose proof Hwf as ((n0 & d & En & Hn) & Hst & Hq & Hnl).
  destruct (app_line_ends s En Hst) as (body & dl & E & Hdl).
  pose proof Hn as Hn'. cbn [forallb] in Hn'.
  apply andb_true_iff in Hn' as [Hn0 _].
  destruct (is_word_tests _ Hn0) as (Hsp & Hhash & Hat).
  unfold App.parseText_line.
  assert (Et : trim (App.app_line s) = App.app_line s).
  { rewrite E. now apply trim_id. }
  rewrite Et.
  assert (Eh : negb (nonempty (App.app_line s))
               || startsWith (chr "#") (App.app_line s)
               || startsWith (chr "@") (App.app_line s) = false).
  { rewrite E. cbn [nonempty negb orb startsWith]. now rewrite Hhash, Hat. }
  rewrite Eh.
  destruct (map App.char_of_state (App.app_states s)) as [|s0 sts] eqn:Est.
  { destruct (App.app_states s); [congruence | discriminate]. }
  pose proof (states_str_is_state (App.app_states s)) as Hs.
  rewrite Est in Hs.
  destruct (@appRe_complete n0 d s0 sts (App.app_description s) Hn Hs Hq)
    as (m & Em & E1 & E2 & E4).
  assert (El : App.app_line s
               = (n0 :: d) ++ str ": " ++ (s0 :: sts)
                 ++ match App.app_description s with
                    | [] => []
                    | _ :: _ => str " " ++ quoted (App.app_description s)
                    end).
  { unfold App.app_line. rewrite En, Est.
    destruct (App.app_description s); cbn [nonempty];
      [now rewrite app_nil_r | reflexivity]. }
  rewrite El, Em, E1, E2, E4. cbn [app].
  rewrite <- Est, app_states_back.
  destruct s as [nm dsc sts']. cbn in *. subst nm.
  destruct dsc; reflexivity.
Qed.

Lemma flat_map_app_line sigs :
  Forall App.app_wf sigs ->
  flat_map (fun ln => App.parseText_line ln []) (map App.app_line sigs) = sigs.
Proof.
  induction 1 as [|s sigs Hs _ IH]; cbn [map flat_map]; [reflexivity|].
  now rewrite (parseText_line_app_line Hs), IH.
Qed.

Lemma parseText_serializeSignals sigs :
  Forall App.app_wf sigs -> App.parseText (App.serializeSignals sigs) = sigs.
Proof.
  intros H. rewrite parseText_by_line. unfold App.serializeSignals.
  destruct sigs as [|s sigs]; [reflexivity|].
  rewrite split_join; [now apply flat_map_app_line | discriminate|].
  apply Forall_map. eapply Forall_impl; [|exact H].
  apply app_line_nl_free.
Qed.

(** X24: in the editor, writing out the model that [parseText] built and
    parsing the text again gives the same model. *)
Theorem app_text_roundtrip text :
  App.parseText (App.serializeSignals (App.parseText text))
  = App.parseText text.
Proof. apply parseText_serializeSignals, parseText_wf. Qed.

Lemma update_nth_wf {A} (P : A -> Prop) (f : A -> A) i l :
  (forall x, P x -> P (f x)) -> Forall P l -> Forall P (App.update_nth i f l).
Proof.
  intros Hf H. revert i.
  induction H as [|x l Hx Hl IH]; intros i; destruct i; cbn;
    constructor; auto.
Qed.

Lemma update_nth_length {A} (f : A -> A) i (l : list A) :
  length (App.update_nth i f l) = length l.
Proof.
  revert i. induction l as [|x l IH]; intros i; destruct i; cbn; auto.
Qed.

Lemma click_wf i j sigs :
  Forall App.app_wf sigs -> Forall App.app_wf (App.click i j sigs).
Proof.
  intros H. unfold App.click.
  destruct (nth_error sigs i) as [s|]; [|exact H].
  destruct (j <? length (App.app_states s)); [|exact H].
  apply update_nth_wf; [|exact H].
  intros [nm dsc sts] (Hn & Hs & Hq & Hnl). unfold App.app_wf.
  cbn [App.app_name App.app_states App.app_description] in *.
  split; [exact Hn | split; [|split; assumption]].
  intros E. apply Hs. apply (f_equal (@length App.AppState)) in E.
  rewrite update_nth_length in E. now destruct sts.
Qed.

(** X25: after a click on the waveform the editor rewrites its text from
    the model; whatever the text was and wherever the click hit, parsing
    the rewritten text gives exactly the model after the click. *)
Theorem app_click_sync text i j :
  App.parseText (App.serializeSignals (App.click i j (App.parseText text)))
  = App.click i j (App.parseText text).
Proof. apply parseText_serializeSignals, click_wf, parseText_wf. Qed.

Lemma update_nth_compose {A} (f g : A -> A) i (l : list A) :
  App.update_nth i f (App.update_nth i g l)
  = App.update_nth i (fun x => f (g x)) l.
Proof.
  revert i. induction l as [|x l IH]; intros i; destruct i; cbn;
    try reflexivity. now rewrite IH.
Qed.

Lemma update_nth_id {A} (f : A -> A) i (l : list A) :
  (forall x, f x = x) -> App.update_nth i f l = l.
Proof.
  intros Hf. revert i.
  induction l as [|x l IH]; intros i; destruct i; cbn;
    try reflexivity; [now rewrite Hf | now rewrite IH].
Qed.

Lemma update_nth_out {A} (f : A -> A) i (l : list A) :
  nth_error l i = None -> App.update_nth i f l = l.
Proof.
  revert i. induction l as [|x l IH]; intros i H; destruct i; cbn in *;
    try reflexivity; [discriminate | now rewrite IH].
Qed.

Lemma update_nth_at {A} (f g : A -> A) i (l : list A) x :
  nth_error l i = Some x -> f x = g x ->
  App.update_nth i f l = App.update_nth i g l.
Proof.
  revert i. induction l as [|y l IH]; intros i H E; destruct i; cbn in *;
    try discriminate.
  - injection H as ->. now rewrite E.
  - now rewrite (IH i H E).
Qed.

Lemma click_as_update i j sigs :
  App.click i j sigs = App.update_nth i (step_toggle j) sigs.
Proof.
  unfold App.click.
  destruct (nth_error sigs i) as [s|] eqn:E;
    [|now rewrite update_nth_out].
  destruct (j <? length (App.app_states s)) eqn:Ej.
  - apply (update_nth_at _ _ _ _ E). unfold step_toggle. now rewrite Ej.
  - symmetry. rewrite <- (update_nth_id (fun x => x) i sigs) at 2 by auto.
    apply (update_nth_at _ _ _ _ E). unfold step_toggle. now rewrite Ej.
Qed.

Lemma toggleState_cycle st :
  App.toggleState (App.toggleState (App.toggleState (App.toggleState st)))
  = st.
Proof. now destruct st. Qed.

Lemma step_toggle_length j s :
  length (App.app_states (step_toggle j s)) = length (App.app_states s).
Proof.
  unfold step_toggle. destruct (j <? length (App.app_states s));
    [|reflexivity].
  cbn. apply update_nth_length.
Qed.

Lemma step_toggle_cycle j s :
  step_toggle j (step_toggle j (step_toggle j (step_toggle j s))) = s.
Proof.
  destruct (j <? length (App.app_states s)) eqn:Ej.
  - assert (H : forall t, length (App.app_states t)
                          = length (App.app_states s) ->
                step_toggle j t
                = {| App.app_name := App.app_name t;
                     App.app_description := App.app_description t;
                     App.app_states :=
                       App.update_nth j App.toggleState
                                      (App.app_states t) |}).
    { intros t Ht. unfold step_toggle. now rewrite Ht, Ej. }
    rewrite !H
      by (rewrite ?step_toggle_length; cbn; now rewrite ?update_nth_length).
    cbn [App.app_states App.app_name App.app_description].
    rewrite !update_nth_compose.
    rewrite update_nth_id by apply toggleState_cycle.
    now destruct s.
  - assert (H : step_toggle j s = s)
      by (unfold step_toggle; now rewrite Ej).
    now rewrite !H.
Qed.

(** X26: four clicks on the same step bring the editor's model back to
    where it was: the states cycle low, high, unknown, high impedance. *)
Theorem app_click_cycle i j sigs :
  App.click i j (App.click i j (App.click i j (App.click i j sigs))) = sigs.
Proof.
  rewrite !click_as_update, !update_nth_compose.
  apply update_nth_id. apply step_toggle_cycle.
Qed.

Lemma stops_after_spaces (p : char -> bool) ws c rest :
  forallb is_space ws = true ->
  (forall x, is_space x = true -> p x = false) ->
  p c = false ->
  stops p (ws ++ c :: rest) = true.
Proof.
  intros Hws Hp Hc. destruct ws as [|w ws]; cbn.
  - now rewrite Hc.
  - cbn in Hws. apply andb_true_iff in Hws as [Hw _]. now rewrite (Hp w Hw).
Qed.

Lemma is_space_not_word x : is_space x = true -> is_word x = false.
Proof.
  intros H. destruct (is_word x) eqn:E; [|reflexivity].
  apply is_word_not_space in E. congruence.
Qed.

Lemma is_space_not_state_ci x : is_space x = true -> App.is_state_ci x = false.
Proof.
  intros H. destruct (App.is_state_ci x) eqn:E; [|reflexivity].
  exfalso. unfold App.is_state_ci in E.
  apply orb_true_iff in E as [E|E]; [apply orb_true_iff in E as [E|E]|].
  - apply is_state_not_space in E. congruence.
  - unfold is_chr in E. apply N.eqb_eq in E. subst. discriminate.
  - unfold is_chr in E. apply N.eqb_eq in E. subst. discriminate.
Qed.

Lemma is_colon_not_word c : is_chr ":" c = true -> is_word c = false.
Proof. unfold is_chr. intros H. apply N.eqb_eq in H. now subst. Qed.

Lemma is_colon_not_space c : is_chr ":" c = true -> is_space c = false.
Proof. unfold is_chr. intros H. apply N.eqb_eq in H. now subst. Qed.

Lemma is_quote_not_space c : is_quote c = true -> is_space c = false.
Proof. unfold is_quote. intros H. apply N.eqb_eq in H. now subst. Qed.

Lemma is_quote_stops c rest : is_quote c = true -> stops not_quote (c :: rest) = true.
Proof. unfold stops, not_quote. now intros ->. Qed.

(** A line the signal pattern of the core matches is matched by the
    editor's pattern, with the same name, state string and description. *)
Lemma signalRe_appRe ln m :
  regex_match 3 signalRe ln = Some m ->
  exists m',
    regex_match 4 App.appRe ln = Some m'
    /\ group 1 m' = group 1 m /\ group 2 m' = group 2 m
    /\ group 4 m' = group 3 m.
Proof.
  intros H. apply regex_match_sound in H as (x & rest & caps' & -> & Hm & ->).
  unfold signalRe in Hm. invert_matches.
  - match goal with
    | |- context [regex_match 4 App.appRe ?l] =>
        replace l
          with ((c :: y) ++ x ++ [c0] ++ x2 ++ (c1 :: a)
                ++ ((c5 :: a1) ++ [c3] ++ (c4 :: a0) ++ [c2]))
          by (rewrite !app_nil_r; simpl; now rewrite <- ?app_assoc)
    end.
    match goal with
    | |- context [regex_match 4 App.appRe ?l] =>
        eassert (G : greedy App.appRe l [] (repeat None 5) _)
    end.
    { unfold App.appRe.
      eapply g_cat.
      { apply g_grp, g_plus;
          [now apply is_name_start_word | assumption |].
        rewrite ?app_nil_r. apply stops_after_spaces;
          [assumption | apply is_space_not_word | now apply is_colon_not_word]. }
      eapply g_cat.
      { apply g_star; [assumption|]. cbn. now rewrite is_colon_not_space. }
      eapply g_cat; [now apply g_cls|].
      eapply g_cat.
      { apply g_star; [assumption|]. cbn.
        now rewrite (is_state_not_space _ H2). }
      eapply g_cat.
      { apply g_grp, g_plus;
          [now apply is_state_ci_of_state
          | now apply (forallb_impl is_state App.is_state_ci a
                                    is_state_ci_of_state) |].
        cbn. now rewrite is_space_not_state_ci. }
      apply g_opt_some.
      rewrite <- (app_nil_r ((c5 :: a1) ++ [c3] ++ (c4 :: a0) ++ [c2])).
      rewrite <- !app_assoc.
      apply g_grp.
      eapply g_cat.
      { apply g_plus; [assumption | assumption |].
        cbn. now rewrite is_quote_not_space. }
      eapply g_cat; [now apply g_cls|].
      eapply g_cat; [|now apply g_cls].
      apply g_grp, g_plus; [assumption | assumption |].
      now apply is_quote_stops. }
    rewrite (regex_match_greedy G). eexists. split; [reflexivity|].
    repeat split.
  - match goal with
    | |- context [regex_match 4 App.appRe ?l] =>
        replace l
          with ((c :: y) ++ x ++ [c0] ++ x2 ++ (c1 :: a) ++ [])
          by (rewrite !app_nil_r; simpl; now rewrite <- ?app_assoc)
    end.
    match goal with
    | |- context [regex_match 4 App.appRe ?l] =>
        eassert (G : greedy App.appRe l [] (repeat None 5) _)
    end.
    { unfold App.appRe.
      eapply g_cat.
      { apply g_grp, g_plus;
          [now apply is_name_start_word | assumption |].
        rewrite ?app_nil_r. apply stops_after_spaces;
          [assumption | apply is_space_not_word | now apply is_colon_not_word]. }
      eapply g_cat.
      { apply g_star; [assumption|]. cbn. now rewrite is_colon_not_space. }
      eapply g_cat; [now apply g_cls|].
      eapply g_cat.
      { apply g_star; [assumption|]. cbn.
        now rewrite (is_state_not_space _ H2). }
      eapply g_cat; [now apply g_grp, g_plus;
                       [now apply is_state_ci_of_state
                       | now apply (forallb_impl is_state App.is_state_ci a
                                      is_state_ci_of_state) | reflexivity]|].
      apply g_opt_none. reflexivity. }
    rewrite (regex_match_greedy G). eexists. split; [reflexivity|].
    repeat split.
Qed.

Lemma steps_of_runs_decode runs : forall t,
  serializeSignalStates runs = Some t ->
  steps_of_runs runs = map App.state_of_char t.
Proof.
  induction runs as [|r runs IH]; intros t H; cbn in H.
  - now injection H as <-.
  - destruct (value r) as [c|] eqn:Ev; [|discriminate].
    destruct (serializeSignalStates runs) as [tl'|]; [|discriminate].
    injection H as <-. cbn [steps_of_runs flat_map].
    rewrite Ev, map_app, map_repeat. cbn [state_of_value].
    f_equal. now apply IH.
Qed.

Lemma toUpperCase_state c : is_state c = true -> App.toUpperCase c = c.
Proof. intros H. char_cases H; subst; reflexivity. Qed.

Lemma map_toUpperCase_states s :
  forallb is_state s = true -> map App.toUpperCase s = s.
Proof.
  induction s as [|c s IH]; cbn; [reflexivity|].
  intros H. apply andb_true_iff in H as [Hc Hs].
  now rewrite toUpperCase_state, IH.
Qed.

(** A line gives the core no signal, or it gives both parsers the same
    one. *)
Lemma line_core_app raw :
  line_core raw = []
  \/ exists c, line_core raw = [c]
               /\ App.parseText_line raw [] = [app_of_core c].
Proof.
  unfold line_core, App.parseText_line.
  destruct (negb (nonempty (trim raw)) || startsWith (chr "#") (trim raw)
            || startsWith (chr "@") (trim raw)); [now left|].
  destruct (regex_match 3 signalRe (trim raw)) as [m|] eqn:Em; [|now left].
  destruct (@signalRe_appRe _ _ Em) as (m' & Em' & G1 & G2 & G4).
  apply signalRe_inv in Em
    as (c & nm & s0 & sts & dsc & Hc & Hnm & Hs0 & Hsts & -> & Hd).
  rewrite Em', G1, G2, G4.
  change (group 1 [Some (trim raw); Some (c :: nm); Some (s0 :: sts); dsc])
    with (Some (c :: nm)).
  change (group 2 [Some (trim raw); Some (c :: nm); Some (s0 :: sts); dsc])
    with (Some (s0 :: sts)).
  change (group 3 [Some (trim raw); Some (c :: nm); Some (s0 :: sts); dsc])
    with dsc.
  cbv beta iota. right. eexists. split; [reflexivity|].
  cbn [nonempty app app_of_core]. f_equal.
  rewrite (@steps_of_runs_decode _ _ (codec_roundtrip_nonempty s0 sts)).
  rewrite map_toUpperCase_states
    by (cbn [forallb]; now rewrite Hs0, Hsts).
  destruct Hd as [->|(q & d & -> & _)]; reflexivity.
Qed.

Lemma subseq_nil_l {A} (l : list A) : subseq [] l.
Proof. induction l; now constructor. Qed.

Lemma subseq_app {A} (a b c d : list A) :
  subseq a b -> subseq c d -> subseq (a ++ c) (b ++ d).
Proof. intros H1 H2. induction H1; cbn; try constructor; assumption. Qed.

Lemma subseq_refl {A} (l : list A) : subseq l l.
Proof. induction l; now constructor. Qed.

(** X27: the editor reads every signal the core parser reads, in the same
    order and with the same name, steps and description; what it reads
    besides comes from lines the core parser rejects. *)
Theorem core_signals_in_editor text w :
  subseq (map app_of_signal (signals (fst (parse text w))))
         (App.parseText text).
Proof.
  unfold app_of_signal. rewrite <- map_map, parse_signals_by_line.
  rewrite parseText_by_line.
  induction (split_nl text) as [|raw lines IH]; cbn [flat_map map].
  - constructor.
  - rewrite map_app. apply subseq_app; [|exact IH].
    destruct (line_core_app raw) as [->|(c & -> & ->)];
      [apply subseq_nil_l | apply subseq_refl].
Qed.

(* ================================================================== *)
(** * The length pass of validate *)

Lemma regex_match_greedy_rest n r x rest caps' :
  greedy r x rest (repeat None (S n)) caps' ->
  regex_match n r (x ++ rest) = Some (set_nth 0 (Some x) caps').
Proof.
  intros H. unfold regex_match.
  eapply run_greedy; [constructor; eassumption | reflexivity].
Qed.

(** On a line the signal pattern matches, the pattern of the length pass
    captures the same name and the same state string. *)
Lemma signalRe_prefix ln m :
  regex_match 3 signalRe ln = Some m ->
  exists m',
    regex_match 2 signalPrefixRe ln = Some m'
    /\ group 1 m' = group 1 m /\ group 2 m' = group 2 m.
Proof.
  intros H. apply regex_match_sound in H as (x & rest & caps' & -> & Hm & ->).
  unfold signalRe in Hm. invert_matches.
  - match goal with
    | |- context [regex_match 2 signalPrefixRe ?l] =>
        replace l
          with (((c :: y) ++ x ++ [c0] ++ x2 ++ (c1 :: a))
                ++ ((c5 :: a1) ++ [c3] ++ (c4 :: a0) ++ [c2]))
          by (rewrite ?app_nil_r; simpl; repeat (rewrite <- app_assoc; simpl);
              reflexivity)
    end.
    eassert (G : greedy signalPrefixRe
                        ((c :: y) ++ x ++ [c0] ++ x2 ++ (c1 :: a))
                        ((c5 :: a1) ++ [c3] ++ (c4 :: a0) ++ [c2])
                        (repeat None 3) _).
    { unfold signalPrefixRe.
    eapply g_cat.
    { apply g_grp.
      change (c :: y) with ([c] ++ y).
      eapply g_cat; [now apply g_cls|].
      apply g_star; [assumption|].
      rewrite <- ?app_assoc.
      apply stops_after_spaces;
        [assumption | apply is_space_not_word | now apply is_colon_not_word]. }
    eapply g_cat.
    { apply g_star; [assumption|]. cbn. now rewrite is_colon_not_space. }
    eapply g_cat; [now apply g_cls|].
    eapply g_cat.
    { apply g_star; [assumption|]. cbn.
      now rewrite (is_state_not_space _ H2). }
    apply g_grp, g_plus; [assumption | assumption |].
    cbn. destruct (is_state c5) eqn:E; [|reflexivity].
    apply is_state_not_space in E. congruence. }
    rewrite (@regex_match_greedy_rest _ _ _ _ _ G). eexists.
    split; [reflexivity|]. repeat split.
  - match goal with
    | |- context [regex_match 2 signalPrefixRe ?l] =>
        replace l
          with (((c :: y) ++ x ++ [c0] ++ x2 ++ (c1 :: a)) ++ [])
          by (rewrite ?app_nil_r; simpl; repeat (rewrite <- app_assoc; simpl);
              reflexivity)
    end.
    eassert (G : greedy signalPrefixRe
                        ((c :: y) ++ x ++ [c0] ++ x2 ++ (c1 :: a)) []
                        (repeat None 3) _).
    { unfold signalPrefixRe.
    eapply g_cat.
    { apply g_grp.
      change (c :: y) with ([c] ++ y).
      eapply g_cat; [now apply g_cls|].
      apply g_star; [assumption|].
      rewrite ?app_nil_r, <- ?app_assoc.
      apply stops_after_spaces;
        [assumption | apply is_space_not_word | now apply is_colon_not_word]. }
    eapply g_cat.
    { apply g_star; [assumption|]. cbn. now rewrite is_colon_not_space. }
    eapply g_cat; [now apply g_cls|].
    eapply g_cat.
    { apply g_star; [assumption|]. cbn.
      now rewrite (is_state_not_space _ H2). }
    now apply g_grp, g_plus. }
    rewrite (@regex_match_greedy_rest _ _ _ _ _ G). eexists.
    split; [reflexivity|]. repeat split.
Qed.

Lemma valid_line_error text :
  valid (validate text) = true ->
  Forall (fun raw => line_error raw = None) (split_nl text).
Proof.
  intros Hv.
  assert (He : errors (validate text) = []).
  { revert Hv. unfold validate.
    destruct (validate_lines (split_nl text) 0 ([], [])) as [errs warns].
    cbn. now destruct errs. }
  rewrite validate_errors in He. apply numbered_errors_nil in He.
  apply Forall_forall. intros raw Hin.
  rewrite forallb_forall in He. specialize (He raw Hin).
  now destruct (line_error raw).
Qed.

Lemma parseSignalStates_sum c s :
  list_sum (map duration (parseSignalStates (c :: s))) = S (length s).
Proof.
  now rewrite <- (@serialize_length _ _ (codec_roundtrip_nonempty c s)).
Qed.

(** On a line without a syntax error the length pass stores what the first
    pass read: the name and the number of steps of the line's signal. *)
Lemma length_line_core raw m :
  line_error raw = None ->
  length_line raw m = fold_left set_core (line_core raw) m.
Proof.
  unfold line_error, length_line, line_core.
  destruct (nonempty (trim raw)); [|reflexivity]. cbn [negb orb].
  destruct (startsWith (chr "#") (trim raw)); [reflexivity|].
  destruct (startsWith (chr "@") (trim raw)); [reflexivity|].
  cbn [orb].
  destruct (regex_match 3 signalRe (trim raw)) as [m3|] eqn:Em;
    [intros _|discriminate].
  destruct (@signalRe_prefix _ _ Em) as (m' & Em' & G1 & G2).
  apply signalRe_inv in Em
    as (c & nm & s0 & sts & dsc & _ & _ & _ & _ & -> & _).
  rewrite Em', G1, G2.
  change (group 1 [Some (trim raw); Some (c :: nm); Some (s0 :: sts); dsc])
    with (Some (c :: nm)).
  change (group 2 [Some (trim raw); Some (c :: nm); Some (s0 :: sts); dsc])
    with (Some (s0 :: sts)).
  cbv beta iota. cbn [nonempty fold_left].
  unfold set_core, core_length. cbn [fst snd].
  now rewrite parseSignalStates_sum.
Qed.

Lemma signalLengths_cores lines : forall m,
  Forall (fun raw => line_error raw = None) lines ->
  fold_left (fun m raw => length_line raw m) lines m
  = fold_left set_core (flat_map line_core lines) m.
Proof.
  induction lines as [|raw rest IH]; intros m H; cbn [fold_left flat_map].
  - reflexivity.
  - inversion H as [|? ? Hr Hrest]; subst.
    now rewrite fold_left_app, (@length_line_core _ _ Hr), IH.
Qed.

Lemma map_set_values k v m x :
  In x (map snd (map_set k v m)) -> x = v \/ In x (map snd m).
Proof.
  induction m as [|[k' v'] m IH]; cbn.
  - intros [<-|[]]. now left.
  - destruct (jsstring_eqb k' k); cbn.
    + intros [<-|H]; auto.
    + intros [<-|H]; auto. destruct (IH H); auto.
Qed.

Lemma fold_set_values cores : forall m x,
  In x (map snd (fold_left set_core cores m)) ->
  In x (map snd m) \/ In x (map core_length cores).
Proof.
  induction cores as [|c cores IH]; intros m x H; cbn in *; [now left|].
  apply IH in H as [H|H]; [|now auto].
  apply map_set_values in H as [->|H]; auto.
Qed.

Lemma map_set_fresh k v m :
  ~ In k (map fst m) -> map_set k v m = m ++ [(k, v)].
Proof.
  induction m as [|[k' v'] m IH]; cbn; [reflexivity|].
  intros H. destruct (jsstring_eqb k' k) eqn:E.
  - apply jsstring_eqb_eq in E. tauto.
  - rewrite IH; tauto.
Qed.

Lemma fold_set_fresh cores : forall m,
  NoDup (map fst m ++ map (fun c => fst (fst c)) cores) ->
  fold_left set_core cores m
  = m ++ map (fun c => (fst (fst c), core_length c)) cores.
Proof.
  induction cores as [|c cores IH]; intros m H; cbn [fold_left map].
  - now rewrite app_nil_r.
  - unfold set_core at 2.
    assert (Hc : ~ In (fst (fst c)) (map fst m)).
    { apply NoDup_remove_2 in H. intros Hin. apply H.
      apply in_or_app. now left. }
    rewrite (@map_set_fresh _ _ _ Hc), IH.
    + now rewrite <- app_assoc.
    + rewrite map_app, <- app_assoc. exact H.
Qed.

Lemma Math_min_le xs : forall x,
  Math_min x xs <= x /\ Forall (fun y => Math_min x xs <= y) xs.
Proof.
  unfold Math_min.
  induction xs as [|y xs IH]; intros x; simpl.
  - split; [lia | constructor].
  - destruct (IH (Nat.min x y)) as [H1 H2]. split; [lia|].
    constructor; [lia | exact H2].
Qed.

Lemma Math_min_in xs : forall x, In (Math_min x xs) (x :: xs).
Proof.
  unfold Math_min.
  induction xs as [|y xs IH]; intros x; simpl.
  - now left.
  - destruct (IH (Nat.min x y)) as [H|H].
    + rewrite <- H.
      destruct (Nat.min_spec x y) as [[_ E]|[_ E]]; rewrite E; auto.
    + auto.
Qed.

(** The warnings of the first pass are about long names. *)
Lemma validate_line_warns raw k (errs : list ValidationError)
      (warns : list ValidationWarning) :
  Forall (fun w => code w = "LONG_NAME"%string) warns ->
  Forall (fun w => code w = "LONG_NAME"%string)
         (snd (validate_line raw k (errs, warns))).
Proof.
  intros H. unfold validate_line.
  destruct (negb (nonempty (trim raw)) || startsWith (chr "#") (trim raw));
    [exact H|].
  destruct (startsWith (chr "@") (trim raw)).
  { now destruct (regex_match 2 directiveRe (trim raw)). }
  destruct (regex_match 3 signalRe (trim raw)) as [m|]; [|exact H].
  destruct (group 1 m); [|exact H].
  destruct (group 2 m); [|exact H].
  cbn [snd]. destruct (32 <? length j); [|exact H].
  apply Forall_app. split; [exact H|]. now repeat constructor.
Qed.

Lemma validate_lines_warns lines :
  forall i (errs : list ValidationError) (warns : list ValidationWarning),
  Forall (fun w => code w = "LONG_NAME"%string) warns ->
  Forall (fun w => code w = "LONG_NAME"%string)
         (snd (validate_lines lines i (errs, warns))).
Proof.
  induction lines as [|raw rest IH]; intros i errs warns H;
    cbn [validate_lines]; [exact H|].
  pose proof (@validate_line_warns raw (i + 1) errs warns H) as H'.
  destruct (validate_line raw (i + 1) (errs, warns)) as [errs' warns'].
  now apply IH.
Qed.

(** The length warning is there exactly when the stored lengths are not
    all the same. *)
Lemma has_warning_lengths text :
  has_warning "INCONSISTENT_LENGTHS" (validate text)
  = match map snd (signalLengths (split_nl text)) with
    | [] => false
    | x :: xs => negb (Math_min x xs =? Math_max x xs)
    end.
Proof.
  unfold has_warning, validate.
  pose proof (@validate_lines_warns (split_nl text) 0 [] []
                (Forall_nil _)) as H.
  destruct (validate_lines (split_nl text) 0 ([], [])) as [errs warns].
  cbn [warnings snd] in *. rewrite existsb_app.
  match goal with
  | |- context [@existsb ?T ?f warns] =>
      assert (Hn : @existsb T f warns = false)
  end.
  { clear -H. induction H as [|w ws Hw _ IH]; cbn [existsb]; [reflexivity|].
    now rewrite Hw, IH. }
  rewrite Hn.
  cbn [orb]. unfold length_warning.
  destruct (map snd (signalLengths (split_nl text))) as [|x xs];
    [reflexivity|].
  now destruct (Math_min x xs =? Math_max x xs).
Qed.

Lemma core_length_signal s : core_length (signal_core s) = signal_length s.
Proof. now rewrite signal_length_sum. Qed.

(** X28: on a text without errors, the warning about inconsistent lengths
    is never a false alarm: when [validate] gives it, the signals [parse]
    reads do not all have the same number of steps. *)
Theorem inconsistent_lengths_sound text w :
  valid (validate text) = true ->
  has_warning "INCONSISTENT_LENGTHS" (validate text) = true ->
  validateSignalLengths (fst (parse text w)) = false.
Proof.
  intros Hv Hw. rewrite has_warning_lengths in Hw.
  unfold signalLengths in Hw.
  rewrite (@signalLengths_cores _ _ (@valid_line_error _ Hv)) in Hw.
  rewrite <- (parse_signals_by_line text w) in Hw.
  set (sigs := signals (fst (parse text w))) in *.
  assert (Hin : forall x,
             In x (map snd (fold_left set_core (map signal_core sigs) [])) ->
             In x (map signal_length sigs)).
  { intros x Hx. apply fold_set_values in Hx as [[]|Hx].
    rewrite map_map in Hx.
    erewrite map_ext in Hx; [exact Hx|]. apply core_length_signal. }
  destruct (map snd (fold_left set_core (map signal_core sigs) []))
    as [|x xs] eqn:E; [discriminate|].
  apply negb_true_iff, Nat.eqb_neq in Hw.
  pose proof (Hin _ (Math_min_in xs x)) as Hmin.
  pose proof (Hin _ (Math_max_in xs x)) as Hmax.
  unfold validateSignalLengths. fold sigs.
  destruct (map signal_length sigs) as [|l0 ls]; [destruct Hmin|].
  apply not_true_is_false. intros Hall.
  apply forallb_eqb_all in Hall. rewrite Forall_forall in Hall.
  apply Hw. now rewrite (Hall _ Hmin), (Hall _ Hmax).
Qed.

(** X29: on a text without errors in which no two signals have the same
    name, [validate] warns about inconsistent lengths whenever the signals
    [parse] reads do not all have the same number of steps. *)
Theorem inconsistent_lengths_complete text w :
  valid (validate text) = true ->
  NoDup (map name (signals (fst (parse text w)))) ->
  validateSignalLengths (fst (parse text w)) = false ->
  has_warning "INCONSISTENT_LENGTHS" (validate text) = true.
Proof.
  intros Hv Hnd Hl. rewrite has_warning_lengths.
  unfold signalLengths.
  rewrite (@signalLengths_cores _ _ (@valid_line_error _ Hv)).
  rewrite <- (parse_signals_by_line text w).
  set (sigs := signals (fst (parse text w))) in *.
  rewrite fold_set_fresh
    by (cbn [map app]; rewrite map_map; exact Hnd).
  cbn [app]. rewrite !map_map. cbn [snd].
  erewrite map_ext by apply core_length_signal.
  unfold validateSignalLengths in Hl. fold sigs in Hl.
  destruct (map signal_length sigs) as [|l0 ls]; [discriminate|].
  apply negb_true_iff, Nat.eqb_neq. intros E.
  apply not_true_iff_false in Hl. apply Hl.
  apply forallb_eqb_all.
  destruct (Math_min_le ls l0) as [Hm0 Hms].
  destruct (Math_max_ge ls l0) as [HM0 HMs].
  constructor; [reflexivity|].
  rewrite Forall_forall in *. intros y Hy.
  specialize (Hms y Hy). specialize (HMs y Hy). lia.
Qed.

Lemma inconsistent_lengths_sound_witness :
  let text := str "A: 0" ++ NL :: str "B: 01" in
  validateSignalLengths (fst (parse text w0)) = false.
Proof.
  intros text. apply inconsistent_lengths_sound; reflexivity.
Defined.

Lemma inconsistent_lengths_complete_witness :
  let text := str "A: 0" ++ NL :: str "B: 01" in
  has_warning "INCONSISTENT_LENGTHS" (validate text) = true.
Proof.
  intros text. apply (@inconsistent_lengths_complete text w0).
  - reflexivity.
  - repeat constructor; cbn; intuition discriminate.
  - reflexivity.
Defined.

(* ================================================================== *)
(** * The argument bound of the engine *)

Lemma Engine_finish_eq n doc a :
  Engine.finish n doc a
  = if length (signals_acc a) <=? n then inr (finish doc a)
    else inl RangeError.
Proof.
  unfold Engine.finish, finish, Engine.Math_max, Math_max.
  rewrite <- (length_map signal_length (signals_acc a)).
  destruct (map signal_length (signals_acc a)) as [|x xs]; [reflexivity|].
  now destruct (length (x :: xs) <=? n).
Qed.

(** [Engine.parse] is [parse] up to the exception. *)
Lemma Engine_parse_eq n text w :
  Engine.parse n text w
  = (if length (signals (fst (parse text w))) <=? n
     then inr (fst (parse text w)) else inl RangeError,
     snd (parse text w)).
Proof.
  unfold Engine.parse, parse, bind, ret.
  destruct (createDocument default_title w) as [doc w1].
  destruct (parse_lines (split_nl text) _ w1) as [a w2].
  cbn [fst snd]. now rewrite Engine_finish_eq.
Qed.

Lemma repeat_nl_free (l : jsstring) n :
  nl_free l -> Forall nl_free (repeat l n).
Proof.
  intros H. apply Forall_forall. intros x Hx.
  now rewrite (repeat_spec _ _ _ Hx).
Qed.

Lemma signal_lines_split n :
  split_nl (signal_lines (S n)) = repeat (str "A: 0") (S n).
Proof.
  unfold signal_lines. apply split_join; [discriminate|].
  apply repeat_nl_free. repeat constructor; discriminate.
Qed.

Lemma signal_lines_signals n w :
  length (signals (fst (parse (signal_lines (S n)) w))) = S n.
Proof.
  rewrite <- (length_map signal_core), parse_signals_by_line.
  rewrite signal_lines_split.
  induction (S n) as [|k IH]; [reflexivity|].
  cbn [repeat flat_map]. rewrite length_app, IH. reflexivity.
Qed.

Lemma signal_lines_valid n : valid (validate (signal_lines (S n))) = true.
Proof.
  assert (He : errors (validate (signal_lines (S n))) = []).
  { rewrite validate_errors, signal_lines_split.
    apply numbered_errors_nil.
    induction (S n) as [|k IH]; [reflexivity|].
    cbn [repeat forallb]. now rewrite IH. }
  revert He. unfold validate.
  destruct (validate_lines _ 0 ([], [])) as [errs warns].
  cbn. now intros ->.
Qed.

(** C9, against the claim: [parse] raises.  Under an engine that takes at
    most [n] arguments in one call, whatever [n] is, the text of [n + 1]
    lines [A: 0] is a text [validate] accepts, and [parse] throws a
    RangeError on it: the spread call that computes the total number of
    steps gets one argument for each signal. *)
Theorem parse_raises_RangeError n w :
  valid (validate (signal_lines (S n))) = true
  /\ fst (Engine.parse n (signal_lines (S n)) w) = inl RangeError.
Proof.
  split; [apply signal_lines_valid|].
  rewrite Engine_parse_eq. cbn [fst].
  rewrite signal_lines_signals.
  now rewrite (proj2 (Nat.leb_gt (S n) n)) by lia.
Qed.

